(** * GCBDetector: the lock checkers of staticcheck/lint.go

  A shallow embedding of the SSA view used by the concurrency checkers of
  [staticcheck/lint.go] (lock taxonomy, same-block and cross-block
  double-lock analysis, the goroutine/test-fatal checker and the
  [time.Tick] rewrite), with the properties stated about them.

  Conventions.
  - A Go pointer is an address ([Addr], [FuncPtr]) or, for a basic block,
    the pair of its parent function and its index in [Blocks]
    ([BlockRef]); pointer comparison is comparison of these.
  - Go [int] indices are [Z]; the sentinel [-1] is kept.
  - A Go run-time panic is [None] in the [option] monad. *)

From Stdlib Require Import ZArith Lia Bool Ascii String.
From stdpp Require Import base option list strings gmap fin_maps sorting.

Local Open Scope Z_scope.

#[local] Set Warnings "-clear-no-such-hyp".

(** ** Go's [strings] package (the functions the checkers call) *)

Module strings.

Fixpoint HasPrefix (s prefix : string) {struct prefix} : bool :=
  match prefix, s with
  | EmptyString, _ => true
  | String c p', String d s' => if Ascii.eqb c d then HasPrefix s' p' else false
  | String _ _, EmptyString => false
  end.

(** [IndexFrom s substr i]: index of the first occurrence of [substr] in
    [s], counted from [i] for the head of [s]; [-1] when there is none. *)
Fixpoint IndexFrom (s substr : string) (i : Z) : Z :=
  if HasPrefix s substr then i
  else match s with
       | EmptyString => -1
       | String _ s' => IndexFrom s' substr (i + 1)
       end.

Definition Index (s substr : string) : Z := IndexFrom s substr 0.

Definition Contains (s substr : string) : bool := 0 <=? Index s substr.

Definition lower (c : ascii) : ascii :=
  let n := Ascii.nat_of_ascii c in
  if ((65 <=? n)%nat && (n <=? 90)%nat)%bool then Ascii.ascii_of_nat (n + 32) else c.

(** [ToLower] on the ASCII letters; other bytes are kept, which is what
    Go does on an ASCII rendering. *)
Fixpoint ToLower (s : string) : string :=
  match s with
  | EmptyString => EmptyString
  | String c s' => String (lower c) (ToLower s')
  end.

(** The slice expression [s[lo:hi]]: it panics unless
    [0 <= lo <= hi <= len(s)]. *)
Definition slice (s : string) (lo hi : Z) : option string :=
  if ((0 <=? lo) && (lo <=? hi) && (hi <=? Z.of_nat (String.length s)))%bool
  then Some (String.substring (Z.to_nat lo) (Z.to_nat (hi - lo)) s)
  else None.

(** [Split s sep] for a non-empty [sep]: the pieces of [s] between the
    occurrences of [sep], found from left to right without overlap; [skip]
    counts the bytes of a separator that remain to be passed and [cur] is
    the piece read so far.  The result always has a last piece. *)
Fixpoint splitFrom (sep s : string) (skip : nat) (cur : string) : list string :=
  match s with
  | EmptyString => [cur]
  | String c s' =>
      match skip with
      | S k => splitFrom sep s' k cur
      | O =>
          if HasPrefix s sep
          then cur :: splitFrom sep s' (String.length sep - 1) EmptyString
          else splitFrom sep s' 0 (cur +:+ String c EmptyString)
      end
  end.

Definition Split (s sep : string) : list string := splitFrom sep s 0 EmptyString.

(** [Replace s old new n] for a non-empty [old]: the first [n]
    occurrences of [old], all of them when [n < 0], replaced by [new]. *)
Fixpoint replaceFrom (old new s : string) (skip : nat) (n : Z) : string :=
  match s with
  | EmptyString => EmptyString
  | String c s' =>
      match skip with
      | S k => replaceFrom old new s' k n
      | O =>
          if (negb (n =? 0) && HasPrefix s old)%bool
          then new +:+ replaceFrom old new s' (String.length old - 1) (n - 1)
          else String c (replaceFrom old new s' 0 n)
      end
  end.

Definition Replace (s old new : string) (n : Z) : string :=
  replaceFrom old new s 0 n.

End strings.

(** ** The SSA view *)

Module ssa.

Definition Addr := nat.
Definition FuncPtr := nat.
Bind Scope nat_scope with Addr FuncPtr.

(** [*ssa.BasicBlock]: its [Parent()] and its [Index] in the parent's
    [Blocks]. *)
Record BlockRef := mkBlockRef { bParent : FuncPtr; bIndex : nat }.

(** [*types.Func]: [Name()] and [FullName()]. *)
Record TypesFunc := mkTypesFunc { Name : string; FullName : string }.

(** The dynamic types of an [ssa.Value] that the checkers switch on. *)
Inductive Value :=
| VFunction (fn : FuncPtr)
| VMakeClosure (p : Addr) (Fn : FuncPtr)
| VBuiltin (name : string)
| VOther (p : Addr).

(** An argument of a call: its identity and its [String()]. *)
Record Arg := mkArg { argPtr : Addr; argString : string }.

(** [ssa.CallCommon]: [Value], [IsInvoke()], [Args] and [String()]. *)
Record CallCommon := mkCallCommon {
  cValue : Value;
  IsInvoke : bool;
  Args : list Arg;
  cString : string
}.

(** [*ssa.Call], [*ssa.Defer], [*ssa.Go]: the pointer, [Common()] and
    [Block()]. *)
Record CallInstr := mkCallInstr {
  iPtr : Addr;
  Common : CallCommon;
  Block : BlockRef
}.

Definition Parent (c : CallInstr) : FuncPtr := bParent (Block c).

Inductive Token := ARROW | MUL | SUB | NOT | XOR.

(** The operand [X] of a unary operation: a call instruction or any other
    value. *)
Inductive Operand :=
| OCall (c : CallInstr)
| OValue (p : Addr).

Inductive Instruction :=
| Call (c : CallInstr)
| Defer (c : CallInstr)
| Go (c : CallInstr)
| UnOp (p : Addr) (Op : Token) (X : Operand)
| Extract (p : Addr) (Tuple : Addr) (Index : Z)
| If (p : Addr) (Cond : Addr)
| Jump
| DebugRef
| Other (p : Addr).

(** [ssa.BasicBlock]; [Preds] and [Succs] point to blocks of the same
    function and hold their indices. *)
Record BasicBlock := mkBasicBlock {
  Instrs : list Instruction;
  Preds : list nat;
  Succs : list nat
}.

(** [ssa.Function]: [Blocks] (nil and empty are the same to every
    checker), [Object()] when it is a [*types.Func], and the type of
    [Signature.Recv()] as [types.TypeString] prints it. *)
Record Function := mkFunction {
  Blocks : list BasicBlock;
  Object : option TypesFunc;
  Recv : option string
}.

End ssa.
Import ssa.

#[global] Instance BlockRef_eq_dec : EqDecision BlockRef.
Proof. solve_decision. Defined.

#[global] Instance Token_eq_dec : EqDecision Token.
Proof. solve_decision. Defined.

(** ** The checkers *)

Section Checkers.

(** The heap of SSA functions: what a [*ssa.Function] points to. *)
Variable deref : FuncPtr -> Function.

Definition shortCallName (call : CallCommon) : string :=
  if IsInvoke call then ""
  else match cValue call with
       | VFunction v =>
           match Object (deref v) with
           | Some fn => Name fn
           | None => ""
           end
       | VBuiltin name => name
       | _ => ""
       end.

(** Modelled from the spec: [lintdsl.CallName] and [lintdsl.IsCallTo] are
    not part of the sources at hand.  The spec's [is_call_to(callsite,
    qualified_name)] compares the fully-qualified name of the static
    callee, and a dynamic-dispatch call is never a known call. *)
Definition CallName (call : CallCommon) : string :=
  if IsInvoke call then ""
  else match cValue call with
       | VFunction v =>
           match Object (deref v) with
           | Some fn => FullName fn
           | None => ""
           end
       | VBuiltin name => name
       | _ => ""
       end.

Definition IsCallTo (call : CallCommon) (name : string) : bool :=
  String.eqb (CallName call) name.

Definition isCallToLock (callCommon : CallCommon) : bool :=
  if IsCallTo callCommon "(*sync.Mutex).Lock"
     || IsCallTo callCommon "(*sync.RWMutex).RLock"
     || IsCallTo callCommon "(*sync.RWMutex).Lock"
  then true
  else
    let callStr := strings.ToLower (cString callCommon) in
    if strings.Contains callStr ".lock(" || strings.Contains callStr ".rlock("
    then
      if (1 <? Z.of_nat (length (Args callCommon))) then false else true
    else false.

Definition isCallToUnlock (callCommon : CallCommon) : bool :=
  if IsCallTo callCommon "(*sync.Mutex).Unlock"
     || IsCallTo callCommon "(*sync.RWMutex).RUnlock"
     || IsCallTo callCommon "(*sync.RWMutex).UnLock"
  then true
  else
    let callStr := strings.ToLower (cString callCommon) in
    if strings.Contains callStr ".unlock" || strings.Contains callStr ".runlock"
    then true
    else false.

(** [getLockPrefix] takes the [*ssa.Call] and only reads its [Common()]. *)
Definition getLockPrefix (lockCall : CallCommon) : option string :=
  if Z.of_nat (length (Args lockCall)) <? 1 then
    let lockStr := cString lockCall in
    if strings.Contains lockStr "invoke" then
      let start := strings.Index lockStr " " in
      let end_ := strings.Index lockStr "." in
      if negb (start =? -1) && negb (end_ =? -1)
      then strings.slice lockStr start end_
      else Some (cString lockCall)
    else Some (cString lockCall)
  else
    match Args lockCall with
    | value :: _ => Some (argString value)
    | [] => None
    end.


(** *** Same-block analysis *)

(** [b.Instrs] for a block pointer [b]. *)
Definition blockInstrs (b : BlockRef) : list Instruction :=
  match Blocks (deref (bParent b)) !! bIndex b with
  | Some bb => Instrs bb
  | None => []
  end.

(** The test [isCallToUnlock(call.Common()) && getLockPrefix(call) == key],
    where [key] is itself the result of a call that may panic. *)
Definition isUnlockOf (call : CallInstr) (key : option string) : option bool :=
  if isCallToUnlock (Common call)
  then p ← getLockPrefix (Common call); k ← key; Some (String.eqb p k)
  else Some false.

Definition isLockOf (call : CallInstr) (key : option string) : option bool :=
  if isCallToLock (Common call)
  then p ← getLockPrefix (Common call); k ← key; Some (String.eqb p k)
  else Some false.

(** The loop of [isLockToLockInSameBlock] from instruction [index] on;
    [unlockIndex] is only read in the iteration that sets it. *)
Fixpoint lockToLockLoop (fLock sLock : CallInstr) (instrs : list Instruction)
    (index fInstrIndex sInstrIndex : Z) : option bool :=
  match instrs with
  | [] => Some (if fInstrIndex <? sInstrIndex then true else false)
  | Call call :: rest =>
      let fInstrIndex :=
        if decide (iPtr call = iPtr fLock) then index else fInstrIndex in
      u ← isUnlockOf call (getLockPrefix (Common fLock));
      let unlockIndex := index in
      if u && (((fInstrIndex <? unlockIndex) && (sInstrIndex =? -1)
                && negb (fInstrIndex =? -1))
               || ((sInstrIndex <? unlockIndex) && (fInstrIndex =? -1)
                   && negb (sInstrIndex =? -1)))
      then Some false
      else
        let sInstrIndex :=
          if decide (iPtr call = iPtr sLock) then index else sInstrIndex in
        lockToLockLoop fLock sLock rest (index + 1) fInstrIndex sInstrIndex
  | _ :: rest =>
      lockToLockLoop fLock sLock rest (index + 1) fInstrIndex sInstrIndex
  end.

Definition isLockToLockInSameBlock (fLock sLock : CallInstr) : option bool :=
  let curBlock := Block fLock in
  lockToLockLoop fLock sLock (blockInstrs curBlock) 0 (-1) (-1).

(** *** Basic-block call graph *)

(** Modelled from the spec: package [bbcallgraph] is not part of the
    sources at hand.  A graph is built for a root function, its nodes are
    basic blocks, and [CreateBBNode] is idempotent: a node is the pair of
    its graph and its block. *)
Record BBNode := mkBBNode { nGraph : FuncPtr; BB : BlockRef }.

Definition BBCallGraph (fn : FuncPtr) : FuncPtr := fn.

Definition CreateBBNode (bg : FuncPtr) (bb : BlockRef) : BBNode :=
  mkBBNode bg bb.

(** [bbcallgraph.LockPathSearch] is kept abstract: the source node, the
    target node, the lock key and the pruning callback (which may panic)
    give the path found, empty when there is none. *)
Variable LockPathSearch :
  BBNode -> BBNode -> string -> (BBNode -> option bool) -> option (list BBNode).

(** The loop of [isUnlockBeforeLock] from instruction [index] on. *)
Fixpoint unlockBeforeLockLoop (lockKey : string) (instrs : list Instruction)
    (index lockIndex unLockIndex : Z) : option bool :=
  match instrs with
  | [] => Some (if unLockIndex <? lockIndex then true else false)
  | Call call :: rest =>
      u ← isUnlockOf call (Some lockKey);
      let unLockIndex := if (u : bool) then index else unLockIndex in
      l ← isLockOf call (Some lockKey);
      let lockIndex := if (l : bool) then index else lockIndex in
      unlockBeforeLockLoop lockKey rest (index + 1) lockIndex unLockIndex
  | _ :: rest =>
      unlockBeforeLockLoop lockKey rest (index + 1) lockIndex unLockIndex
  end.

Definition isUnlockBeforeLock (sNode : BBNode) (lockKey : string) : option bool :=
  unlockBeforeLockLoop lockKey (blockInstrs (BB sNode)) 0 (-1) (-1).

(** The first loop of [findPath]: [isNeededSearch] after scanning the
    instructions. *)
Fixpoint neededSearchLoop (lockKey : string) (instrs : list Instruction)
    (isNeededSearch : bool) : option bool :=
  match instrs with
  | [] => Some isNeededSearch
  | Call call :: rest =>
      u ← isUnlockOf call (Some lockKey);
      neededSearchLoop lockKey rest (if (u : bool) then false else isNeededSearch)
  | _ :: rest => neededSearchLoop lockKey rest isNeededSearch
  end.

(** The callback that [findPath] hands to [LockPathSearch]. *)
Fixpoint pruneLoop (lockKey : string) (instrs : list Instruction) : option bool :=
  match instrs with
  | [] => Some true
  | Call call :: rest =>
      u ← isUnlockOf call (Some lockKey);
      if (u : bool) then Some false
      else
        l ← isLockOf call (Some lockKey);
        if (l : bool) then Some true else pruneLoop lockKey rest
  | _ :: rest => pruneLoop lockKey rest
  end.

Definition prune (lockKey : string) (node : BBNode) : option bool :=
  pruneLoop lockKey (blockInstrs (BB node)).

Definition findPath (fNode sNode : BBNode) (lockKey : string) : option bool :=
  isNeededSearch ← neededSearchLoop lockKey (blockInstrs (BB fNode)) true;
  ub ← isUnlockBeforeLock sNode lockKey;
  let isNeededSearch := if (ub : bool) then false else isNeededSearch in
  if isNeededSearch then
    result ← LockPathSearch fNode sNode lockKey (prune lockKey);
    if 0 <? Z.of_nat (length result) then Some true else Some false
  else Some false.

(** *** Loops and the function call graph *)

(** [c.funcDescs.Get(fn).Loops]: the loops of a function, each a set of
    blocks ([map[*ssa.BasicBlock]bool]). *)
Variable Loops : FuncPtr -> list (BlockRef -> bool).

Definition isInLoop (b : BlockRef) : bool :=
  existsb (fun set => set b) (Loops (bParent b)).

(** [callgraph.Edge]: the call site and the callee. *)
Record Edge := mkEdge { Site : Instruction; Callee : FuncPtr }.

(** [c.funcDescs.CallGraph]: the out-edges of the node of each function. *)
Variable CallGraph : gmap FuncPtr (list Edge).

Definition Out (n : FuncPtr) : list Edge := default [] (CallGraph !! n).

(** Modelled from the spec: [callgraph.PathSearchIgnoreGoCall] is not part
    of the sources at hand.  It finds a path in the function call graph
    from the start node to a node matching the predicate, skipping the
    edges of goroutine launches, and returns the call-site edges along the
    path: a depth-first search that pushes the edge it follows and returns
    the stack where the predicate holds, so the path to the start node
    itself has no edge.  [None] is the nil slice of a failed search;
    [seen] is threaded through the calls. *)
Fixpoint searchEdges
    (search : FuncPtr -> list Edge -> list FuncPtr
              -> option (list Edge) * list FuncPtr)
    (stack : list Edge) (es : list Edge) (seen : list FuncPtr)
  : option (list Edge) * list FuncPtr :=
  match es with
  | [] => (None, seen)
  | e :: es' =>
      match Site e with
      | Go _ => searchEdges search stack es' seen
      | _ =>
          match search (Callee e) (stack ++ [e]) seen with
          | (Some found, seen') => (Some found, seen')
          | (None, seen') => searchEdges search stack es' seen'
          end
      end
  end.

Fixpoint pathSearch (isEnd : FuncPtr -> bool) (fuel : nat) (n : FuncPtr)
    (stack : list Edge) (seen : list FuncPtr)
  : option (list Edge) * list FuncPtr :=
  match fuel with
  | O => (None, seen)
  | S fuel' =>
      if decide (n ∈ seen) then (None, seen)
      else
        let seen := n :: seen in
        if isEnd n then (Some stack, seen)
        else searchEdges (pathSearch isEnd fuel') stack (Out n) seen
  end.

(** Every level of the recursion marks a node that was not seen, so the
    depth never exceeds the number of nodes with out-edges by more than
    one: this fuel is enough. *)
Definition PathSearchIgnoreGoCall (start : FuncPtr) (isEnd : FuncPtr -> bool)
  : list Edge :=
  default [] (fst (pathSearch isEnd (2 + size CallGraph) start [] [])).

(** *** The double-lock decision *)

Definition _isDoubleLock (fInstr sInstr : CallInstr) (lockKey : string)
  : option bool :=
  let fName := shortCallName (Common fInstr) in
  let sName := shortCallName (Common sInstr) in
  if negb (String.eqb fName sName) then Some false
  else
    let fFunc := Parent fInstr in
    let sFunc := Parent sInstr in
    let bg := BBCallGraph fFunc in
    isNotNeedFindPathSearch ←
      (if decide (Block fInstr = Block sInstr) then
         same ← isLockToLockInSameBlock fInstr sInstr;
         if negb same && isInLoop (Block fInstr)
         then findPath (CreateBBNode bg (Block fInstr))
                       (CreateBBNode bg (Block sInstr)) lockKey
         else Some same
       else if decide (fFunc = sFunc) then
         findPath (CreateBBNode bg (Block fInstr))
                  (CreateBBNode bg (Block sInstr)) lockKey
       else Some false);
    if negb isNotNeedFindPathSearch then
      let pathResult :=
        PathSearchIgnoreGoCall fFunc (fun other => bool_decide (other = sFunc)) in
      if 0 <? Z.of_nat (length pathResult) then
        let sNode := CreateBBNode bg (Block sInstr) in
        ub ← isUnlockBeforeLock sNode lockKey;
        if (ub : bool) then Some false
        else
          match pathResult with
          | firstEdge :: _ =>
              match Site firstEdge with
              | Call sInstr' =>
                  if decide (Block fInstr = Block sInstr') then
                    same ← isLockToLockInSameBlock fInstr sInstr';
                    if (same : bool) then Some true
                    else Some isNotNeedFindPathSearch
                  else
                    findPath (CreateBBNode bg (Block fInstr))
                             (CreateBBNode bg (Block sInstr')) lockKey
              | _ => Some false
              end
          | [] => None
          end
      else Some isNotNeedFindPathSearch
    else Some isNotNeedFindPathSearch.

(** *** Diagnostics *)

(** The messages of the two checkers; a position is named by the
    instruction whose [Pos()] is displayed. *)
Inductive Message :=
| AcquiringAgainBoth (name : string) (po po1 : Addr)
| AcquiringAgain (name : string) (po : Addr)
| GoroutineCallsT (name : string).

(** [j.Errorf(node, ...)]: the reported node and the message. *)
Record Diagnostic := mkDiagnostic { dNode : Addr; dMessage : Message }.

(** *** Collecting the lock calls *)

Fixpoint foldM {A B : Type} (f : B -> A -> option B) (b : B) (l : list A)
  : option B :=
  match l with
  | [] => Some b
  | x :: l' => b' ← f b x; foldM f b' l'
  end.

Definition collectInstr (result : gmap string (list CallInstr))
    (instr : Instruction) : option (gmap string (list CallInstr)) :=
  match instr with
  | Call call =>
      if isCallToLock (Common call) then
        lockValue ← getLockPrefix (Common call);
        Some (<[lockValue := (default [] (result !! lockValue) ++ [call])%list]> result)
      else Some result
  | _ => Some result
  end.

Definition collectLockInstrs (function : Function)
  : option (gmap string (list CallInstr)) :=
  foldM (fun result bb => foldM collectInstr result (Instrs bb)) ∅
        (Blocks function).

(** The body of [for lockKey, lockInstrs := range lockResultBB], run over
    the entries in the order the runtime yields them. *)
Definition mergeLocks (lockInstructions : gmap string (list CallInstr))
    (entries : list (string * list CallInstr)) : gmap string (list CallInstr) :=
  foldl (fun acc entry =>
           <[entry.1 := (default [] (acc !! entry.1) ++ entry.2)%list]> acc)
        lockInstructions entries.

(** The first loop of [CheckDoubleLock]; the entries of each
    [lockResultBB] have distinct keys, so the merged map is the same for
    every order in which they are yielded. *)
Definition collectAll (InitialFunctions : list FuncPtr)
  : option (gmap string (list CallInstr)) :=
  foldM (fun lockInstructions ssafn =>
           lockResultBB ← collectLockInstrs (deref ssafn);
           Some (mergeLocks lockInstructions (map_to_list lockResultBB)))
        ∅ InitialFunctions.

(** The two tests of one pair [(fInstr, sInstr)] and what they report. *)
Definition checkPair (lockKey : string) (fInstr sInstr : CallInstr)
  : option (list Diagnostic) :=
  d1 ← _isDoubleLock fInstr sInstr lockKey;
  d2 ← (if decide (iPtr fInstr = iPtr sInstr) then Some false
        else _isDoubleLock sInstr fInstr lockKey);
  Some (((if (d1 : bool)
         then [mkDiagnostic (iPtr fInstr)
                 (AcquiringAgainBoth (shortCallName (Common fInstr))
                    (iPtr sInstr) (iPtr fInstr))]
         else [])
        ++ (if (d2 : bool)
            then [mkDiagnostic (iPtr sInstr)
                    (AcquiringAgain (shortCallName (Common sInstr)) (iPtr fInstr))]
            else []))%list).

(** The loops over [i] and [t >= i]: [lockInstrs] is the suffix from [i]. *)
Fixpoint checkKey (lockKey : string) (lockInstrs : list CallInstr)
  : option (list Diagnostic) :=
  match lockInstrs with
  | [] => Some []
  | fInstr :: rest =>
      ds ← mapM (checkPair lockKey fInstr) (fInstr :: rest);
      ds' ← checkKey lockKey rest;
      Some (concat ds ++ ds')%list
  end.

(** [CheckDoubleLock]; [order] is the order in which the runtime yields the
    keys of [lockInstructions] to the second [range] loop. *)
Definition CheckDoubleLock (InitialFunctions : list FuncPtr) (order : list string)
  : option (list Diagnostic) :=
  lockInstructions ← collectAll InitialFunctions;
  ds ← mapM (fun lockKey =>
               checkKey lockKey (default [] (lockInstructions !! lockKey)))
            order;
  Some (concat ds).

(** An order in which [range] may yield the keys of a map: each key once. *)
Definition rangeOrder (m : gmap string (list CallInstr)) (order : list string)
  : Prop :=
  order ≡ₚ (map_to_list m).*1.

(** *** Goroutines that call the test-fatal methods *)

(** Modelled from the spec: [CallCommon.StaticCallee] belongs to package
    [ssa], which is not part of the sources at hand: the function called
    when the callee value is a function or a closure over one, nil
    otherwise. *)
Definition StaticCallee (call : CallCommon) : option FuncPtr :=
  match cValue call with
  | VFunction fn => Some fn
  | VMakeClosure _ fn => Some fn
  | _ => None
  end.

(** Modelled from the spec: [lintdsl.IsType] is not part of the sources at
    hand; it compares the printed type with the name. *)
Definition IsType (T name : string) : bool := String.eqb T name.

Definition isFatalName (name : string) : bool :=
  bool_decide (name ∈ ["FailNow"; "Fatal"; "Fatalf"; "SkipNow"; "Skip"; "Skipf"]).

(** The chain of [continue]s of the innermost loop: the name reported for
    this instruction of the goroutine's function, if any. *)
Definition fatalCallName (ins : Instruction) : option string :=
  match ins with
  | Call call =>
      if IsInvoke (Common call) then None
      else
        match StaticCallee (Common call) with
        | None => None
        | Some callee =>
            match Recv (deref callee) with
            | None => None
            | Some recv =>
                if negb (IsType recv "*testing.common") then None
                else
                  match Object (deref callee) with
                  | None => None
                  | Some fn =>
                      let name := Name fn in
                      if isFatalName name then Some name else None
                  end
            end
        end
  | _ => None
  end.

(** The function a [go] statement starts, when the type switch finds one. *)
Definition goTarget (gostmt : CallInstr) : option FuncPtr :=
  match cValue (Common gostmt) with
  | VFunction val => Some val
  | VMakeClosure _ val => Some val
  | _ => None
  end.

Definition checkGo (ins : Instruction) : list Diagnostic :=
  match ins with
  | Go gostmt =>
      match goTarget gostmt with
      | None => []
      | Some fn =>
          flat_map
            (fun block =>
               flat_map
                 (fun ins =>
                    match fatalCallName ins with
                    | Some name =>
                        [mkDiagnostic (iPtr gostmt) (GoroutineCallsT name)]
                    | None => []
                    end)
                 (Instrs block))
            (Blocks (deref fn))
      end
  | _ => []
  end.

Definition CheckConcurrentTesting (InitialFunctions : list FuncPtr)
  : list Diagnostic :=
  flat_map
    (fun ssafn =>
       flat_map (fun block => flat_map checkGo (Instrs block))
                (Blocks (deref ssafn)))
    InitialFunctions.

(** *** The [time.Tick] rewrite *)

(** The slots [&block.Instrs[i]] of the instructions that are not
    [DebugRef]s, from index [i] on. *)
Fixpoint nonDebugSlots (instrs : list Instruction) (i : nat) : list nat :=
  match instrs with
  | [] => []
  | DebugRef :: rest => nonDebugSlots rest (S i)
  | _ :: rest => i :: nonDebugSlots rest (S i)
  end.

(** Modelled from the spec: [ssa.NewJump] and [BasicBlock.RemovePred]
    belong to package [ssa], which is not part of the sources at hand.  The
    branch becomes an unconditional jump, and removing an edge removes the
    predecessor from the dropped successor. *)
Definition NewJump : Instruction := Jump.

Definition RemovePred (b : BasicBlock) (p : nat) : BasicBlock :=
  mkBasicBlock (Instrs b) (filter (fun q => q ≠ p) (Preds b)) (Succs b).

(** The tests of one iteration of the loop over [instrs]: [None] is an
    index out of range, [Some None] a [continue], and [Some (Some s)] the
    slot [instrs[i+2]] of the branch to rewrite. *)
Definition tickBranch (block : BasicBlock) (instrs : list nat) (i : nat)
  : option (option nat) :=
  match instrs !! i ≫= (fun s => Instrs block !! s) with
  | Some (UnOp unop ARROW (OCall call)) =>
      if negb (IsCallTo (Common call) "time.Tick") then Some None
      else
        s1 ← instrs !! (i + 1)%nat;
        match Instrs block !! s1 with
        | Some (Extract ex Tuple Index) =>
            if negb (bool_decide (Tuple = unop)) || negb (Index =? 1)
            then Some None
            else
              s2 ← instrs !! (i + 2)%nat;
              match Instrs block !! s2 with
              | Some (If _ Cond) =>
                  if negb (bool_decide (Cond = ex)) then Some None
                  else Some (Some s2)
              | _ => Some None
              end
        | _ => Some None
        end
  | _ => Some None
  end.

(** One iteration on the block of index [bi]: the blocks of the function
    are the state. *)
Definition rewriteAt (bi : nat) (instrs : list nat) (blocks : list BasicBlock)
    (i : nat) : option (list BasicBlock) :=
  match blocks !! bi with
  | None => Some blocks
  | Some block =>
      m ← tickBranch block instrs i;
      match m with
      | None => Some blocks
      | Some s2 =>
          let rewritten := <[s2 := NewJump]> (Instrs block) in
          succ ← Succs block !! 1%nat;
          let block' :=
            mkBasicBlock rewritten (Preds block) (take 1 (Succs block)) in
          Some (alter (fun b => RemovePred b bi) succ (<[bi := block']> blocks))
      end
  end.

Definition applyBlock (blocks : list BasicBlock) (bi : nat)
  : option (list BasicBlock) :=
  match blocks !! bi with
  | None => Some blocks
  | Some block =>
      if (length (Instrs block) <? 3)%nat then Some blocks
      else if negb (length (Succs block) =? 2)%nat then Some blocks
      else
        let instrs := nonDebugSlots (Instrs block) 0 in
        foldM (rewriteAt bi instrs) blocks (seq 0 (length instrs))
  end.

Definition applyStdlibKnowledge (fn : Function) : option Function :=
  if (length (Blocks fn) =? 0)%nat then Some fn
  else
    blocks ← foldM applyBlock (Blocks fn) (seq 0 (length (Blocks fn)));
    Some (mkFunction blocks (Object fn) (Recv fn)).

End Checkers.

(** ** The checkers of adjacent instructions *)

Section AdjacentCheckers.

Variable deref : FuncPtr -> Function.

(** [j.Errorf(node, format, ...)] with its formatted text. *)
Record Report := mkReport { rNode : Addr; rText : string }.

(** Modelled from the spec: [lintdsl.FilterDebug] is not part of the
    sources at hand; it removes the debug-only pseudo-instructions. *)
Fixpoint FilterDebug (instrs : list Instruction) : list Instruction :=
  match instrs with
  | [] => []
  | DebugRef :: rest => FilterDebug rest
  | ins :: rest => ins :: FilterDebug rest
  end.

(** The [switch name] of both checkers. *)
Definition unlockNameFor (name : string) : string :=
  if String.eqb name "Lock" then "Unlock"
  else if String.eqb name "RLock" then "RUnlock"
  else "".

(** The body of the loop of [CheckDeferLock] on [instrs[i]] and
    [instrs[i+1]]; [Args[0]] panics on a call without arguments. *)
Definition deferLockStep (ins next : Instruction) : option (list Report) :=
  match ins with
  | Call call =>
      if negb (isCallToLock deref (Common call)) then Some []
      else
        match next with
        | Defer nins =>
            if negb (isCallToLock deref (Common nins)) then Some []
            else
              a ← Args (Common call) !! 0%nat;
              b ← Args (Common nins) !! 0%nat;
              if negb (argPtr a =? argPtr b)%nat then Some []
              else
                let name := shortCallName deref (Common call) in
                let alt := unlockNameFor name in
                Some [mkReport (iPtr nins)
                        ("deferring " +:+ name
                         +:+ " right after having locked already; did you mean to defer "
                         +:+ alt +:+ "?")]
        | _ => Some []
        end
  | _ => Some []
  end.

(** The body of the loop of [CheckUnlockAfterLock]. *)
Definition unlockAfterLockStep (ins next : Instruction) : option (list Report) :=
  match ins with
  | Call call =>
      if negb (isCallToLock deref (Common call)) then Some []
      else
        match next with
        | Call nins =>
            if negb (isCallToUnlock deref (Common nins)) then Some []
            else
              a ← Args (Common call) !! 0%nat;
              b ← Args (Common nins) !! 0%nat;
              if negb (argPtr a =? argPtr b)%nat then Some []
              else
                let name := shortCallName deref (Common call) in
                let alt := unlockNameFor name in
                Some [mkReport (iPtr nins)
                        ("Unlock " +:+ name
                         +:+ " right after locking; did you mean to defer "
                         +:+ alt +:+ "?")]
        | _ => Some []
        end
  | _ => Some []
  end.

(** [for i, ins := range instrs[:len(instrs)-1]] with [instrs[i+1]]: the
    loop over the adjacent pairs; fewer than two instructions give none. *)
Fixpoint adjacentLoop (step : Instruction -> Instruction -> option (list Report))
    (instrs : list Instruction) : option (list Report) :=
  match instrs with
  | ins :: rest =>
      match rest with
      | next :: _ =>
          ds ← step ins next;
          ds' ← adjacentLoop step rest;
          Some (ds ++ ds')
      | [] => Some []
      end
  | [] => Some []
  end.

(** The loops over the initial functions and their blocks. *)
Definition adjacentChecker
    (step : Instruction -> Instruction -> option (list Report))
    (InitialFunctions : list FuncPtr) : option (list Report) :=
  dss ← mapM (fun ssafn =>
                ds ← mapM (fun block =>
                             adjacentLoop step (FilterDebug (Instrs block)))
                          (Blocks (deref ssafn));
                Some (concat ds))
             InitialFunctions;
  Some (concat dss).

Definition CheckDeferLock (InitialFunctions : list FuncPtr) : option (list Report) :=
  adjacentChecker deferLockStep InitialFunctions.

Definition CheckUnlockAfterLock (InitialFunctions : list FuncPtr)
  : option (list Report) :=
  adjacentChecker unlockAfterLockStep InitialFunctions.

End AdjacentCheckers.

(** ** Build tags *)

(** Go's [sort.Strings]: the strings in increasing order, compared byte by
    byte.  The order is total, so the result is the one sorted permutation
    of the argument whatever the algorithm; merge sort computes it. *)
Module sort.

Definition le (a b : string) : Prop := String.leb a b = true.

#[global] Instance le_dec (a b : string) : Decision (le a b).
Proof. unfold le. apply _. Defined.

Definition Strings (x : list string) : list string := merge_sort le x.

End sort.

(** The loop [for i, s := range s1s] that reads [s2s[i]]. *)
Fixpoint tagsLoop (s1s s2s : list string) (i : nat) : option bool :=
  match s1s with
  | [] => Some true
  | s :: rest =>
      t ← s2s !! i;
      if negb (String.eqb s t) then Some false else tagsLoop rest s2s (S i)
  end.

Definition buildTagsIdentical (s1 s2 : list string) : option bool :=
  if negb (length s1 =? length s2)%nat then Some false
  else
    let s1s := sort.Strings s1 in
    let s2s := sort.Strings s2 in
    tagsLoop s1s s2s 0.

(** ** The syntax-tree checker of empty critical sections *)

(** The part of [go/ast] and [go/types] that the checker reads. *)
Module ast.

Inductive Expr :=
| CallExpr (Fun : Expr)
| SelectorExpr (X : Expr) (Sel : Addr)
| OtherExpr (p : Addr).

Inductive Stmt :=
| ExprStmt (X : Expr)
| OtherStmt (p : Addr).

(** [*types.Signature]: [Params().Len()] and [Results().Len()]. *)
Record Signature := mkSignature { ParamsLen : nat; ResultsLen : nat }.

(** [types.Object]: a [*types.Func] with its name and signature, or
    anything else, nil included. *)
Inductive TypesObject :=
| Func (name : string) (sig : Signature)
| OtherObject.

End ast.
Import ast.

Section EmptyCriticalSection.

(** [ObjectOf(j, ident)] and [Render(j, expr)] read the type information
    and the file set of the job; both are kept abstract. *)
Variable ObjectOf : Addr -> TypesObject.
Variable Render : Expr -> string.

(** The closure [mutexParams]; [None] is [ok == false]. *)
Definition mutexParams (s : Stmt) : option (Expr * string) :=
  match s with
  | ExprStmt (CallExpr (SelectorExpr X Sel)) =>
      match ObjectOf Sel with
      | Func name sig =>
          if negb (ParamsLen sig =? 0)%nat || negb (ResultsLen sig =? 0)%nat
          then None
          else Some (X, name)
      | OtherObject => None
      end
  | _ => None
  end.

(** The body of the loop on [block.List[i]] and [block.List[i+1]]: whether
    [block.List[i+1]] is reported. *)
Definition emptySectionStep (s1 s2 : Stmt) : bool :=
  match mutexParams s1, mutexParams s2 with
  | Some (sel1, method1), Some (sel2, method2) =>
      if negb (String.eqb (Render sel1) (Render sel2)) then false
      else
        (String.eqb method1 "Lock" && String.eqb method2 "Unlock")
        || (String.eqb method1 "RLock" && String.eqb method2 "RUnlock")
  | _, _ => false
  end.

(** [for i := range block.List[:len(block.List)-1]] from index [i] on: the
    indices in [block.List] of the reported statements. *)
Fixpoint emptySectionLoop (List : list Stmt) (i : nat) : list nat :=
  match List with
  | s1 :: rest =>
      match rest with
      | s2 :: _ =>
          (if emptySectionStep s1 s2 then [S i] else [])
          ++ emptySectionLoop rest (S i)
      | [] => []
      end
  | [] => []
  end.

(** The closure [fn] on a block statement with the statements [List]. *)
Definition emptyCriticalSections (List : list Stmt) : list nat :=
  if (length List <? 2)%nat then [] else emptySectionLoop List 0.

End EmptyCriticalSection.

(** ** Deprecation notices *)

Definition newline : string := String (Ascii.ascii_of_nat 10) EmptyString.

Section Deprecated.

(** [pkginfo.ObjectOf(name)]: the object of an identifier, by address. *)
Variable ObjectOf : Addr -> Addr.

(** The loop of [doDocs] over the comment groups, each nil or given by
    its [Text()]: the value of [alt] after the loop.  Both the index
    [len(parts)-1] and the slice of [last] can panic. *)
Fixpoint docsLoop (docs : list (option string)) : option string :=
  match docs with
  | [] => Some EmptyString
  | None :: rest => docsLoop rest
  | Some text :: rest =>
      let parts := strings.Split text (newline +:+ newline) in
      last ← parts !! (length parts - 1)%nat;
      if negb (strings.HasPrefix last "Deprecated: ") then docsLoop rest
      else
        alt ← strings.slice last (Z.of_nat (String.length "Deprecated: "))
                (Z.of_nat (String.length last));
        Some (strings.Replace alt newline " " (-1))
  end.

(** The closure [doDocs] of [findDeprecated] on the map
    [c.deprecatedObjs]. *)
Definition doDocs (names : list Addr) (docs : list (option string))
    (deprecatedObjs : gmap Addr string) : option (gmap Addr string) :=
  alt ← docsLoop docs;
  if String.eqb alt EmptyString then Some deprecatedObjs
  else Some (foldl (fun m name => <[ObjectOf name := alt]> m)
                   deprecatedObjs names).

End Deprecated.

(** ** Statements of the specification, to be compared with the code *)

(** The callee is one of the three lock methods of package [sync]. *)
Definition isNamedLock (deref : FuncPtr -> Function) (c : CallCommon) : bool :=
  IsCallTo deref c "(*sync.Mutex).Lock"
  || IsCallTo deref c "(*sync.RWMutex).RLock"
  || IsCallTo deref c "(*sync.RWMutex).Lock".

(** The lowercased rendering contains [.lock(] or [.rlock(]. *)
Definition isTextualLock (c : CallCommon) : bool :=
  strings.Contains (strings.ToLower (cString c)) ".lock("
  || strings.Contains (strings.ToLower (cString c)) ".rlock(".



(** In a rendering that has both, the first space is not after the first
    dot. *)
Definition spaceBeforeDot (s : string) : Prop :=
  strings.Index s " " <> -1 -> strings.Index s "." <> -1 ->
  strings.Index s " " <= strings.Index s ".".


(** An unlock call of the key at index [m] of the instructions. *)
Definition unlockAt (deref : FuncPtr -> Function) (instrs : list Instruction)
    (key : string) (m : nat) : Prop :=
  exists call, instrs !! m = Some (Call call)
    /\ isCallToUnlock deref (Common call) = true
    /\ getLockPrefix (Common call) = Some key.

(** A lock call of the key at index [m] of the instructions. *)
Definition lockAt (deref : FuncPtr -> Function) (instrs : list Instruction)
    (key : string) (m : nat) : Prop :=
  exists call, instrs !! m = Some (Call call)
    /\ isCallToLock deref (Common call) = true
    /\ getLockPrefix (Common call) = Some key.

(** Every call among the instructions has a key: [getLockPrefix] does not
    panic on it. *)
Definition keysDefined (instrs : list Instruction) : Prop :=
  forall call, Call call ∈ instrs -> is_Some (getLockPrefix (Common call)).

(** A call instruction occupies one slot: two slots never hold the same
    pointer. *)
Definition distinctCalls (instrs : list Instruction) : Prop :=
  forall m n c1 c2,
    instrs !! m = Some (Call c1) -> instrs !! n = Some (Call c2) ->
    iPtr c1 = iPtr c2 -> m = n.

(** [x] is the index of the last instruction before [n] that satisfies
    [P], or [-1] when there is none: the value of an index variable that
    starts at [-1] and is overwritten at each match. *)
Definition isLast (P : nat -> Prop) (n : nat) (x : Z) : Prop :=
  (x = -1 /\ forall m, (m < n)%nat -> ~ P m)
  \/ (exists k, x = Z.of_nat k /\ (k < n)%nat /\ P k
        /\ forall m, (k < m < n)%nat -> ~ P m).

(** The value of the index variable of the instruction at index [i] once
    the instructions before [n] have been scanned. *)
Definition idxBefore (i n : nat) : Z :=
  if (i <? n)%nat then Z.of_nat i else -1.

(** The same-block test in the words of the specification: true exactly
    when the first lock is before the second and no unlock of the key is
    at an index strictly between them. *)
Definition lockToLockAsStated (deref : FuncPtr -> Function)
    (fLock sLock : CallInstr) (i j : nat) (key : string) : Prop :=
  isLockToLockInSameBlock deref fLock sLock = Some true <->
    (i < j)%nat
    /\ forall m, (i < m < j)%nat ->
         ~ unlockAt deref (blockInstrs deref (Block fLock)) key m.

(** The unlock calls among the instructions have a key. *)
Definition unlockKeysDefined (deref : FuncPtr -> Function)
    (instrs : list Instruction) : Prop :=
  forall call, Call call ∈ instrs ->
    isCallToUnlock deref (Common call) = true ->
    is_Some (getLockPrefix (Common call)).

(** A call that a goroutine must not make: a static call of one of the six
    methods on a receiver of type [*testing.common]. *)
Definition directFatalCall (deref : FuncPtr -> Function) (ins : Instruction)
    (name : string) : Prop :=
  exists call callee fn,
    ins = Call call /\ IsInvoke (Common call) = false
    /\ StaticCallee (Common call) = Some callee
    /\ Recv (deref callee) = Some "*testing.common"
    /\ Object (deref callee) = Some fn /\ Name fn = name
    /\ name ∈ ["FailNow"; "Fatal"; "Fatalf"; "SkipNow"; "Skip"; "Skipf"].

(** A function transitively contains such a call: in one of its own
    blocks, or in a function that one of its static calls reaches. *)
Inductive containsFatalCall (deref : FuncPtr -> Function) : FuncPtr -> Prop :=
| fatal_direct fn block ins name :
    block ∈ Blocks (deref fn) -> ins ∈ Instrs block ->
    directFatalCall deref ins name ->
    containsFatalCall deref fn
| fatal_through fn block call callee :
    block ∈ Blocks (deref fn) -> Call call ∈ Instrs block ->
    IsInvoke (Common call) = false ->
    StaticCallee (Common call) = Some callee ->
    containsFatalCall deref callee ->
    containsFatalCall deref fn.

(** The [go] instructions of the initial functions. *)
Definition goInstrOf (deref : FuncPtr -> Function)
    (InitialFunctions : list FuncPtr) (gostmt : CallInstr) : Prop :=
  exists ssafn block,
    ssafn ∈ InitialFunctions /\ block ∈ Blocks (deref ssafn)
    /\ Go gostmt ∈ Instrs block.

(** The goroutine checker in the words of the specification: a [go]
    instruction is reported exactly when its target function transitively
    contains a test-fatal call. *)
Definition concurrentTestingAsStated (deref : FuncPtr -> Function)
    (InitialFunctions : list FuncPtr) : Prop :=
  forall gostmt, goInstrOf deref InitialFunctions gostmt ->
    (exists d, d ∈ CheckConcurrentTesting deref InitialFunctions
               /\ dNode d = iPtr gostmt)
    <-> exists fn, goTarget gostmt = Some fn /\ containsFatalCall deref fn.



(** Two states of a block with the same instructions and successors. *)
Definition sameShape (b b' : BasicBlock) : Prop :=
  Instrs b' = Instrs b /\ Succs b' = Succs b.

(** A block that the rewrite leaves alone: it is skipped, or no iteration
    finds the branch on the [ok] of a receive from a [Tick] channel. *)
Definition stable (deref : FuncPtr -> Function) (b : BasicBlock) : Prop :=
  (length (Instrs b) < 3)%nat \/ length (Succs b) <> 2%nat
  \/ forall i, tickBranch deref b (nonDebugSlots (Instrs b) 0) i = Some None.

Definition isIf (ins : Instruction) : Prop := exists p Cond, ins = If p Cond.

(** The SSA invariant that the rewrite relies on: a block with two
    successors ends in its only [If]. *)
Definition endsInIf (b : BasicBlock) : Prop :=
  length (Succs b) = 2%nat ->
  exists pre p Cond,
    Instrs b = pre ++ [If p Cond] /\ forall ins, ins ∈ pre -> ~ isIf ins.

Definition wellFormed (fn : Function) : Prop := Forall endsInIf (Blocks fn).

(** The states of a block during the loop over its instructions: it ends
    in its [If] and has two successors, or it ends in the [Jump] and has
    one. *)
Definition inLoopState (pre : list Instruction) (p Cond : Addr)
    (bc : BasicBlock) : Prop :=
  (Instrs bc = pre ++ [If p Cond] /\ length (Succs bc) = 2%nat)
  \/ (Instrs bc = pre ++ [Jump] /\ length (Succs bc) = 1%nat).

(** The number of nodes with out-edges that a search has not seen yet. *)
Definition unseen (CallGraph : gmap FuncPtr (list Edge)) (seen : list FuncPtr)
  : nat :=
  size (dom CallGraph ∖ (list_to_set seen : gset FuncPtr)).

(** Two instructions that follow each other in a block of an initial
    function once the debug instructions are filtered out. *)
Definition adjacentIn (deref : FuncPtr -> Function)
    (InitialFunctions : list FuncPtr) (a b : Instruction) : Prop :=
  exists ssafn block i,
    ssafn ∈ InitialFunctions /\ block ∈ Blocks (deref ssafn)
    /\ FilterDebug (Instrs block) !! i = Some a
    /\ FilterDebug (Instrs block) !! S i = Some b.

(** The two calls have a first argument and it is the same value. *)
Definition sameReceiver (c1 c2 : CallCommon) : Prop :=
  exists x y, Args c1 !! 0%nat = Some x /\ Args c2 !! 0%nat = Some y
              /\ argPtr x = argPtr y.

(** The lock calls among the instructions, in their order. *)
Definition lockCallsIn (deref : FuncPtr -> Function)
    (instrs : list Instruction) : list CallInstr :=
  flat_map (fun ins => match ins with
                       | Call call =>
                           if isCallToLock deref (Common call) then [call] else []
                       | _ => []
                       end) instrs.

(** The lock calls of a function, block after block. *)
Definition lockCalls (deref : FuncPtr -> Function) (fn : Function)
  : list CallInstr :=
  flat_map (fun bb => lockCallsIn deref (Instrs bb)) (Blocks fn).

(** The lock calls of the initial functions, function after function. *)
Definition programLockCalls (deref : FuncPtr -> Function)
    (InitialFunctions : list FuncPtr) : list CallInstr :=
  flat_map (fun ssafn => lockCalls deref (deref ssafn)) InitialFunctions.

(** The calls of the key among the calls, in their order. *)
Definition ofKey (key : string) (calls : list CallInstr) : list CallInstr :=
  filter (fun call => getLockPrefix (Common call) = Some key) calls.

(** The entry of a key in a map that groups the calls by key: the calls of
    the key in their order, and no entry for a key without a call. *)
Definition groupEntry (key : string) (calls : list CallInstr)
  : option (list CallInstr) :=
  match ofKey key calls with
  | [] => None
  | l => Some l
  end.

Definition grouped (m : gmap string (list CallInstr)) (calls : list CallInstr)
  : Prop :=
  forall key, m !! key = groupEntry key calls.

(** The two diagnostics of a pair of lock calls. *)
Definition againBoth (deref : FuncPtr -> Function) (fInstr sInstr : CallInstr)
  : Diagnostic :=
  mkDiagnostic (iPtr fInstr)
    (AcquiringAgainBoth (shortCallName deref (Common fInstr))
       (iPtr sInstr) (iPtr fInstr)).

Definition again (deref : FuncPtr -> Function) (fInstr sInstr : CallInstr)
  : Diagnostic :=
  mkDiagnostic (iPtr sInstr)
    (AcquiringAgain (shortCallName deref (Common sInstr)) (iPtr fInstr)).

(** What the loop body of [CheckDoubleLock] reports for the pair of the
    lock calls [fInstr] and [sInstr] of a key. *)
Definition pairReported (deref : FuncPtr -> Function)
    (LockPathSearch :
       BBNode -> BBNode -> string -> (BBNode -> option bool) -> option (list BBNode))
    (Loops : FuncPtr -> list (BlockRef -> bool))
    (CallGraph : gmap FuncPtr (list Edge))
    (lockKey : string) (fInstr sInstr : CallInstr) (d : Diagnostic) : Prop :=
  (_isDoubleLock deref LockPathSearch Loops CallGraph fInstr sInstr lockKey
   = Some true
   /\ d = againBoth deref fInstr sInstr)
  \/ (iPtr fInstr <> iPtr sInstr
      /\ _isDoubleLock deref LockPathSearch Loops CallGraph sInstr fInstr lockKey
         = Some true
      /\ d = again deref fInstr sInstr).

(** [x] occurs before [y] in the list. *)
Definition occursBefore {A} (x y : A) (l : list A) : Prop :=
  exists l1 l2 l3, l = l1 ++ x :: l2 ++ y :: l3.

(** The instruction receives from the channel of a call to [time.Tick]. *)
Definition receivesFromTick (deref : FuncPtr -> Function) (ins : Instruction)
  : Prop :=
  exists unop call,
    ins = UnOp unop ARROW (OCall call)
    /\ IsCallTo deref (Common call) "time.Tick" = true.

(** Slot [s] of the block holds the branch on the [ok] of a comma-ok
    receive from the channel of a call to [time.Tick]. *)
Definition tickBranchAt (deref : FuncPtr -> Function) (b : BasicBlock) (s : nat)
  : Prop :=
  exists p unop call ex,
    Instrs b !! s = Some (If p ex)
    /\ Extract ex unop 1 ∈ Instrs b
    /\ UnOp unop ARROW (OCall call) ∈ Instrs b
    /\ IsCallTo deref (Common call) "time.Tick" = true.

(** What the rewrite may do to a block: replace such branches by jumps,
    drop the successors after the first, and remove predecessors. *)
Definition rewrittenFrom (deref : FuncPtr -> Function) (b b' : BasicBlock)
  : Prop :=
  length (Instrs b') = length (Instrs b)
  /\ (forall s ins ins',
        Instrs b !! s = Some ins -> Instrs b' !! s = Some ins' ->
        ins' = ins \/ (ins' = Jump /\ tickBranchAt deref b s))
  /\ (Succs b' = Succs b \/ Succs b' = take 1 (Succs b))
  /\ sublist (Preds b') (Preds b).

(** The statement is a call of the method [name], a function without
    parameters and results, selected on the receiver expression [X]. *)
Definition mutexCall (ObjectOf : Addr -> TypesObject) (s : Stmt) (X : Expr)
    (name : string) : Prop :=
  exists Sel,
    s = ExprStmt (CallExpr (SelectorExpr X Sel))
    /\ ObjectOf Sel = Func name (mkSignature 0 0).

(** Debug instructions only. *)
Definition allDebug (l : list Instruction) : Prop :=
  Forall (fun ins => ins = DebugRef) l.

(** The block of a [for range time.Tick(d)] loop, or of a comma-ok
    receive written by hand: after [pre0], the receive from the channel of
    a call to [time.Tick], the extraction of [ok] and the branch on it,
    with debug instructions between them at most; [pre] is the block
    without its branch. *)
Definition tickLoopBlock (deref : FuncPtr -> Function) (b : BasicBlock)
    (pre : list Instruction) : Prop :=
  exists pre0 dbg1 dbg2 unop call ex p,
    pre = pre0 ++ UnOp unop ARROW (OCall call) :: dbg1
               ++ Extract ex unop 1 :: dbg2
    /\ Instrs b = pre ++ [If p ex]
    /\ allDebug dbg1 /\ allDebug dbg2
    /\ IsCallTo deref (Common call) "time.Tick" = true
    /\ length (Succs b) = 2%nat.

(** The last paragraph of the text of a comment group. *)
Definition lastParagraph (text : string) : string :=
  let parts := strings.Split text (newline +:+ newline) in
  default EmptyString (parts !! (length parts - 1)%nat).

(** A comment group whose last paragraph is a deprecation notice. *)
Definition deprecates (doc : option string) : Prop :=
  exists text, doc = Some text
    /\ strings.HasPrefix (lastParagraph text) "Deprecated: " = true.

(** ** Example programs *)

(** A heap that holds the given functions at the addresses [0], [1], ...;
    any other address holds a function without a body. *)
Definition heapOf (fns : list Function) : FuncPtr -> Function :=
  fun p => default (mkFunction [] None None) (fns !! p).

(** [invoke t65.Lock()]: a dynamic call through an interface value. *)
Definition invokeLockCall : CallCommon :=
  mkCallCommon (VOther 65) true [] "invoke t65.Lock()".

(** [invoke.Lock()]: a static call without arguments to the function
    [Lock] of a package named [invoke]. *)
Definition pkgInvokeLockCall : CallCommon :=
  mkCallCommon (VFunction 0) false [] "x/invoke.Lock()".



(** [var unlockMu sync.Mutex; func f() { unlockMu.Lock(); unlockMu.Lock() }]:
    function [0] is [f], with one block of two calls to function [1], the
    method [Lock] of [sync.Mutex]; the receiver is the global
    [main.unlockMu]. *)
Definition unlockMuLock (p : Addr) : CallInstr :=
  mkCallInstr p
    (mkCallCommon (VFunction 1) false [mkArg 50 "main.unlockMu"]
       "(*sync.Mutex).Lock(main.unlockMu)")
    (mkBlockRef 0 0).

Definition mutexLockMethod : Function :=
  mkFunction [] (Some (mkTypesFunc "Lock" "(*sync.Mutex).Lock"))
    (Some "*sync.Mutex").

Definition unlockMuHeap : FuncPtr -> Function :=
  heapOf [mkFunction
            [mkBasicBlock [Call (unlockMuLock 100); Call (unlockMuLock 101)]
               [] []]
            None None;
          mutexLockMethod].

(** [func f(m *sync.Mutex) { for { m.Lock() } }]: function [0] has the
    entry block [0], which jumps to the loop body, block [1]; the body
    calls function [1], the method [Lock] of [sync.Mutex], on [t0] and
    jumps to itself.  The body is the one block of the loop. *)
Definition loopLock : CallInstr :=
  mkCallInstr 100
    (mkCallCommon (VFunction 1) false [mkArg 50 "t0"] "(*sync.Mutex).Lock(t0)")
    (mkBlockRef 0 1).

Definition loopHeap : FuncPtr -> Function :=
  heapOf [mkFunction
            [mkBasicBlock [Jump] [] [1%nat];
             mkBasicBlock [Call loopLock; Jump] [0%nat; 1%nat] [1%nat]]
            None None;
          mutexLockMethod].

Definition loopLoops : FuncPtr -> list (BlockRef -> bool) :=
  fun fn => if decide (fn = 0%nat)
            then [fun b => bool_decide (b = mkBlockRef 0 1)] else [].

(** A search that always finds the path made of its two end nodes. *)
Definition foundSearch (fNode sNode : BBNode) (lockKey : string)
    (prune : BBNode -> option bool) : option (list BBNode) :=
  Some [fNode; sNode].

(** A test that starts a goroutine: function [0] runs [go worker()],
    [worker] (function [1]) calls [helper(t)] (function [2]), and [helper]
    calls the method [Fatal] of [testing.common] (function [3]). *)
Definition goWorker : CallInstr :=
  mkCallInstr 200 (mkCallCommon (VFunction 1) false [] "main.worker()")
    (mkBlockRef 0 0).

Definition callHelper : CallInstr :=
  mkCallInstr 201
    (mkCallCommon (VFunction 2) false [mkArg 60 "t"] "main.helper(t)")
    (mkBlockRef 1 0).

Definition callFatal : CallInstr :=
  mkCallInstr 202
    (mkCallCommon (VFunction 3) false [mkArg 61 "t"] "(*testing.common).Fatal(t)")
    (mkBlockRef 2 0).

Definition fatalHeap : FuncPtr -> Function :=
  heapOf [mkFunction [mkBasicBlock [Go goWorker] [] []] None None;
          mkFunction [mkBasicBlock [Call callHelper] [] []] None None;
          mkFunction [mkBasicBlock [Call callFatal] [] []] None None;
          mkFunction [] (Some (mkTypesFunc "Fatal" "(*testing.common).Fatal"))
            (Some "*testing.common")].

(** The same test with the call to [Fatal] in the goroutine itself:
    function [1] is [helper] of the heap above. *)
Definition goHelper : CallInstr :=
  mkCallInstr 203 (mkCallCommon (VFunction 2) false [] "main.helper()")
    (mkBlockRef 0 0).

Definition directFatalHeap : FuncPtr -> Function :=
  heapOf [mkFunction [mkBasicBlock [Go goHelper] [] []] None None;
          mkFunction [] None None;
          mkFunction [mkBasicBlock [Call callFatal] [] []] None None;
          mkFunction [] (Some (mkTypesFunc "Fatal" "(*testing.common).Fatal"))
            (Some "*testing.common")].

(** [a.Lock(); a.Lock(); b.Lock(); b.Lock()] in one block of function
    [0]: two keys, each locked twice. *)
Definition lockOn (p : Addr) (recv : string) : CallInstr :=
  mkCallInstr p
    (mkCallCommon (VFunction 1) false [mkArg 50 recv]
       ("(*sync.Mutex).Lock(" +:+ recv +:+ ")"))
    (mkBlockRef 0 0).

Definition twoKeysHeap : FuncPtr -> Function :=
  heapOf [mkFunction
            [mkBasicBlock [Call (lockOn 100 "a"); Call (lockOn 101 "a");
                           Call (lockOn 102 "b"); Call (lockOn 103 "b")]
               [] []]
            None None;
          mutexLockMethod].

Definition noLoops : FuncPtr -> list (BlockRef -> bool) := fun _ => [].

Definition noSearch (fNode sNode : BBNode) (lockKey : string)
    (prune : BBNode -> option bool) : option (list BBNode) :=
  Some [].

(** [for range time.Tick(d) { ... }]: block [0] receives from the channel
    of the call to [time.Tick] (function [1]), extracts [ok] and branches
    on it to block [1] (the body) or block [2] (the exit). *)
Definition tickCall : CallInstr :=
  mkCallInstr 300 (mkCallCommon (VFunction 1) false [mkArg 70 "t0"] "time.Tick(t0)")
    (mkBlockRef 0 0).

Definition tickHeap : FuncPtr -> Function :=
  heapOf [mkFunction [] None None;
          mkFunction [] (Some (mkTypesFunc "Tick" "time.Tick")) None].

Definition tickLoop : Function :=
  mkFunction
    [mkBasicBlock [DebugRef; UnOp 301 ARROW (OCall tickCall);
                   Extract 302 301 1; If 303 302]
       [1%nat] [1%nat; 2%nat];
     mkBasicBlock [Other 304; Jump] [0%nat] [0%nat];
     mkBasicBlock [Other 305] [0%nat] []]
    None None.

(** A call graph in which function [0] starts function [1] as a goroutine
    and calls function [2], which calls function [3]. *)
Definition smallCallGraph : gmap FuncPtr (list Edge) :=
  {[ 0%nat := [mkEdge (Go goWorker) 1%nat; mkEdge (Call callHelper) 2%nat];
     2%nat := [mkEdge (Call callFatal) 3%nat] ]}.

(** [m.Lock(); m.Unlock()] on a [sync.Mutex], with a debug instruction
    between the two calls: function [0] has the block, function [1] is
    the method [Lock]; and [l.Lock(); l.Unlock()] on a [sync.Locker], two
    dynamic calls. *)
(** [mu.Lock(); mu.Unlock()] on a [sync.Mutex], with a debug instruction
    between the two calls. *)
Definition staticLock : CallInstr :=
  mkCallInstr 400
    (mkCallCommon (VFunction 1) false [mkArg 80 "t0"] "(*sync.Mutex).Lock(t0)")
    (mkBlockRef 0 0).

Definition staticUnlock : CallInstr :=
  mkCallInstr 401
    (mkCallCommon (VFunction 2) false [mkArg 80 "t0"] "(*sync.Mutex).Unlock(t0)")
    (mkBlockRef 0 0).

Definition mutexUnlockMethod : Function :=
  mkFunction [] (Some (mkTypesFunc "Unlock" "(*sync.Mutex).Unlock"))
    (Some "*sync.Mutex").

Definition lockUnlockHeap : FuncPtr -> Function :=
  heapOf [mkFunction
            [mkBasicBlock [Call staticLock; DebugRef; Call staticUnlock] [] []]
            None None;
          mutexLockMethod; mutexUnlockMethod].

(** [mu.Lock(); defer mu.Lock()]: the deferred call was meant to unlock. *)
Definition deferredLock : CallInstr :=
  mkCallInstr 402
    (mkCallCommon (VFunction 1) false [mkArg 80 "t0"] "(*sync.Mutex).Lock(t0)")
    (mkBlockRef 0 0).

Definition deferLockHeap : FuncPtr -> Function :=
  heapOf [mkFunction
            [mkBasicBlock [Call staticLock; DebugRef; Defer deferredLock] [] []]
            None None;
          mutexLockMethod].

Definition invokeLock : CallInstr :=
  mkCallInstr 410 (mkCallCommon (VOther 65) true [] "invoke t65.Lock()")
    (mkBlockRef 0 0).

Definition invokeUnlock : CallInstr :=
  mkCallInstr 411 (mkCallCommon (VOther 65) true [] "invoke t65.Unlock()")
    (mkBlockRef 0 0).

(** [l.Lock(); l.Unlock(); l.Lock(); defer l.Lock()] on a [sync.Locker]:
    dynamic calls, which have no argument. *)
Definition lockerHeap : FuncPtr -> Function :=
  heapOf [mkFunction
            [mkBasicBlock [Call invokeLock; Call invokeUnlock;
                           Call invokeLock; Defer invokeLock] [] []]
            None None].

(** [mu.Lock(); if c { mu.Lock(); mu.Unlock() } else { mu.Unlock() }]:
    function [0] locks [t0] in block [0]; block [1] locks and unlocks it
    again, block [2] unlocks it. *)
Definition lockAtBlock (p : Addr) (bi : nat) : CallInstr :=
  mkCallInstr p
    (mkCallCommon (VFunction 1) false [mkArg 80 "t0"] "(*sync.Mutex).Lock(t0)")
    (mkBlockRef 0 bi).

Definition unlockAtBlock (p : Addr) (bi : nat) : CallInstr :=
  mkCallInstr p
    (mkCallCommon (VFunction 2) false [mkArg 80 "t0"] "(*sync.Mutex).Unlock(t0)")
    (mkBlockRef 0 bi).

Definition branchHeap : FuncPtr -> Function :=
  heapOf [mkFunction
            [mkBasicBlock [Call (lockAtBlock 500 0)] [] [1%nat; 2%nat];
             mkBasicBlock [Call (lockAtBlock 501 1); Call (unlockAtBlock 502 1)]
               [0%nat] [];
             mkBasicBlock [Call (unlockAtBlock 503 2)] [0%nat] []]
            None None;
          mutexLockMethod; mutexUnlockMethod].

(** [mu.Lock(); mu.Unlock()]: identifier [1] is the method [Lock] and
    identifier [2] the method [Unlock]; the receiver is the expression
    [10], rendered as [mu]. *)
Definition muObjects : Addr -> TypesObject :=
  fun p => if (p =? 1)%nat then Func "Lock" (mkSignature 0 0)
           else if (p =? 2)%nat then Func "Unlock" (mkSignature 0 0)
           else OtherObject.

Definition muRender (e : Expr) : string :=
  match e with
  | OtherExpr _ => "mu"
  | _ => "?"
  end.

Definition emptySection : list Stmt :=
  [ExprStmt (CallExpr (SelectorExpr (OtherExpr 10) 1));
   ExprStmt (CallExpr (SelectorExpr (OtherExpr 10) 2));
   OtherStmt 11].

(** The comment of a declaration: a description, an empty line and the
    deprecation notice on two lines. *)
Definition deprecatedDoc : string :=
  "Foo does x." +:+ newline +:+ newline
  +:+ "Deprecated: Use Bar" +:+ newline +:+ "instead.".

(** * Properties *)

(** ** Facts about the string functions *)

Section StringFacts.

Local Open Scope string_scope.

Lemma append_cons c (a b : string) : String c a +:+ b = String c (a +:+ b).
Proof. reflexivity. Qed.

Lemma append_nil (b : string) : "" +:+ b = b.
Proof. reflexivity. Qed.

Lemma length_cons c (a : string) : String.length (String c a) = S (String.length a).
Proof. reflexivity. Qed.

Lemma HasPrefix_true s p :
  strings.HasPrefix s p = true <-> exists r, s = p +:+ r.
Proof.
  revert s. induction p as [|c p IH]; intros s; simpl.
  - split; [intros _; by exists s | done].
  - destruct s as [|d s].
    + split; [done | intros [r Hr]; discriminate].
    + destruct (Ascii.eqb_spec c d) as [->|Hne].
      * rewrite IH. split; intros [r Hr]; exists r.
        -- by rewrite append_cons, Hr.
        -- rewrite append_cons in Hr. by injection Hr.
      * split; [done | intros [r Hr]]. rewrite append_cons in Hr. congruence.
Qed.

Lemma IndexFrom_range s sub i :
  strings.IndexFrom s sub i = -1
  \/ (i <= strings.IndexFrom s sub i <= i + Z.of_nat (String.length s))%Z.
Proof.
  revert i. induction s as [|c s IH]; intros i; simpl.
  - destruct (strings.HasPrefix "" sub); [right; lia | by left].
  - destruct (strings.HasPrefix (String c s) sub); [right; lia |].
    destruct (IH (i + 1)%Z) as [->|?]; [by left | right; lia].
Qed.

(** [IndexFrom] finds the first occurrence: the text before it has the
    returned length, and no occurrence starts earlier. *)
Lemma IndexFrom_first s sub i n :
  (0 <= n)%Z -> strings.IndexFrom s sub i = (i + n)%Z -> (0 <= i)%Z ->
  exists a b, s = a +:+ sub +:+ b /\ Z.of_nat (String.length a) = n
    /\ forall a' b', s = a' +:+ sub +:+ b' ->
         (String.length a <= String.length a')%nat.
Proof.
  revert i n. induction s as [|c s IH]; intros i n Hn; simpl.
  - destruct (strings.HasPrefix "" sub) eqn:Hp; [|lia].
    intros Hi _. apply HasPrefix_true in Hp as [r Hr].
    exists "", r. rewrite append_nil. repeat split; [done | simpl; lia | simpl; intros; lia].
  - destruct (strings.HasPrefix (String c s) sub) eqn:Hp.
    + intros Hi _. apply HasPrefix_true in Hp as [r Hr].
      exists "", r. rewrite append_nil.
      repeat split; [done | simpl; lia | simpl; intros; lia].
    + intros Hi Hi0.
      destruct (IndexFrom_range s sub (i + 1)) as [He|Hr]; [lia|].
      destruct (IH (i + 1)%Z (n - 1)%Z) as (a & b & -> & Hlen & Hmin); [lia..|].
      exists (String c a), b. rewrite append_cons, length_cons.
      repeat split; [lia|].
      intros [|c' a'] b' Heq.
      * exfalso. rewrite append_nil in Heq.
        assert (strings.HasPrefix (String c (a +:+ sub +:+ b)) sub = true)
          as Hp' by (apply HasPrefix_true; by exists b').
        congruence.
      * rewrite append_cons in Heq. injection Heq as -> Heq.
        apply Hmin in Heq. rewrite length_cons. lia.
Qed.

Lemma IndexFrom_none s sub i :
  (0 <= i)%Z ->
  strings.IndexFrom s sub i = -1 <-> forall a b, s <> a +:+ sub +:+ b.
Proof.
  revert i. induction s as [|c s IH]; intros i Hi; simpl.
  - destruct (strings.HasPrefix "" sub) eqn:Hp.
    + apply HasPrefix_true in Hp as [r Hr].
      split; [lia | intros H; exfalso; by apply (H "" r)].
    + split; [intros _ a b Heq | done].
      assert (strings.HasPrefix "" sub = true) as Hp'; [|congruence].
      apply HasPrefix_true. destruct a; [by exists b | discriminate].
  - destruct (strings.HasPrefix (String c s) sub) eqn:Hp.
    + apply HasPrefix_true in Hp as [r Hr].
      split; [lia | intros H; exfalso; by apply (H "" r)].
    + rewrite IH by lia. split.
      * intros H [|c' a] b Heq.
        -- assert (strings.HasPrefix (String c s) sub = true) as Hp';
             [|congruence].
           apply HasPrefix_true. by exists b.
        -- rewrite append_cons in Heq. injection Heq as -> Heq. by apply (H a b).
      * intros H a b ->. by apply (H (String c a) b).
Qed.

Lemma Contains_true s sub :
  strings.Contains s sub = true <-> exists a b, s = a +:+ sub +:+ b.
Proof.
  unfold strings.Contains, strings.Index.
  destruct (IndexFrom_range s sub 0) as [He|Hr].
  - rewrite He. split; [done|].
    intros (a & b & Heq). pose proof (proj1 (IndexFrom_none s sub 0 ltac:(lia)) He) as Hn.
    by destruct (Hn a b).
  - split; [intros _ | intros _; apply Z.leb_le; lia].
    destruct (IndexFrom_first s sub 0 (strings.IndexFrom s sub 0))
      as (a & b & Heq & _); [lia..|]. eauto.
Qed.

Lemma Contains_false s sub :
  strings.Contains s sub = false <-> strings.Index s sub = -1.
Proof.
  unfold strings.Contains, strings.Index.
  destruct (IndexFrom_range s sub 0) as [He|Hr].
  - rewrite He. done.
  - split; [intros H%Z.leb_gt; lia | lia].
Qed.





End StringFacts.

(** ** Lock taxonomy *)

Section TaxonomyFacts.

Variable deref : FuncPtr -> Function.

Lemma Index_range s sub :
  strings.Index s sub = -1
  \/ 0 <= strings.Index s sub <= Z.of_nat (String.length s).
Proof. unfold strings.Index. destruct (IndexFrom_range s sub 0); [by left | right; lia]. Qed.


(** C4: a call to one of the three lock methods is a lock call; any other
    call whose lowercased rendering contains [.lock(] or [.rlock(] is one
    exactly when it has at most one argument, and with more than one
    argument it is never one. *)
Theorem isCallToLock_classifies (c : CallCommon) :
  (isNamedLock deref c = true -> isCallToLock deref c = true)
  /\ (isNamedLock deref c = false -> isTextualLock c = true ->
      (isCallToLock deref c = true <-> (length (Args c) <= 1)%nat))
  /\ (isNamedLock deref c = false -> (1 < length (Args c))%nat ->
      isCallToLock deref c = false).
Proof.
  unfold isCallToLock, isNamedLock, isTextualLock. split; [|split].
  - by intros ->.
  - intros -> ->.
    destruct (Z.ltb_spec 1 (Z.of_nat (length (Args c)))); split; (done || lia).
  - intros -> Hlen.
    destruct (_ || _); [|done].
    destruct (Z.ltb_spec 1 (Z.of_nat (length (Args c)))); [done | lia].
Qed.




(** The slice of [getLockPrefix] panics exactly when the call has no
    argument, its rendering contains [invoke], and its first dot comes
    before its first space. *)
Lemma getLockPrefix_panics_iff (c : CallCommon) :
  getLockPrefix c = None <->
    Args c = [] /\ strings.Contains (cString c) "invoke" = true
    /\ 0 <= strings.Index (cString c) "." < strings.Index (cString c) " ".
Proof.
  unfold getLockPrefix. destruct (Args c) as [|value rest]; simpl.
  - destruct (strings.Contains (cString c) "invoke");
      [|split; [done | by intros (_ & ? & _)]].
    pose proof (Index_range (cString c) " ") as Hs.
    pose proof (Index_range (cString c) ".") as He.
    destruct (Z.eqb_spec (strings.Index (cString c) " ") (-1)); simpl;
      [split; [done | lia]|].
    destruct (Z.eqb_spec (strings.Index (cString c) ".") (-1)); simpl;
      [split; [done | lia]|].
    unfold strings.slice.
    destruct (Z.leb_spec 0 (strings.Index (cString c) " ")); [|lia].
    destruct (Z.leb_spec (strings.Index (cString c) ".")
                (Z.of_nat (String.length (cString c)))); [|lia].
    destruct (Z.leb_spec (strings.Index (cString c) " ")
                (strings.Index (cString c) ".")); simpl.
    + split; [done | lia].
    + split; [intros _; repeat split; lia | done].
  - destruct (Z.ltb_spec (Z.of_nat (S (length rest))) 1); [lia|].
    split; [done | by intros (? & _)].
Qed.

(** C9: [getLockPrefix] returns a key, without panicking, for every call
    in whose rendering the first space is not after the first dot. *)
Theorem getLockPrefix_total (c : CallCommon) :
  spaceBeforeDot (cString c) -> exists key, getLockPrefix c = Some key.
Proof.
  intros Hwf. destruct (getLockPrefix c) as [key|] eqn:E; [by exists key|].
  apply getLockPrefix_panics_iff in E as (_ & _ & Hlt).
  unfold spaceBeforeDot in Hwf. lia.
Qed.

(** The rendering of a dynamic call starts with [invoke] and a space, so
    its first space is before any dot. *)
Lemma invoke_rendering_spaceBeforeDot (rest : string) :
  spaceBeforeDot ("invoke " +:+ rest).
Proof.
  unfold spaceBeforeDot, strings.Index. intros _ Hdot.
  change (strings.IndexFrom ("invoke " +:+ rest) " " 0) with 6.
  change (strings.IndexFrom ("invoke " +:+ rest) "." 0)
    with (strings.IndexFrom rest "." 7) in *.
  destruct (IndexFrom_range rest "." 7); lia.
Qed.

End TaxonomyFacts.



Lemma isCallToLock_classifies_witness :
  isCallToLock (heapOf []) pkgInvokeLockCall = true.
Proof.
  destruct (isCallToLock_classifies (heapOf []) pkgInvokeLockCall) as (_ & H & _).
  apply H; [by vm_compute | by vm_compute | vm_compute; lia].
Defined.


Lemma getLockPrefix_total_witness :
  spaceBeforeDot (cString invokeLockCall)
  /\ exists key, getLockPrefix invokeLockCall = Some key.
Proof.
  assert (spaceBeforeDot (cString invokeLockCall)) as Hwf
    by (intros _ _; by vm_compute).
  split; [done|]. apply (getLockPrefix_total invokeLockCall Hwf).
Defined.

(** ** Scanning a block for the locks and unlocks of a key *)

Section BlockScan.

Variable deref : FuncPtr -> Function.

Lemma isUnlockOf_defined call key :
  is_Some (getLockPrefix (Common call)) ->
  exists u, isUnlockOf deref call (Some key) = Some u
    /\ (u = true <-> isCallToUnlock deref (Common call) = true
                     /\ getLockPrefix (Common call) = Some key).
Proof.
  intros [p Hp]. unfold isUnlockOf. rewrite Hp.
  destruct (isCallToUnlock deref (Common call)); simpl.
  - exists (p =? key)%string. split; [done|]. rewrite String.eqb_eq.
    split; [by intros -> | by intros [_ [= ->]]].
  - exists false. split; [done|]. split; [done | by intros [? _]].
Qed.

Lemma isLockOf_defined call key :
  is_Some (getLockPrefix (Common call)) ->
  exists l, isLockOf deref call (Some key) = Some l
    /\ (l = true <-> isCallToLock deref (Common call) = true
                     /\ getLockPrefix (Common call) = Some key).
Proof.
  intros [p Hp]. unfold isLockOf. rewrite Hp.
  destruct (isCallToLock deref (Common call)); simpl.
  - exists (p =? key)%string. split; [done|]. rewrite String.eqb_eq.
    split; [by intros -> | by intros [_ [= ->]]].
  - exists false. split; [done|]. split; [done | by intros [? _]].
Qed.

(** When the test does not panic, its result says whether the call is an
    unlock of the key. *)
Lemma isUnlockOf_Some call key u :
  isUnlockOf deref call (Some key) = Some u ->
  u = true <-> isCallToUnlock deref (Common call) = true
               /\ getLockPrefix (Common call) = Some key.
Proof.
  unfold isUnlockOf. destruct (isCallToUnlock deref (Common call)).
  - destruct (getLockPrefix (Common call)) as [p|]; simpl; [|done].
    intros [= <-]. rewrite String.eqb_eq.
    split; [by intros -> | by intros [_ [= ->]]].
  - intros [= <-]. split; [done | by intros [? _]].
Qed.

Lemma isLockOf_Some call key l :
  isLockOf deref call (Some key) = Some l ->
  l = true <-> isCallToLock deref (Common call) = true
               /\ getLockPrefix (Common call) = Some key.
Proof.
  unfold isLockOf. destruct (isCallToLock deref (Common call)).
  - destruct (getLockPrefix (Common call)) as [p|]; simpl; [|done].
    intros [= <-]. rewrite String.eqb_eq.
    split; [by intros -> | by intros [_ [= ->]]].
  - intros [= <-]. split; [done | by intros [? _]].
Qed.

Lemma isLast_step (P : nat -> Prop) n x :
  isLast P n x ->
  (P n -> isLast P (S n) (Z.of_nat n))
  /\ (~ P n -> isLast P (S n) x).
Proof.
  intros Hx. split.
  - intros HP. right. exists n. repeat split; [lia | done | lia].
  - intros HP. destruct Hx as [[-> Hno]|(k & -> & Hk & HPk & Hno)].
    + left. split; [done|]. intros m Hm.
      destruct (decide (m = n)) as [->|]; [done | apply Hno; lia].
    + right. exists k. repeat split; [lia | done |]. intros m Hm.
      destruct (decide (m = n)) as [->|]; [done | apply Hno; lia].
Qed.

Lemma lookup_middle_pre (pre rest : list Instruction) x :
  (pre ++ x :: rest) !! length pre = Some x.
Proof. by rewrite list_lookup_middle. Qed.

(** What the loop of [isUnlockBeforeLock] returns, when it returns: the
    comparison of the index of the last unlock with that of the last
    lock. *)
Lemma unlockBeforeLockLoop_sound key instrs :
  forall rest pre L U b,
    instrs = pre ++ rest ->
    isLast (lockAt deref instrs key) (length pre) L ->
    isLast (unlockAt deref instrs key) (length pre) U ->
    unlockBeforeLockLoop deref key rest (Z.of_nat (length pre)) L U = Some b ->
    exists L' U',
      isLast (lockAt deref instrs key) (length instrs) L'
      /\ isLast (unlockAt deref instrs key) (length instrs) U'
      /\ b = (if U' <? L' then true else false).
Proof.
  intros rest. induction rest as [|x rest IH]; intros pre L U b Heq HL HU.
  - rewrite app_nil_r in Heq. subst pre. simpl. intros [= <-]. by exists L, U.
  - assert (instrs !! length pre = Some x) as Hx
      by (rewrite Heq; apply lookup_middle_pre).
    assert (instrs = (pre ++ [x]) ++ rest) as Heq'
      by (by rewrite <- app_assoc).
    assert (Z.of_nat (length (pre ++ [x])) = Z.of_nat (length pre) + 1) as Hlen
      by (rewrite length_app; simpl; lia).
    assert (length (pre ++ [x]) = S (length pre)) as Hlen'
      by (rewrite length_app; simpl; lia).
    destruct (isLast_step _ _ _ HL) as [HL1 HL2].
    destruct (isLast_step _ _ _ HU) as [HU1 HU2].
    pose proof (fun L U => IH (pre ++ [x]) L U b Heq') as IH'.
    rewrite Hlen, Hlen' in IH'. clear IH.
    destruct x as [call| | | | | | | |];
      try (simpl; apply IH'; [apply HL2 | apply HU2];
           intros (call & Hc & _); congruence).
    simpl.
    destruct (isUnlockOf deref call (Some key)) as [u|] eqn:Eu; [|done].
    destruct (isLockOf deref call (Some key)) as [l|] eqn:El; [|done].
    apply isUnlockOf_Some in Eu as Hu. apply isLockOf_Some in El as Hl.
    simpl. apply IH'.
    + destruct l.
      * apply HL1. exists call. by destruct Hl as [[? ?] _].
      * apply HL2. intros (call' & Hc & H1 & H2).
        assert (call' = call) as -> by congruence.
        by destruct Hl as [_ Hl]; discriminate Hl.
    + destruct u.
      * apply HU1. exists call. by destruct Hu as [[? ?] _].
      * apply HU2. intros (call' & Hc & H1 & H2).
        assert (call' = call) as -> by congruence.
        by destruct Hu as [_ Hu]; discriminate Hu.
Qed.

Lemma keysDefined_cons x rest :
  keysDefined (x :: rest) -> keysDefined rest.
Proof. intros H call Hin. apply H. by right. Qed.

Lemma keysDefined_head call rest :
  keysDefined (Call call :: rest) -> is_Some (getLockPrefix (Common call)).
Proof. intros H. apply H. by left. Qed.

(** The loop returns when every call has a key. *)
Lemma unlockBeforeLockLoop_defined key rest :
  keysDefined rest ->
  forall index L U,
    is_Some (unlockBeforeLockLoop deref key rest index L U).
Proof.
  induction rest as [|x rest IH]; intros Hdef index L U; [by eexists|].
  pose proof (IH (keysDefined_cons _ _ Hdef)) as IH'.
  destruct x; try apply IH'. simpl.
  destruct (isUnlockOf_defined c key (keysDefined_head _ _ Hdef)) as (u & -> & _).
  destruct (isLockOf_defined c key (keysDefined_head _ _ Hdef)) as (l & -> & _).
  simpl. apply IH'.
Qed.

Lemma isLast_zero (P : nat -> Prop) : isLast P 0 (-1).
Proof. left. split; [done | lia]. Qed.

(** [isUnlockBeforeLock] holds exactly when some lock of the key comes
    after every unlock of the key. *)
Lemma isUnlockBeforeLock_true_iff (sNode : BBNode) (key : string) b :
  isUnlockBeforeLock deref sNode key = Some b ->
  b = true <->
    exists i, lockAt deref (blockInstrs deref (BB sNode)) key i
      /\ forall j, unlockAt deref (blockInstrs deref (BB sNode)) key j ->
           (j < i)%nat.
Proof.
  unfold isUnlockBeforeLock. intros Hb.
  destruct (unlockBeforeLockLoop_sound key (blockInstrs deref (BB sNode))
              _ [] (-1) (-1) b eq_refl (isLast_zero _) (isLast_zero _) Hb)
    as (L' & U' & HL & HU & ->).
  assert (forall P m, (exists call : CallInstr,
            blockInstrs deref (BB sNode) !! m = Some (Call call) /\ P call) ->
          (m < length (blockInstrs deref (BB sNode)))%nat) as Hlt.
  { intros P m (call & Hc & _). by apply lookup_lt_Some in Hc. }
  destruct (Z.ltb_spec U' L') as [Hlt'|Hge]; split; try done.
  - intros _. destruct HL as [[-> _]|(k & -> & Hk & HPk & _)].
    { destruct HU as [[-> _]|(k' & -> & _)]; lia. }
    exists k. split; [done|]. intros j Hj.
    destruct HU as [[-> Hno]|(k' & -> & Hk' & _ & Hno)].
    + destruct (Hno j); [|done]. eapply (Hlt _ j), Hj.
    + destruct (decide (j <= k')%nat); [lia|].
      destruct (Hno j); [|done]. split; [lia|]. eapply (Hlt _ j), Hj.
  - intros (i & Hi & Hall). exfalso.
    destruct HL as [[-> Hno]|(k & -> & Hk & HPk & Hno)].
    + destruct (Hno i); [|done]. eapply (Hlt _ i), Hi.
    + assert (i <= k)%nat.
      { destruct (decide (i <= k)%nat); [done|].
        destruct (Hno i); [|done]. split; [lia|]. eapply (Hlt _ i), Hi. }
      destruct HU as [[-> _]|(k' & -> & _ & HPk' & _)]; [lia|].
      apply Hall in HPk'. lia.
Qed.


(** *** The loop of [isLockToLockInSameBlock] *)

Section LockToLock.

Variables (fLock sLock : CallInstr) (instrs : list Instruction).
Variables (i j : nat) (key : string).
Hypothesis Hf : instrs !! i = Some (Call fLock).
Hypothesis Hs : instrs !! j = Some (Call sLock).
Hypothesis Hdistinct : distinctCalls instrs.
Hypothesis Hkey : getLockPrefix (Common fLock) = Some key.

Lemma idxBefore_step_call n call :
  instrs !! n = Some (Call call) ->
  (if decide (iPtr call = iPtr fLock) then Z.of_nat n else idxBefore i n)
  = idxBefore i (S n)
  /\ (if decide (iPtr call = iPtr sLock) then Z.of_nat n else idxBefore j n)
    = idxBefore j (S n).
Proof.
  intros Hn. unfold idxBefore. split.
  - destruct (decide (iPtr call = iPtr fLock)) as [Heq|Hne].
    + rewrite (Hdistinct n i call fLock Hn Hf Heq).
      by rewrite (proj2 (Nat.ltb_lt i (S i))) by lia.
    + assert (n <> i) by (intros ->; congruence).
      destruct (Nat.ltb_spec i n), (Nat.ltb_spec i (S n)); (done || lia).
  - destruct (decide (iPtr call = iPtr sLock)) as [Heq|Hne].
    + rewrite (Hdistinct n j call sLock Hn Hs Heq).
      by rewrite (proj2 (Nat.ltb_lt j (S j))) by lia.
    + assert (n <> j) by (intros ->; congruence).
      destruct (Nat.ltb_spec j n), (Nat.ltb_spec j (S n)); (done || lia).
Qed.

Lemma idxBefore_step_other n x :
  instrs !! n = Some x -> (forall call, x <> Call call) ->
  idxBefore i n = idxBefore i (S n) /\ idxBefore j n = idxBefore j (S n).
Proof.
  intros Hn Hx. unfold idxBefore.
  assert (n <> i) by (intros ->; rewrite Hf in Hn; injection Hn as <-; by eapply Hx).
  assert (n <> j) by (intros ->; rewrite Hs in Hn; injection Hn as <-; by eapply Hx).
  split.
  - destruct (Nat.ltb_spec i n), (Nat.ltb_spec i (S n)); (done || lia).
  - destruct (Nat.ltb_spec j n), (Nat.ltb_spec j (S n)); (done || lia).
Qed.

(** The test that makes the loop return false at an unlock of the key at
    index [n]: the unlock is after the first lock and not after the second,
    or after the second lock and before the first. *)
Lemma interrupt_test n :
  ((idxBefore i (S n) <? Z.of_nat n) && (idxBefore j n =? -1)
     && negb (idxBefore i (S n) =? -1)
   || (idxBefore j n <? Z.of_nat n) && (idxBefore i (S n) =? -1)
      && negb (idxBefore j n =? -1)) = true
  <-> (i < n <= j)%nat \/ (j < n < i)%nat.
Proof.
  unfold idxBefore.
  rewrite orb_true_iff, !andb_true_iff, !negb_true_iff, !Z.ltb_lt,
    !Z.eqb_eq, !Z.eqb_neq.
  destruct (Nat.ltb_spec i (S n)), (Nat.ltb_spec j n); lia.
Qed.

Lemma lockToLockLoop_sound :
  forall rest pre b,
    instrs = pre ++ rest ->
    lockToLockLoop deref fLock sLock rest (Z.of_nat (length pre))
      (idxBefore i (length pre)) (idxBefore j (length pre)) = Some b ->
    b = true <->
      (i < j)%nat
      /\ forall m, (length pre <= m)%nat -> (i < m <= j)%nat ->
           ~ unlockAt deref instrs key m.
Proof.
  intros rest. induction rest as [|x rest IH]; intros pre b Heq.
  - rewrite app_nil_r in Heq. subst pre. simpl.
    apply lookup_lt_Some in Hf as Hi. apply lookup_lt_Some in Hs as Hj.
    unfold idxBefore.
    rewrite (proj2 (Nat.ltb_lt _ _) Hi), (proj2 (Nat.ltb_lt _ _) Hj).
    intros [= <-]. destruct (Z.ltb_spec (Z.of_nat i) (Z.of_nat j)).
    + split; [intros _ | done]. split; [lia | intros; lia].
    + split; [done | intros [? _]; lia].
  - assert (instrs !! length pre = Some x) as Hx
      by (rewrite Heq; apply lookup_middle_pre).
    assert (instrs = (pre ++ [x]) ++ rest) as Heq'
      by (by rewrite <- app_assoc).
    assert (Z.of_nat (length (pre ++ [x])) = Z.of_nat (length pre) + 1) as Hlen
      by (rewrite length_app; simpl; lia).
    assert (length (pre ++ [x]) = S (length pre)) as Hlen'
      by (rewrite length_app; simpl; lia).
    pose proof (IH (pre ++ [x]) b Heq') as IH'.
    rewrite Hlen, Hlen' in IH'. clear IH.
    assert (~ unlockAt deref instrs key (length pre) ->
            ((i < j)%nat /\ (forall m, (S (length pre) <= m)%nat ->
               (i < m <= j)%nat -> ~ unlockAt deref instrs key m))
            <-> ((i < j)%nat /\ (forall m, (length pre <= m)%nat ->
               (i < m <= j)%nat -> ~ unlockAt deref instrs key m))) as Hskip.
    { intros Hno. split; intros [Hij Hall]; (split; [done|]); intros m Hm Him.
      - destruct (decide (m = length pre)) as [->|]; [done | apply Hall; lia].
      - apply Hall; lia. }
    destruct x as [call| | | | | | | |];
      try (simpl;
           destruct (idxBefore_step_other (length pre) _ Hx ltac:(done))
             as [-> ->];
           intros Hb; rewrite (IH' Hb); apply Hskip;
           intros (call & Hc & _); congruence).
    simpl. rewrite Hkey.
    destruct (idxBefore_step_call (length pre) call Hx) as [-> Hs'].
    destruct (isUnlockOf deref call (Some key)) as [u|] eqn:Eu; [|done].
    apply isUnlockOf_Some in Eu as Hu. simpl.
    assert (u = true <-> unlockAt deref instrs key (length pre)) as Hu'.
    { rewrite Hu. split.
      - intros [? ?]. by exists call.
      - intros (call' & Hc & ? & ?). by assert (call' = call) as -> by congruence. }
    destruct (_ || _) eqn:Etest.
    + apply interrupt_test in Etest. destruct u; simpl.
      * intros [= <-]. split; [done|]. intros [Hij Hall].
        destruct Etest as [?|?]; [|lia].
        destruct (Hall (length pre)); [lia | lia | by apply Hu'].
      * rewrite Hs'. intros Hb. rewrite (IH' Hb). apply Hskip.
        intros Hun. apply Hu' in Hun. done.
    + rewrite andb_false_r. rewrite Hs'. intros Hb. rewrite (IH' Hb).
      assert (~ ((i < length pre <= j)%nat \/ (j < length pre < i)%nat)) as Hn.
      { intros H. apply interrupt_test in H. congruence. }
      split; intros [Hij Hall]; (split; [done|]); intros m Hm Him.
      * apply Hall; lia.
      * destruct (decide (m = length pre)) as [->|]; [lia | apply Hall; lia].
Qed.

Lemma lockToLockLoop_defined rest :
  keysDefined rest ->
  forall index fI sI,
    is_Some (lockToLockLoop deref fLock sLock rest index fI sI).
Proof.
  induction rest as [|x rest IH]; intros Hdef index fI sI; [by eexists|].
  pose proof (IH (keysDefined_cons _ _ Hdef)) as IH'.
  destruct x; try apply IH'. simpl. rewrite Hkey.
  destruct (isUnlockOf_defined c key (keysDefined_head _ _ Hdef)) as (u & -> & _).
  simpl. destruct (u && _); [by eexists | apply IH'].
Qed.

End LockToLock.

(** C2 (as amended): for two calls at the indices [i] and [j] of the block
    of the first, whose calls all have a key, the same-block test returns
    true exactly when [i < j] and no unlock call of the key of the first is
    at an index after [i] and up to [j], the second call itself included;
    for one and the same instruction it returns false. *)
Theorem isLockToLockInSameBlock_iff (fLock sLock : CallInstr) (i j : nat)
    (key : string) :
  blockInstrs deref (Block fLock) !! i = Some (Call fLock) ->
  blockInstrs deref (Block fLock) !! j = Some (Call sLock) ->
  distinctCalls (blockInstrs deref (Block fLock)) ->
  keysDefined (blockInstrs deref (Block fLock)) ->
  getLockPrefix (Common fLock) = Some key ->
  exists b, isLockToLockInSameBlock deref fLock sLock = Some b
    /\ (b = true <->
         (i < j)%nat
         /\ forall m, (i < m <= j)%nat ->
              ~ unlockAt deref (blockInstrs deref (Block fLock)) key m)
    /\ (i = j -> b = false).
Proof.
  intros Hf Hs Hdistinct Hdef Hkey. unfold isLockToLockInSameBlock.
  destruct (lockToLockLoop_defined fLock sLock key Hkey _ Hdef 0 (-1) (-1))
    as [b Hb].
  exists b. split; [done|].
  pose proof (lockToLockLoop_sound fLock sLock _ i j key Hf Hs Hdistinct Hkey
                _ [] b eq_refl Hb) as Hiff.
  assert (b = true <-> (i < j)%nat /\ forall m, (i < m <= j)%nat ->
            ~ unlockAt deref (blockInstrs deref (Block fLock)) key m) as Hiff'.
  { rewrite Hiff. split; intros [? Hall]; (split; [done|]); intros m.
    - intros ?. apply Hall; simpl; lia.
    - intros _ ?. by apply Hall. }
  split; [done|]. intros ->. destruct b; [|done].
  destruct Hiff' as [H _]. destruct (H eq_refl). lia.
Qed.

End BlockScan.


Lemma isLockToLockInSameBlock_iff_witness :
  exists b,
    isLockToLockInSameBlock unlockMuHeap (unlockMuLock 100) (unlockMuLock 101)
    = Some b
    /\ (b = true <->
         (0 < 1)%nat
         /\ forall m, (0 < m <= 1)%nat ->
              ~ unlockAt unlockMuHeap
                  (blockInstrs unlockMuHeap (Block (unlockMuLock 100)))
                  "main.unlockMu" m)
    /\ (0 = 1 -> b = false)%nat.
Proof.
  apply (isLockToLockInSameBlock_iff unlockMuHeap
           (unlockMuLock 100) (unlockMuLock 101) 0 1 "main.unlockMu").
  - reflexivity.
  - reflexivity.
  - intros m n c1 c2 Hm Hn Hp.
    destruct m as [|[|m]], n as [|[|n]]; simpl in Hm, Hn; try done;
      injection Hm as <-; injection Hn as <-; simpl in Hp; lia.
  - intros call Hin. apply elem_of_cons in Hin as [[= ->]|Hin]; [by eexists|].
    apply elem_of_cons in Hin as [[= ->]|Hin]; [by eexists|].
    by apply elem_of_nil in Hin.
  - reflexivity.
Defined.

(** C2 (as stated) fails: the two calls [unlockMu.Lock()] are lock calls of
    the key [main.unlockMu] at the indices 0 and 1 of one block, with
    nothing between them, and the test returns false: the rendering of the
    second call contains [.unlock], so it also counts as an unlock of the
    key, and the loop tests for an unlock before it records the second
    lock. *)
Lemma isLockToLockInSameBlock_not_as_stated :
  isCallToLock unlockMuHeap (Common (unlockMuLock 100)) = true
  /\ isCallToLock unlockMuHeap (Common (unlockMuLock 101)) = true
  /\ getLockPrefix (Common (unlockMuLock 100)) = Some "main.unlockMu"
  /\ getLockPrefix (Common (unlockMuLock 101)) = Some "main.unlockMu"
  /\ blockInstrs unlockMuHeap (mkBlockRef 0 0)
     = [Call (unlockMuLock 100); Call (unlockMuLock 101)]
  /\ isLockToLockInSameBlock unlockMuHeap (unlockMuLock 100) (unlockMuLock 101)
     = Some false
  /\ ~ lockToLockAsStated unlockMuHeap (unlockMuLock 100) (unlockMuLock 101)
         0 1 "main.unlockMu".
Proof.
  repeat (split; [by vm_compute|]).
  intros [_ H].
  assert (isLockToLockInSameBlock unlockMuHeap (unlockMuLock 100)
            (unlockMuLock 101) = Some true) as Hb
    by (apply H; split; [lia | intros m ?; lia]).
  vm_compute in Hb. discriminate.
Qed.

(** ** The search in the function call graph *)

Section CallGraphSearch.

Variable CallGraph : gmap FuncPtr (list Edge).
Variable isEnd : FuncPtr -> bool.

Lemma searchEdges_seen search stack es :
  (forall c st sn r sn', search c st sn = (r, sn') -> sn ⊆ sn') ->
  forall seen r seen',
    searchEdges search stack es seen = (r, seen') -> seen ⊆ seen'.
Proof.
  intros Hsearch. induction es as [|e es IH]; intros seen r seen'; simpl.
  - by intros [= _ <-].
  - destruct (search (Callee e) (stack ++ [e]) seen) as [[found|] sn] eqn:Hcall;
      apply Hsearch in Hcall;
      destruct (Site e); try apply IH;
      try (intros [= _ <-]; done);
      intros Hrest%IH; by etrans.
Qed.

Lemma pathSearch_seen fuel :
  forall n stack seen r seen',
    pathSearch CallGraph isEnd fuel n stack seen = (r, seen') -> seen ⊆ seen'.
Proof.
  induction fuel as [|fuel IH]; intros n stack seen r seen'; simpl.
  - by intros [= _ <-].
  - destruct (decide (n ∈ seen)); [by intros [= _ <-]|].
    destruct (isEnd n).
    + intros [= _ <-]. set_solver.
    + intros Hloop%searchEdges_seen; [set_solver | done].
Qed.

Lemma searchEdges_ext search1 search2 stack es seen0 :
  (forall c st sn r sn', search1 c st sn = (r, sn') -> sn ⊆ sn') ->
  (forall c st sn, seen0 ⊆ sn -> search1 c st sn = search2 c st sn) ->
  forall seen, seen0 ⊆ seen ->
    searchEdges search1 stack es seen = searchEdges search2 stack es seen.
Proof.
  intros Hmono Hext. induction es as [|e es IH]; intros seen Hsub; simpl; [done|].
  rewrite <- (Hext (Callee e) (stack ++ [e]) seen Hsub).
  destruct (search1 (Callee e) (stack ++ [e]) seen) as [[found|] sn] eqn:Hcall;
    apply Hmono in Hcall;
    destruct (Site e); try done; try (by apply IH); apply IH; by etrans.
Qed.

Lemma unseen_subseteq (seen sn : list FuncPtr) :
  seen ⊆ sn -> (unseen CallGraph sn <= unseen CallGraph seen)%nat.
Proof. intros Hsub. apply subseteq_size. set_solver. Qed.

Lemma unseen_cons (n : FuncPtr) (seen : list FuncPtr) :
  is_Some (CallGraph !! n) -> n ∉ seen ->
  (unseen CallGraph (n :: seen) < unseen CallGraph seen)%nat.
Proof.
  intros Hn%elem_of_dom Hnew. apply subset_size.
  apply strict_spec_alt. split; [set_solver|].
  intros Heq. assert (n ∈ dom CallGraph ∖ (list_to_set seen : gset FuncPtr))
    as Hin by set_solver.
  rewrite <- Heq in Hin. set_solver.
Qed.

(** More fuel than there are unseen nodes with out-edges is enough: the
    result is that of any larger fuel. *)
Lemma pathSearch_fuel fuel :
  forall fuel' n stack seen,
    (unseen CallGraph seen < fuel)%nat -> (unseen CallGraph seen < fuel')%nat ->
    pathSearch CallGraph isEnd fuel n stack seen
    = pathSearch CallGraph isEnd fuel' n stack seen.
Proof.
  induction fuel as [|fuel IH]; intros fuel' n stack seen Hf Hf'; [lia|].
  destruct fuel' as [|fuel']; [lia|]. simpl.
  destruct (decide (n ∈ seen)) as [|Hnew]; [done|].
  destruct (isEnd n); [done|]. unfold Out.
  destruct (CallGraph !! n) as [es|] eqn:Hn; simpl; [|done].
  apply (searchEdges_ext _ _ stack es (n :: seen)); [apply pathSearch_seen | | done].
  intros c st sn Hsub.
  pose proof (unseen_subseteq _ _ Hsub).
  pose proof (unseen_cons n seen ltac:(by eexists) Hnew).
  apply IH; lia.
Qed.

(** The fuel of [PathSearchIgnoreGoCall] is enough. *)
Lemma PathSearchIgnoreGoCall_fuel (start : FuncPtr) (fuel : nat) :
  (size CallGraph < fuel)%nat ->
  default [] (fst (pathSearch CallGraph isEnd fuel start [] []))
  = PathSearchIgnoreGoCall CallGraph start isEnd.
Proof.
  intros Hfuel. unfold PathSearchIgnoreGoCall.
  assert (unseen CallGraph [] = size CallGraph) as Hun.
  { unfold unseen. rewrite <- size_dom. f_equal. set_solver. }
  by rewrite (pathSearch_fuel fuel (2 + size CallGraph)) by (rewrite Hun; lia).
Qed.

End CallGraphSearch.

(** ** The double-lock decision on a lock call paired with itself *)

Section SelfPair.

Variable deref : FuncPtr -> Function.
Variable LockPathSearch :
  BBNode -> BBNode -> string -> (BBNode -> option bool) -> option (list BBNode).
Variable Loops : FuncPtr -> list (BlockRef -> bool).
Variable CallGraph : gmap FuncPtr (list Edge).

(** With both index variables equal, the loop never returns early and
    ends with the comparison of an index with itself. *)
Lemma lockToLockLoop_self (L : CallInstr) rest :
  forall index x b,
    0 <= index -> x = -1 \/ 0 <= x < index ->
    lockToLockLoop deref L L rest index x x = Some b -> b = false.
Proof.
  induction rest as [|ins rest IH]; intros index x b Hidx Hx; simpl.
  - rewrite Z.ltb_irrefl. by intros [= <-].
  - destruct ins; try (apply IH; lia).
    destruct (isUnlockOf deref c (getLockPrefix (Common L))) as [u|]; [|done].
    simpl. destruct (decide (iPtr c = iPtr L)).
    + destruct (Z.eqb_spec index (-1)); [lia|].
      rewrite Z.ltb_irrefl, andb_false_r. simpl. rewrite andb_false_r.
      apply IH; lia.
    + destruct (Z.eqb_spec x (-1)); simpl; rewrite ?andb_false_r; simpl;
        rewrite ?andb_false_r; apply IH; lia.
Qed.

Lemma lockToLockLoop_self_defined (L : CallInstr) rest :
  is_Some (getLockPrefix (Common L)) ->
  unlockKeysDefined deref rest ->
  forall index fI sI,
    is_Some (lockToLockLoop deref L L rest index fI sI).
Proof.
  intros [k Hk]. induction rest as [|ins rest IH]; intros Hdef index fI sI;
    [by eexists|].
  assert (unlockKeysDefined deref rest) as Hdef'
    by (intros call Hin; apply Hdef; by right).
  destruct ins; try (by apply IH). simpl. unfold isUnlockOf. rewrite Hk.
  destruct (isCallToUnlock deref (Common c)) eqn:Hu; simpl.
  - destruct (Hdef c ltac:(by left) Hu) as [p ->]. simpl.
    destruct (_ && _); [by eexists | by apply IH].
  - by apply IH.
Qed.

Lemma isLockToLockInSameBlock_self (L : CallInstr) b :
  isLockToLockInSameBlock deref L L = Some b -> b = false.
Proof. apply lockToLockLoop_self; [done | by left]. Qed.

(** The first loop of [findPath] evaluates the key of every unlock call. *)
Lemma neededSearchLoop_defined key instrs :
  forall b0, is_Some (neededSearchLoop deref key instrs b0) ->
  unlockKeysDefined deref instrs.
Proof.
  induction instrs as [|ins rest IH]; intros b0 Hsome call Hin Hu.
  - by apply elem_of_nil in Hin.
  - apply elem_of_cons in Hin as [<-|Hin].
    + simpl in Hsome. unfold isUnlockOf in Hsome. rewrite Hu in Hsome.
      destruct (getLockPrefix (Common call)); [by eexists|].
      by destruct Hsome.
    + destruct ins; try (by eapply IH).
      simpl in Hsome.
      destruct (isUnlockOf deref c (Some key)) as [u|]; [|by destruct Hsome].
      by eapply IH.
Qed.

(** It leaves [isNeededSearch] set exactly when no unlock call of the key
    is among the instructions. *)
Lemma neededSearchLoop_true key instrs :
  forall b0 b, neededSearchLoop deref key instrs b0 = Some b ->
  b = true <-> b0 = true /\ forall m, ~ unlockAt deref instrs key m.
Proof.
  induction instrs as [|ins rest IH]; intros b0 b; simpl.
  - intros [= <-]. split; [intros ->; split; [done|] | by intros [? _]].
    intros m (call & Hm & _). done.
  - assert ((forall call, ins <> Call call) ->
            (forall m, ~ unlockAt deref rest key m)
            <-> (forall m, ~ unlockAt deref (ins :: rest) key m)) as Hother.
    { intros Hins. split; intros H m (call & Hm & Hu).
      - destruct m as [|m]; simpl in Hm; [by destruct (Hins call); congruence|].
        apply (H m). by exists call.
      - apply (H (S m)). by exists call. }
    destruct ins as [call| | | | | | | |];
      try (intros Hb; rewrite (IH _ _ Hb), Hother; done).
    destruct (isUnlockOf deref call (Some key)) as [u|] eqn:Eu; [|done].
    apply isUnlockOf_Some in Eu as Hu. simpl. intros Hb. rewrite (IH _ _ Hb).
    destruct u.
    + split; [by intros [? _]|]. intros [_ H]. destruct (H 0%nat).
      exists call. by destruct Hu as [[? ?] _].
    + split; intros [-> H]; (split; [done|]); intros m (call' & Hm & Hu1 & Hu2).
      * destruct m as [|m]; simpl in Hm.
        -- injection Hm as ->. by destruct Hu as [_ Hu]; discriminate Hu.
        -- apply (H m). by exists call'.
      * apply (H (S m)). by exists call'.
Qed.

(** [findPath] runs the search only when the block of the first node has
    no unlock of the key and [isUnlockBeforeLock] fails on the second. *)
Lemma findPath_true_iff (fNode sNode : BBNode) (key : string) :
  findPath deref LockPathSearch fNode sNode key = Some true <->
    neededSearchLoop deref key (blockInstrs deref (BB fNode)) true = Some true
    /\ isUnlockBeforeLock deref sNode key = Some false
    /\ exists result,
         LockPathSearch fNode sNode key (prune deref key) = Some result
         /\ result <> [].
Proof.
  unfold findPath.
  destruct (neededSearchLoop deref key (blockInstrs deref (BB fNode)) true)
    as [needed|]; simpl; [|split; [done | by intros [? _]]].
  destruct (isUnlockBeforeLock deref sNode key) as [ub|]; simpl;
    [|split; [done | by intros (_ & ? & _)]].
  destruct ub; [split; [by destruct needed | by intros (_ & ? & _)]|].
  destruct needed; [|split; [done | by intros [? _]]].
  destruct (LockPathSearch fNode sNode key (prune deref key)) as [result|];
    simpl; [|split; [done | by intros (_ & _ & ? & ? & _)]].
  destruct result as [|n result]; simpl.
  - split; [done | by intros (_ & _ & ? & [= <-] & ?)].
  - split; [intros _; repeat split; by eexists | done].
Qed.

(** The path search from a function to itself stops at the start node: the
    path has no edge. *)
Lemma PathSearchIgnoreGoCall_self (fn : FuncPtr) :
  PathSearchIgnoreGoCall CallGraph fn (fun other => bool_decide (other = fn)) = [].
Proof.
  unfold PathSearchIgnoreGoCall. simpl.
  destruct (decide (fn ∈ [])) as [Hin|_]; [by apply elem_of_nil in Hin|].
  by rewrite bool_decide_eq_true_2.
Qed.

(** The search follows calls, not goroutine launches. *)
Example PathSearchIgnoreGoCall_example :
  PathSearchIgnoreGoCall smallCallGraph 0 (fun other => bool_decide (other = 3%nat))
  = [mkEdge (Call callHelper) 2%nat; mkEdge (Call callFatal) 3%nat]
  /\ PathSearchIgnoreGoCall smallCallGraph 0
       (fun other => bool_decide (other = 1%nat)) = [].
Proof. by vm_compute. Qed.

(** The decision on a self-pair, when it is taken. *)
Lemma isDoubleLock_self_true (L : CallInstr) (k : string) :
  _isDoubleLock deref LockPathSearch Loops CallGraph L L k = Some true ->
  isInLoop Loops (Block L) = true
  /\ findPath deref LockPathSearch
       (CreateBBNode (BBCallGraph (Parent L)) (Block L))
       (CreateBBNode (BBCallGraph (Parent L)) (Block L)) k = Some true.
Proof.
  unfold _isDoubleLock. rewrite String.eqb_refl. simpl.
  destruct (decide (Block L = Block L)) as [_|]; [|done].
  destruct (isLockToLockInSameBlock deref L L) as [same|] eqn:Esame; [|done].
  apply isLockToLockInSameBlock_self in Esame as ->. simpl.
  rewrite PathSearchIgnoreGoCall_self.
  destruct (isInLoop Loops (Block L)); simpl; [|done].
  destruct (findPath _ _ _ _ k) as [[|]|]; simpl; done.
Qed.

(** When the block holds a lock call of the key, as the block of a lock
    call of this key does, [findPath] from the block to itself is never
    true: with an unlock of the key in the block no search is needed, and
    without one [isUnlockBeforeLock] holds. *)
Lemma findPath_self_with_lock (node : BBNode) (key : string) i :
  lockAt deref (blockInstrs deref (BB node)) key i ->
  findPath deref LockPathSearch node node key <> Some true.
Proof.
  intros Hlock Hpath. apply findPath_true_iff in Hpath as (Hneeded & Hub & _).
  apply neededSearchLoop_true in Hneeded as [Hno _].
  destruct (Hno eq_refl) as [_ Hno'].
  apply isUnlockBeforeLock_true_iff in Hub as [_ Hub].
  discriminate Hub. exists i. split; [done|]. intros j Hj. by destruct (Hno' j).
Qed.

Lemma isDoubleLock_self_with_lock (L : CallInstr) (key : string) i :
  lockAt deref (blockInstrs deref (Block L)) key i ->
  _isDoubleLock deref LockPathSearch Loops CallGraph L L key <> Some true.
Proof.
  intros Hlock Htrue. apply isDoubleLock_self_true in Htrue as [_ Hpath].
  by apply (findPath_self_with_lock _ key i) in Hpath.
Qed.

End SelfPair.

(** C1 (a defect of the code): on [for { m.Lock() }] the claim's condition
    holds and the code answers false.  The block of the lock call is in a
    loop and is its own successor, it has no unlock call of the key, and
    the callback of the path search admits it, so a lock path leads from
    the block back to itself with no unlock of the key between.  But
    [isUnlockBeforeLock] holds on the block, the lock standing after the
    index [-1] of an unlock that does not exist, so that [findPath] never
    runs the search: whatever the path search and the call graph are, the
    self-pair is not a double lock. *)
Theorem isDoubleLock_self_loop_missed :
  isInLoop loopLoops (Block loopLock) = true
  /\ (Succs <$> Blocks (loopHeap 0%nat) !! bIndex (Block loopLock))
     = Some [bIndex (Block loopLock)]
  /\ neededSearchLoop loopHeap "t0" (blockInstrs loopHeap (Block loopLock)) true
     = Some true
  /\ prune loopHeap "t0" (CreateBBNode (BBCallGraph 0%nat) (Block loopLock))
     = Some true
  /\ isUnlockBeforeLock loopHeap
       (CreateBBNode (BBCallGraph 0%nat) (Block loopLock)) "t0" = Some true
  /\ forall (LockPathSearch :
               BBNode -> BBNode -> string -> (BBNode -> option bool)
               -> option (list BBNode))
            (CallGraph : gmap FuncPtr (list Edge)),
       _isDoubleLock loopHeap LockPathSearch loopLoops CallGraph
         loopLock loopLock "t0" = Some false.
Proof.
  repeat (split; [reflexivity|]).
  intros LockPathSearch CallGraph. unfold _isDoubleLock.
  rewrite PathSearchIgnoreGoCall_self. reflexivity.
Qed.

(** ** Goroutines that call the test-fatal methods *)

Section ConcurrentTesting.

Variable deref : FuncPtr -> Function.

Lemma elem_of_flat_map {A B} (f : A -> list B) (l : list A) (y : B) :
  y ∈ flat_map f l <-> exists x, x ∈ l /\ y ∈ f x.
Proof.
  rewrite list_elem_of_In, in_flat_map. split; intros (x & Hx & Hy); exists x.
  - by rewrite !list_elem_of_In.
  - by rewrite <- !list_elem_of_In.
Qed.

Lemma fatalCallName_Some (ins : Instruction) (name : string) :
  fatalCallName deref ins = Some name <-> directFatalCall deref ins name.
Proof.
  unfold fatalCallName, directFatalCall, IsType, isFatalName. split.
  - destruct ins as [call| | | | | | | |]; try done.
    destruct (IsInvoke (Common call)) eqn:Hinv; [done|].
    destruct (StaticCallee (Common call)) as [callee|] eqn:Hcallee; [|done].
    destruct (Recv (deref callee)) as [recv|] eqn:Hrecv; [|done].
    destruct (String.eqb_spec recv "*testing.common") as [->|]; [|done].
    simpl. destruct (Object (deref callee)) as [fn|] eqn:Hobj; [|done].
    case_bool_decide as Hname; [|done]. intros [= <-].
    by exists call, callee, fn.
  - intros (call & callee & fn & -> & -> & -> & -> & -> & <- & Hname).
    simpl. by rewrite bool_decide_eq_true_2.
Qed.

(** C6 (as amended): the diagnostics of [CheckConcurrentTesting] are
    exactly one report of a [go] instruction of an initial function for
    each test-fatal call that stands in a block of the target function
    itself; calls made by the functions that the target calls play no
    part. *)
Theorem CheckConcurrentTesting_reports (InitialFunctions : list FuncPtr)
    (d : Diagnostic) :
  d ∈ CheckConcurrentTesting deref InitialFunctions <->
    exists ssafn block gostmt fn block' ins name,
      ssafn ∈ InitialFunctions /\ block ∈ Blocks (deref ssafn)
      /\ Go gostmt ∈ Instrs block /\ goTarget gostmt = Some fn
      /\ block' ∈ Blocks (deref fn) /\ ins ∈ Instrs block'
      /\ directFatalCall deref ins name
      /\ d = mkDiagnostic (iPtr gostmt) (GoroutineCallsT name).
Proof.
  unfold CheckConcurrentTesting. rewrite elem_of_flat_map. split.
  - intros (ssafn & Hfn & Hd). apply elem_of_flat_map in Hd as (block & Hb & Hd).
    apply elem_of_flat_map in Hd as (ins0 & Hins0 & Hd).
    destruct ins0 as [|?|gostmt| | | | | |]; simpl in Hd;
      try (by apply elem_of_nil in Hd).
    destruct (goTarget gostmt) as [fn|] eqn:Htarget;
      [|by apply elem_of_nil in Hd].
    apply elem_of_flat_map in Hd as (block' & Hb' & Hd).
    apply elem_of_flat_map in Hd as (ins & Hins & Hd).
    destruct (fatalCallName deref ins) as [name|] eqn:Hname;
      [|by apply elem_of_nil in Hd].
    apply list_elem_of_singleton in Hd as ->.
    apply fatalCallName_Some in Hname.
    by exists ssafn, block, gostmt, fn, block', ins, name.
  - intros (ssafn & block & gostmt & fn & block' & ins & name
            & Hfn & Hb & Hgo & Htarget & Hb' & Hins & Hname & ->).
    exists ssafn. split; [done|].
    apply elem_of_flat_map. exists block. split; [done|].
    apply elem_of_flat_map. exists (Go gostmt). split; [done|].
    simpl. rewrite Htarget.
    apply elem_of_flat_map. exists block'. split; [done|].
    apply elem_of_flat_map. exists ins. split; [done|].
    apply fatalCallName_Some in Hname as ->. by apply list_elem_of_singleton.
Qed.

End ConcurrentTesting.

(** C6 (as stated) fails: [go worker()] is not reported although [worker]
    calls [helper], which calls [Fatal]: the checker reads the blocks of
    the target function only. *)
Lemma CheckConcurrentTesting_not_transitive :
  CheckConcurrentTesting fatalHeap [0%nat] = []
  /\ goInstrOf fatalHeap [0%nat] goWorker
  /\ goTarget goWorker = Some 1%nat
  /\ containsFatalCall fatalHeap 1
  /\ ~ concurrentTestingAsStated fatalHeap [0%nat].
Proof.
  assert (goInstrOf fatalHeap [0%nat] goWorker) as Hgo.
  { exists 0%nat, (mkBasicBlock [Go goWorker] [] []).
    repeat split; apply list_elem_of_singleton; reflexivity. }
  assert (containsFatalCall fatalHeap 1) as Hfatal.
  { apply (fatal_through fatalHeap 1 (mkBasicBlock [Call callHelper] [] [])
             callHelper 2%nat);
      [by apply list_elem_of_singleton | by apply list_elem_of_singleton
       | done | done |].
    apply (fatal_direct fatalHeap 2 (mkBasicBlock [Call callFatal] [] [])
             (Call callFatal) "Fatal");
      [by apply list_elem_of_singleton | by apply list_elem_of_singleton |].
    exists callFatal, 3%nat, (mkTypesFunc "Fatal" "(*testing.common).Fatal").
    repeat split. set_solver. }
  repeat split; [done..|].
  intros H. destruct (H goWorker Hgo) as [_ Hrep].
  destruct Hrep as (d & Hd & _); [by exists 1%nat|].
  by apply elem_of_nil in Hd.
Qed.

Lemma CheckConcurrentTesting_reports_witness :
  mkDiagnostic 203 (GoroutineCallsT "Fatal")
  ∈ CheckConcurrentTesting directFatalHeap [0%nat].
Proof.
  apply (CheckConcurrentTesting_reports directFatalHeap [0%nat]).
  exists 0%nat, (mkBasicBlock [Go goHelper] [] []), goHelper, 2%nat,
    (mkBasicBlock [Call callFatal] [] []), (Call callFatal), "Fatal".
  repeat split; try (apply list_elem_of_singleton; reflexivity).
  exists callFatal, 3%nat, (mkTypesFunc "Fatal" "(*testing.common).Fatal").
  repeat split. set_solver.
Defined.

(** ** The order of the diagnostics of [CheckDoubleLock] *)

Section DiagnosticOrder.

Variable deref : FuncPtr -> Function.
Variable LockPathSearch :
  BBNode -> BBNode -> string -> (BBNode -> option bool) -> option (list BBNode).
Variable Loops : FuncPtr -> list (BlockRef -> bool).
Variable CallGraph : gmap FuncPtr (list Edge).

Lemma foldl_as_foldr {A B} (f : A -> B -> A) (a : A) (l : list B) :
  foldl f a l = foldr (fun x acc => f acc x) a (rev l).
Proof.
  induction l as [|x l IH] using rev_ind; [done|].
  by rewrite foldl_snoc, rev_unit, IH.
Qed.

(** The entries of a map have distinct keys, so the order in which the
    first [range] loop merges them does not change the merged map. *)
Lemma mergeLocks_order (lockInstructions m : gmap string (list CallInstr))
    (entries : list (string * list CallInstr)) :
  entries ≡ₚ map_to_list m ->
  mergeLocks lockInstructions entries
  = mergeLocks lockInstructions (map_to_list m).
Proof.
  intros Hperm. unfold mergeLocks.
  rewrite !foldl_as_foldr.
  apply (foldr_permutation eq
           (fun entry acc => <[entry.1 := default [] (acc !! entry.1) ++ entry.2]> acc)).
  - solve_proper.
  - intros j1 [k1 v1] j2 [k2 v2] b Hj H1 H2. simpl.
    assert (k1 <> k2) as Hk.
    { intros ->. apply Hj.
      assert (NoDup (rev entries).*1) as Hnd.
      { rewrite <- Permutation_rev, Hperm. apply NoDup_fst_map_to_list. }
      eapply (NoDup_lookup _ j1 j2 k2 Hnd);
        rewrite list_lookup_fmap; [by rewrite H1 | by rewrite H2]. }
    rewrite !lookup_insert_ne by done. by apply insert_insert_ne.
  - by rewrite <- !Permutation_rev.
Qed.



End DiagnosticOrder.



(** ** The [time.Tick] rewrite *)

Section TickRewrite.

Variable deref : FuncPtr -> Function.

Lemma tickBranch_shape (b b' : BasicBlock) instrs i :
  Instrs b' = Instrs b ->
  tickBranch deref b' instrs i = tickBranch deref b instrs i.
Proof. intros H. unfold tickBranch. by rewrite H. Qed.

Lemma stable_shape (b b' : BasicBlock) :
  sameShape b b' -> stable deref b -> stable deref b'.
Proof.
  intros [Hi Hs]. unfold stable. rewrite Hi, Hs.
  intros [?|[?|H]]; [by left | by right; left | right; right].
  intros i. by rewrite (tickBranch_shape b b').
Qed.

Lemma foldM_id {A B} (f : B -> A -> option B) (b : B) (l : list A) :
  (forall x, x ∈ l -> f b x = Some b) -> foldM f b l = Some b.
Proof.
  induction l as [|x l IH]; intros H; [done|]. simpl.
  rewrite (H x) by (by left). simpl. apply IH. intros y Hy. apply H. by right.
Qed.

(** On a stable block the rewrite is the identity. *)
Lemma applyBlock_stable (blocks : list BasicBlock) (bi : nat) :
  (forall b, blocks !! bi = Some b -> stable deref b) ->
  applyBlock deref blocks bi = Some blocks.
Proof.
  intros Hst. unfold applyBlock.
  destruct (blocks !! bi) as [b|] eqn:Hb; [|done].
  destruct (Nat.ltb_spec (length (Instrs b)) 3); [done|].
  destruct (Nat.eqb_spec (length (Succs b)) 2); simpl; [|done].
  destruct (Hst b eq_refl) as [?|[?|Hno]]; [lia | done |].
  apply foldM_id. intros i _. unfold rewriteAt. rewrite Hb. by rewrite Hno.
Qed.

Lemma rewriteAt_step (bi : nat) (instrs : list nat) blocks i b :
  blocks !! bi = Some b ->
  rewriteAt deref bi instrs blocks i =
    match tickBranch deref b instrs i with
    | None => None
    | Some None => Some blocks
    | Some (Some s2) =>
        match Succs b !! 1%nat with
        | None => None
        | Some succ =>
            Some (alter (fun b0 => RemovePred b0 bi) succ
                    (<[bi := mkBasicBlock (<[s2:=NewJump]> (Instrs b)) (Preds b)
                               (take 1 (Succs b))]> blocks))
        end
    end.
Proof.
  intros Hb. unfold rewriteAt. rewrite Hb.
  destruct (tickBranch deref b instrs i) as [[s2|]|]; simpl; [|done..].
  by destruct (Succs b !! 1%nat).
Qed.

(** After the branch of a block is rewritten the block has one successor,
    and the rest of the loop over its instructions changes nothing. *)
Lemma rewriteAt_after (bi : nat) (instrs l : list nat) :
  forall blocks blocks' b,
    blocks !! bi = Some b -> length (Succs b) = 1%nat ->
    foldM (rewriteAt deref bi instrs) blocks l = Some blocks' ->
    blocks' = blocks.
Proof.
  induction l as [|i l IH]; intros blocks blocks' b Hb Hlen; cbn [foldM].
  - by intros [= <-].
  - rewrite (rewriteAt_step bi instrs blocks i b Hb).
    destruct (tickBranch deref b instrs i) as [[s2|]|]; simpl; [| |done].
    + rewrite (lookup_ge_None_2 (Succs b) 1) by lia. done.
    + by apply (IH blocks blocks' b).
Qed.

(** The blocks after the loop over the instructions of block [bi]: every
    block keeps its instructions and successors, except that block [bi]
    may have lost its second successor. *)
Lemma rewriteLoop_shape (bi : nat) (instrs l : list nat) :
  forall blocks blocks' b,
    blocks !! bi = Some b -> length (Succs b) = 2%nat ->
    foldM (rewriteAt deref bi instrs) blocks l = Some blocks' ->
    (blocks' = blocks
     /\ forall i, i ∈ l -> tickBranch deref b instrs i = Some None)
    \/ (length blocks' = length blocks
        /\ (exists b', blocks' !! bi = Some b' /\ length (Succs b') = 1%nat)
        /\ forall k bk', k <> bi -> blocks' !! k = Some bk' ->
             exists bk, blocks !! k = Some bk /\ sameShape bk bk').
Proof.
  induction l as [|i l IH]; intros blocks blocks' b Hb Hlen; cbn [foldM].
  - intros [= <-]. left. split; [done|]. intros i Hi. by apply elem_of_nil in Hi.
  - rewrite (rewriteAt_step bi instrs blocks i b Hb).
    destruct (tickBranch deref b instrs i) as [[s2|]|] eqn:Htick; simpl; [| |done].
    + destruct (Succs b !! 1%nat) as [succ|] eqn:Hsucc; simpl; [|done].
      set (b1 := mkBasicBlock (<[s2:=NewJump]> (Instrs b)) (Preds b)
                   (take 1 (Succs b))).
      set (blocks1 := alter (fun b0 => RemovePred b0 bi) succ (<[bi:=b1]> blocks)).
      intros Hrest. right.
      assert (bi < length blocks)%nat as Hbi by (by eapply lookup_lt_Some).
      assert (exists b', blocks1 !! bi = Some b' /\ length (Succs b') = 1%nat)
        as (b1' & Hb1 & Hlen1).
      { unfold blocks1. destruct (decide (succ = bi)) as [->|Hne].
        - rewrite list_lookup_alter_eq, list_lookup_insert_eq by done.
          eexists. split; [done|]. simpl. rewrite length_take. lia.
        - rewrite list_lookup_alter_ne, list_lookup_insert_eq by done.
          eexists. split; [done|]. simpl. rewrite length_take. lia. }
      rewrite (rewriteAt_after bi instrs l blocks1 blocks' b1' Hb1 Hlen1 Hrest).
      split; [|split].
      * unfold blocks1. by rewrite length_alter, length_insert.
      * by exists b1'.
      * intros k bk' Hk. unfold blocks1.
        destruct (decide (succ = k)) as [->|Hne].
        -- rewrite list_lookup_alter_eq, list_lookup_insert_ne by done.
           destruct (blocks !! k) as [bk|]; simpl; [|done].
           intros [= <-]. by exists bk.
        -- rewrite list_lookup_alter_ne, list_lookup_insert_ne by done.
           intros Hbk. by exists bk'.
    + intros Hrest. destruct (IH blocks blocks' b Hb Hlen Hrest) as [[-> Hno]|H].
      * left. split; [done|]. intros i' Hi'.
        apply elem_of_cons in Hi' as [->|Hi']; [done | by apply Hno].
      * by right.
Qed.

(** The rewrite of one block keeps the shape of the other blocks and
    leaves the block itself stable: untouched, or with one successor. *)
Lemma applyBlock_shape (blocks blocks' : list BasicBlock) (bi : nat) :
  applyBlock deref blocks bi = Some blocks' ->
  length blocks' = length blocks
  /\ (forall b', blocks' !! bi = Some b' ->
        stable deref b'
        /\ (blocks !! bi = Some b' \/ length (Succs b') = 1%nat))
  /\ forall k bk', k <> bi -> blocks' !! k = Some bk' ->
       exists bk, blocks !! k = Some bk /\ sameShape bk bk'.
Proof.
  unfold applyBlock.
  assert (forall k bk', blocks !! k = Some bk' ->
            exists bk, blocks !! k = Some bk /\ sameShape bk bk') as Hsame
    by (intros k bk' Hk; by exists bk').
  destruct (blocks !! bi) as [b|] eqn:Hb.
  - destruct (Nat.ltb_spec (length (Instrs b)) 3) as [Hlt|Hge].
    { intros [= <-]. split; [done|]. split; [|auto].
      intros b'. rewrite Hb. intros [= <-]. split; [by left | by left]. }
    destruct (Nat.eqb_spec (length (Succs b)) 2) as [Hlen|Hlen]; simpl.
    + intros Hloop.
      destruct (rewriteLoop_shape bi _ _ blocks blocks' b Hb Hlen Hloop)
        as [[-> Hno]|(Hl & (b' & Hb' & Hlen') & Hother)].
      * split; [done|]. split; [|auto].
        intros b'. rewrite Hb. intros [= <-]. split; [|by left].
        right; right. intros i.
        destruct (decide (i < length (nonDebugSlots (Instrs b) 0))%nat) as [Hi|Hi].
        -- apply Hno. apply elem_of_seq. lia.
        -- unfold tickBranch.
           by rewrite (lookup_ge_None_2 (nonDebugSlots (Instrs b) 0) i) by lia.
      * split; [done|]. split; [|done].
        intros b''. rewrite Hb'. intros [= <-]. split; [|by right].
        right; left. lia.
    + intros [= <-]. split; [done|]. split; [|auto].
      intros b'. rewrite Hb. intros [= <-]. split; [by right; left | by left].
  - intros [= <-]. split; [done|]. split; [|auto].
    intros b'. by rewrite Hb.
Qed.

(** After the loop over the blocks, the blocks that were stable and the
    blocks that were visited are stable. *)
Lemma applyBlocks_stable (l : list nat) :
  forall blocks blocks',
    foldM (applyBlock deref) blocks l = Some blocks' ->
    length blocks' = length blocks
    /\ forall k b', blocks' !! k = Some b' ->
         k ∈ l \/ (forall b, blocks !! k = Some b -> stable deref b) ->
         stable deref b'.
Proof.
  induction l as [|bi l IH]; intros blocks blocks'; simpl.
  - intros [= <-]. split; [done|]. intros k b' Hk [Hin|Hst]; [|by apply Hst].
    by apply elem_of_nil in Hin.
  - destruct (applyBlock deref blocks bi) as [blocks1|] eqn:Hstep; simpl; [|done].
    intros Hrest.
    destruct (applyBlock_shape _ _ _ Hstep) as (Hlen1 & Hbi & Hother).
    destruct (IH _ _ Hrest) as (Hlen' & Hst').
    split; [lia|]. intros k b' Hk Hcase. apply (Hst' k b' Hk).
    destruct (decide (k = bi)) as [->|Hne];
      [right; intros b1 Hb1; by apply Hbi|].
    destruct Hcase as [Hin|Hst].
    + apply elem_of_cons in Hin as [->|Hin]; [done | by left].
    + right. intros b1 Hb1. destruct (Hother k b1 Hne Hb1) as (bk & Hbk & Hsh).
      eapply stable_shape; [done | by apply Hst].
Qed.

(** The rewrite, where it returns, returns a function on which it is the
    identity. *)
Lemma applyStdlibKnowledge_fixpoint (fn fn' : Function) :
  applyStdlibKnowledge deref fn = Some fn' ->
  applyStdlibKnowledge deref fn' = Some fn'.
Proof.
  unfold applyStdlibKnowledge.
  destruct (Nat.eqb_spec (length (Blocks fn)) 0) as [Hz|Hnz].
  - intros [= <-]. by rewrite (proj2 (Nat.eqb_eq _ _) Hz).
  - destruct (foldM (applyBlock deref) (Blocks fn) (seq 0 (length (Blocks fn))))
      as [blocks|] eqn:Hfold; simpl; [|done].
    intros [= <-]. simpl.
    destruct (applyBlocks_stable _ _ _ Hfold) as (Hlen & Hst).
    destruct (length blocks =? 0)%nat; [done|].
    rewrite (foldM_id (applyBlock deref) blocks); [done|].
    intros bi _. apply applyBlock_stable. intros b Hb.
    apply (Hst bi b Hb). left. apply elem_of_seq.
    apply lookup_lt_Some in Hb. lia.
Qed.

(** *** The rewrite returns on well-formed functions *)

Lemma nonDebugSlots_app (l1 l2 : list Instruction) (k : nat) :
  nonDebugSlots (l1 ++ l2) k
  = nonDebugSlots l1 k ++ nonDebugSlots l2 (k + length l1).
Proof.
  revert k. induction l1 as [|x l1 IH]; intros k; simpl.
  - by rewrite Nat.add_0_r.
  - rewrite IH. replace (S k + length l1)%nat with (k + S (length l1))%nat by lia.
    by destruct x.
Qed.

Lemma nonDebugSlots_bound (l : list Instruction) (k s : nat) :
  s ∈ nonDebugSlots l k -> (k <= s < k + length l)%nat.
Proof.
  revert k. induction l as [|x l IH]; intros k; simpl.
  - intros H. by apply elem_of_nil in H.
  - assert (s ∈ nonDebugSlots l (S k) -> (k <= s < k + S (length l))%nat)
      as Hrec by (intros H%IH; lia).
    destruct x; try done;
      intros [->|H]%elem_of_cons; (lia || by apply Hrec).
Qed.

Section OneBlock.

Variables (pre : list Instruction) (p Cond : Addr).
Hypothesis Hpre : forall ins, ins ∈ pre -> ~ isIf ins.

Lemma slots_of_block :
  nonDebugSlots (pre ++ [If p Cond]) 0
  = nonDebugSlots pre 0 ++ [length pre].
Proof. by rewrite nonDebugSlots_app. Qed.

Lemma slot_lookup (i s : nat) :
  (nonDebugSlots pre 0 ++ [length pre]) !! i = Some s ->
  (i < length (nonDebugSlots pre 0))%nat /\ (s < length pre)%nat
  \/ i = length (nonDebugSlots pre 0) /\ s = length pre.
Proof.
  intros Hi. apply lookup_app_Some in Hi as [Hi|[Hge Hi]].
  - left. split; [by eapply lookup_lt_Some|].
    apply list_elem_of_lookup_2 in Hi. apply nonDebugSlots_bound in Hi. lia.
  - right. apply list_lookup_singleton_Some in Hi as [Hz <-]. lia.
Qed.

Lemma slot_defined (i : nat) :
  (i <= length (nonDebugSlots pre 0))%nat ->
  is_Some ((nonDebugSlots pre 0 ++ [length pre]) !! i).
Proof. intros Hi. apply lookup_lt_is_Some. rewrite length_app. simpl. lia. Qed.

(** What the instruction in a slot can be. *)
Lemma slot_instr (bc : BasicBlock) (i s : nat) ins :
  inLoopState pre p Cond bc ->
  (nonDebugSlots pre 0 ++ [length pre]) !! i = Some s ->
  Instrs bc !! s = Some ins ->
  ((i < length (nonDebugSlots pre 0))%nat /\ ~ isIf ins)
  \/ (s = length pre /\ (ins = If p Cond \/ ins = Jump)).
Proof.
  intros Hst Hi Hs. destruct (slot_lookup i s Hi) as [[Hlt Hs']|[-> ->]].
  - left. split; [done|]. apply Hpre.
    destruct Hst as [[Hins _]|[Hins _]]; rewrite Hins in Hs;
      rewrite lookup_app_l in Hs by done; by eapply list_elem_of_lookup_2.
  - right. split; [done|].
    destruct Hst as [[Hins _]|[Hins _]]; rewrite Hins in Hs;
      rewrite list_lookup_middle in Hs by done; injection Hs as <-; auto.
Qed.

(** An iteration on such a block is a [continue], or it finds the [If] in
    the last slot of a block that still has two successors. *)
Lemma tickBranch_inLoopState (bc : BasicBlock) (i : nat) :
  inLoopState pre p Cond bc ->
  tickBranch deref bc (nonDebugSlots pre 0 ++ [length pre]) i = Some None
  \/ (tickBranch deref bc (nonDebugSlots pre 0 ++ [length pre]) i
       = Some (Some (length pre))
      /\ Instrs bc = pre ++ [If p Cond] /\ length (Succs bc) = 2%nat).
Proof.
  intros Hst. unfold tickBranch.
  destruct ((nonDebugSlots pre 0 ++ [length pre]) !! i) as [s0|] eqn:Hs0;
    simpl; [|by left].
  destruct (Instrs bc !! s0) as [ins0|] eqn:Hins0; [|by left].
  destruct ins0 as [| | |unop Op X| | | | |]; try (by left).
  destruct Op; try (by left). destruct X as [call|]; [|by left].
  destruct (IsCallTo deref (Common call) "time.Tick"); simpl; [|by left].
  destruct (slot_instr bc i s0 _ Hst Hs0 Hins0) as [[Hi0 _]|[_ [?|?]]];
    [|done..].
  destruct (slot_defined (i + 1)) as [s1 Hs1]; [lia|]. rewrite Hs1. simpl.
  destruct (Instrs bc !! s1) as [ins1|] eqn:Hins1; [|by left].
  destruct ins1 as [| | | |ex Tuple Index| | | |]; try (by left).
  destruct (negb (bool_decide (Tuple = unop)) || negb (Index =? 1)); [by left|].
  destruct (slot_instr bc (i + 1) s1 _ Hst Hs1 Hins1) as [[Hi1 _]|[_ [?|?]]];
    [|done..].
  destruct (slot_defined (i + 2)) as [s2 Hs2]; [lia|]. rewrite Hs2. simpl.
  destruct (Instrs bc !! s2) as [ins2|] eqn:Hins2; [|by left].
  destruct ins2 as [| | | | |pif Cond'| | |]; try (by left).
  destruct (negb (bool_decide (Cond' = ex))); [by left|].
  destruct (slot_instr bc (i + 2) s2 _ Hst Hs2 Hins2) as [[_ Hno]|[-> Hlast]].
  { destruct Hno. by exists pif, Cond'. }
  right. split; [done|].
  destruct Hst as [[Hins Hlen]|[Hins _]]; [done|].
  rewrite Hins, list_lookup_middle in Hins2 by done. done.
Qed.

(** The loop over the instructions of the block returns. *)
Lemma rewriteLoop_defined (bi : nat) (l : list nat) :
  forall blocks bc,
    blocks !! bi = Some bc -> inLoopState pre p Cond bc ->
    is_Some (foldM (rewriteAt deref bi (nonDebugSlots pre 0 ++ [length pre]))
               blocks l).
Proof.
  induction l as [|i l IH]; intros blocks bc Hbc Hst; cbn [foldM]; [by eexists|].
  rewrite (rewriteAt_step bi _ blocks i bc Hbc).
  destruct (tickBranch_inLoopState bc i Hst) as [->|(-> & Hins & Hlen)]; simpl.
  - by apply (IH blocks bc).
  - destruct (lookup_lt_is_Some_2 (Succs bc) 1) as [succ ->]; [lia|].
    simpl.
    assert (bi < length blocks)%nat as Hbi by (by eapply lookup_lt_Some).
    set (b1 := mkBasicBlock (<[length pre:=NewJump]> (Instrs bc)) (Preds bc)
                 (take 1 (Succs bc))).
    assert (inLoopState pre p Cond b1) as Hst1.
    { right. simpl. split.
      - rewrite Hins. replace (length pre) with (length pre + 0)%nat at 1 by lia.
        by rewrite insert_app_r.
      - rewrite length_take. lia. }
    destruct (decide (succ = bi)) as [->|Hne].
    + apply (IH _ (RemovePred b1 bi)).
      * by rewrite list_lookup_alter_eq, list_lookup_insert_eq.
      * destruct Hst1 as [[? ?]|[? ?]]; [by left | by right].
    + apply (IH _ b1); [|done].
      by rewrite list_lookup_alter_ne, list_lookup_insert_eq.
Qed.

End OneBlock.

Lemma applyBlock_defined (blocks : list BasicBlock) (bi : nat) :
  Forall endsInIf blocks -> is_Some (applyBlock deref blocks bi).
Proof.
  intros Hwf. unfold applyBlock.
  destruct (blocks !! bi) as [b|] eqn:Hb; [|by eexists].
  destruct (length (Instrs b) <? 3)%nat; [by eexists|].
  destruct (Nat.eqb_spec (length (Succs b)) 2) as [Hlen|]; simpl; [|by eexists].
  destruct (proj1 (Forall_lookup _ _) Hwf bi b Hb Hlen)
    as (pre & p & Cond & Hins & Hpre).
  rewrite Hins, slots_of_block.
  apply (rewriteLoop_defined pre p Cond Hpre bi _ blocks b Hb).
  by left.
Qed.

Lemma endsInIf_shape (b b' : BasicBlock) :
  sameShape b b' -> endsInIf b -> endsInIf b'.
Proof. intros [Hi Hs]. unfold endsInIf. by rewrite Hi, Hs. Qed.

Lemma applyBlocks_defined (l : list nat) :
  forall blocks,
    Forall endsInIf blocks -> is_Some (foldM (applyBlock deref) blocks l).
Proof.
  induction l as [|bi l IH]; intros blocks Hwf; cbn [foldM]; [by eexists|].
  destruct (applyBlock_defined blocks bi Hwf) as [blocks1 Hstep].
  rewrite Hstep. simpl. apply IH.
  destruct (applyBlock_shape _ _ _ Hstep) as (_ & Hbi & Hother).
  apply Forall_lookup. intros k b1 Hb1.
  destruct (decide (k = bi)) as [->|Hne].
  - destruct (Hbi b1 Hb1) as [_ [Hold|Hone]].
    + by apply (proj1 (Forall_lookup _ _) Hwf bi).
    + intros Htwo. lia.
  - destruct (Hother k b1 Hne Hb1) as (bk & Hbk & Hsh).
    eapply endsInIf_shape; [done|]. by apply (proj1 (Forall_lookup _ _) Hwf k).
Qed.

(** C7: on every function whose blocks with two successors end in their
    only [If], the rewrite returns, and applied to its result it returns
    that result again: the same blocks, with the same instructions,
    successors and predecessors. *)
Theorem applyStdlibKnowledge_idempotent (fn : Function) :
  wellFormed fn ->
  exists fn',
    applyStdlibKnowledge deref fn = Some fn'
    /\ applyStdlibKnowledge deref fn' = Some fn'.
Proof.
  intros Hwf.
  assert (is_Some (applyStdlibKnowledge deref fn)) as [fn' Hfn'].
  { unfold applyStdlibKnowledge.
    destruct (length (Blocks fn) =? 0)%nat; [by eexists|].
    destruct (applyBlocks_defined (seq 0 (length (Blocks fn))) _ Hwf)
      as [blocks ->].
    by eexists. }
  exists fn'. split; [done|]. by apply applyStdlibKnowledge_fixpoint in Hfn'.
Qed.

End TickRewrite.

(** On the [for range time.Tick] loop the branch becomes a jump to the
    body, and the exit block loses its predecessor. *)
Example applyStdlibKnowledge_tickLoop :
  applyStdlibKnowledge tickHeap tickLoop
  = Some (mkFunction
            [mkBasicBlock [DebugRef; UnOp 301 ARROW (OCall tickCall);
                           Extract 302 301 1; Jump]
               [1%nat] [1%nat];
             mkBasicBlock [Other 304; Jump] [0%nat] [0%nat];
             mkBasicBlock [Other 305] [] []]
            None None).
Proof. by vm_compute. Qed.

Lemma applyStdlibKnowledge_idempotent_witness :
  wellFormed tickLoop
  /\ exists fn',
       applyStdlibKnowledge tickHeap tickLoop = Some fn'
       /\ applyStdlibKnowledge tickHeap fn' = Some fn'.
Proof.
  assert (wellFormed tickLoop) as Hwf.
  { repeat constructor; intros Hlen; simpl in Hlen; try lia.
    exists [DebugRef; UnOp 301 ARROW (OCall tickCall); Extract 302 301 1],
      303%nat, 302%nat.
    split; [reflexivity|]. intros ins Hin (p & c & ->).
    repeat (apply elem_of_cons in Hin as [Hin|Hin]; [discriminate|]).
    by apply elem_of_nil in Hin. }
  split; [done|]. apply (applyStdlibKnowledge_idempotent tickHeap tickLoop Hwf).
Defined.

(** * Further properties of the checkers *)

(** ** The checkers of adjacent instructions *)

Section AdjacentFacts.

Variable deref : FuncPtr -> Function.

Lemma adjacentLoop_step step ins next (rest : list Instruction) :
  adjacentLoop step (ins :: next :: rest) =
    ds ← step ins next; ds' ← adjacentLoop step (next :: rest); Some (ds ++ ds').
Proof. reflexivity. Qed.

Lemma adjacentLoop_Some step (l : list Instruction) :
  forall ds, adjacentLoop step l = Some ds ->
  forall d, d ∈ ds <->
    exists i a b ds0, l !! i = Some a /\ l !! S i = Some b
                      /\ step a b = Some ds0 /\ d ∈ ds0.
Proof.
  induction l as [|ins rest IH]; intros ds.
  - intros [= <-] d. split; [by intros ?%elem_of_nil|].
    by intros (i & a & b & ds0 & Hi & _).
  - destruct rest as [|next rest'].
    + intros [= <-] d. split; [by intros ?%elem_of_nil|].
      intros (i & a & b & ds0 & Hi & Hn & _). by destruct i.
    + rewrite adjacentLoop_step.
      destruct (step ins next) as [ds1|] eqn:Hstep; [|done].
      destruct (adjacentLoop step (next :: rest')) as [ds2|] eqn:Hrest; [|done].
      intros [= <-] d. rewrite elem_of_app, (IH ds2 eq_refl d). split.
      * intros [Hd|(i & a & b & ds0 & Hi & Hn & Hs & Hd)].
        -- by exists 0%nat, ins, next, ds1.
        -- by exists (S i), a, b, ds0.
      * intros (i & a & b & ds0 & Hi & Hn & Hs & Hd). destruct i as [|i].
        -- simpl in Hi, Hn. injection Hi as <-. injection Hn as <-.
           left. congruence.
        -- right. by exists i, a, b, ds0.
Qed.

Lemma adjacentLoop_None step (l : list Instruction) :
  adjacentLoop step l = None <->
    exists i a b, l !! i = Some a /\ l !! S i = Some b /\ step a b = None.
Proof.
  induction l as [|ins rest IH].
  - split; [done | by intros (i & a & b & Hi & _)].
  - destruct rest as [|next rest'].
    + split; [done|]. intros (i & a & b & Hi & Hn & _). by destruct i.
    + rewrite adjacentLoop_step.
      destruct (step ins next) as [ds1|] eqn:Hstep.
      * destruct (adjacentLoop step (next :: rest')) as [ds2|] eqn:Hrest.
        -- split; [done|]. intros (i & a & b & Hi & Hn & Hs).
           destruct i as [|i].
           ++ simpl in Hi, Hn. injection Hi as <-. injection Hn as <-. congruence.
           ++ destruct IH as [_ IH]. discriminate IH. by exists i, a, b.
        -- split; [intros _ | done]. destruct IH as [IH _].
           destruct (IH eq_refl) as (i & a & b & Hi & Hn & Hs).
           by exists (S i), a, b.
      * split; [intros _ | done]. by exists 0%nat, ins, next.
Qed.

Lemma concat_mapM_Some {A B} (f : A -> option (list B)) (l : list A) r :
  (ds ← mapM f l; Some (concat ds)) = Some r ->
  forall d, d ∈ r <-> exists x ds0, x ∈ l /\ f x = Some ds0 /\ d ∈ ds0.
Proof.
  revert r. induction l as [|x l IH]; intros r; simpl.
  - intros [= <-] d. split; [by intros ?%elem_of_nil|].
    by intros (x & ds0 & ?%elem_of_nil & _).
  - destruct (f x) as [ds1|] eqn:Hx; simpl; [|done].
    destruct (mapM f l) as [ds|] eqn:Hl; simpl in *; [|done].
    intros [= <-] d. rewrite elem_of_app, (IH _ eq_refl d). split.
    + intros [Hd|(y & ds0 & Hy & Hf & Hd)].
      * exists x, ds1. split; [by left | done].
      * exists y, ds0. split; [by right | done].
    + intros (y & ds0 & Hy & Hf & Hd). apply elem_of_cons in Hy as [->|Hy].
      * left. congruence.
      * right. by exists y, ds0.
Qed.

Lemma concat_mapM_None {A B} (f : A -> option (list B)) (l : list A) :
  (ds ← mapM f l; Some (concat ds)) = None <-> exists x, x ∈ l /\ f x = None.
Proof.
  induction l as [|x l IH]; simpl.
  - split; [done | by intros (x & ?%elem_of_nil & _)].
  - destruct (f x) as [ds1|] eqn:Hx; simpl.
    + destruct (mapM f l) as [ds|] eqn:Hl; simpl in *.
      * split; [done|]. intros (y & Hy & Hf).
        apply elem_of_cons in Hy as [->|Hy]; [congruence|].
        destruct IH as [_ IH]. discriminate IH. by exists y.
      * split; [intros _ | done]. destruct IH as [IH _].
        destruct (IH eq_refl) as (y & Hy & Hf). exists y. split; [by right | done].
    + split; [intros _ | done]. exists x. split; [by left | done].
Qed.

Lemma adjacentChecker_Some step InitialFunctions r :
  adjacentChecker deref step InitialFunctions = Some r ->
  forall d, d ∈ r <->
    exists a b ds0, adjacentIn deref InitialFunctions a b
                    /\ step a b = Some ds0 /\ d ∈ ds0.
Proof.
  intros Hr d. unfold adjacentChecker in Hr.
  rewrite (concat_mapM_Some _ _ _ Hr d). split.
  - intros (ssafn & ds1 & Hfn & Hds1 & Hd).
    apply (concat_mapM_Some _ _ _ Hds1 d) in Hd as (block & ds2 & Hb & Hds2 & Hd).
    apply (adjacentLoop_Some _ _ _ Hds2 d) in Hd as (i & a & b & ds0 & Hi & Hn & Hs & Hd).
    exists a, b, ds0. split; [|done]. by exists ssafn, block, i.
  - intros (a & b & ds0 & (ssafn & block & i & Hfn & Hb & Hi & Hn) & Hs & Hd).
    destruct (mapM _ InitialFunctions) as [dss|] eqn:Hall; [|done].
    apply mapM_Some_1 in Hall.
    apply list_elem_of_lookup in Hfn as [n Hn'].
    destruct (Forall2_lookup_l _ _ _ _ _ Hall Hn') as (ds1 & _ & Hds1).
    exists ssafn, ds1. split; [by eapply list_elem_of_lookup_2|]. split; [done|].
    apply (concat_mapM_Some _ _ _ Hds1 d).
    destruct (mapM _ (Blocks (deref ssafn))) as [dsb|] eqn:Hblocks; [|done].
    apply mapM_Some_1 in Hblocks.
    apply list_elem_of_lookup in Hb as [nb Hnb].
    destruct (Forall2_lookup_l _ _ _ _ _ Hblocks Hnb) as (ds2 & _ & Hds2).
    exists block, ds2. split; [by eapply list_elem_of_lookup_2|]. split; [done|].
    apply (adjacentLoop_Some _ _ _ Hds2 d). by exists i, a, b, ds0.
Qed.

Lemma adjacentChecker_None step InitialFunctions :
  adjacentChecker deref step InitialFunctions = None <->
    exists a b, adjacentIn deref InitialFunctions a b /\ step a b = None.
Proof.
  unfold adjacentChecker. rewrite concat_mapM_None. split.
  - intros (ssafn & Hfn & Hnone).
    apply concat_mapM_None in Hnone as (block & Hb & Hnone).
    apply adjacentLoop_None in Hnone as (i & a & b & Hi & Hn & Hs).
    exists a, b. split; [|done]. by exists ssafn, block, i.
  - intros (a & b & (ssafn & block & i & Hfn & Hb & Hi & Hn) & Hs).
    exists ssafn. split; [done|]. apply concat_mapM_None.
    exists block. split; [done|]. apply adjacentLoop_None. by exists i, a, b.
Qed.

Lemma lookup_0_None {A} (l : list A) : l !! 0%nat = None <-> l = [].
Proof. by destruct l. Qed.

Lemma unlockAfterLockStep_Some a b ds0 d :
  unlockAfterLockStep deref a b = Some ds0 /\ d ∈ ds0 <->
    exists call nins,
      a = Call call /\ b = Call nins
      /\ isCallToLock deref (Common call) = true
      /\ isCallToUnlock deref (Common nins) = true
      /\ sameReceiver (Common call) (Common nins)
      /\ ds0 = [d]
      /\ d = mkReport (iPtr nins)
               ("Unlock " +:+ shortCallName deref (Common call)
                +:+ " right after locking; did you mean to defer "
                +:+ unlockNameFor (shortCallName deref (Common call)) +:+ "?").
Proof.
  unfold unlockAfterLockStep, sameReceiver. split.
  - intros [Hs Hd].
    destruct a as [call| | | | | | | |];
      try (injection Hs as <-; by apply elem_of_nil in Hd).
    destruct (isCallToLock deref (Common call)) eqn:Hl; simpl in Hs;
      [|injection Hs as <-; by apply elem_of_nil in Hd].
    destruct b as [nins| | | | | | | |];
      try (injection Hs as <-; by apply elem_of_nil in Hd).
    destruct (isCallToUnlock deref (Common nins)) eqn:Hu; simpl in Hs;
      [|injection Hs as <-; by apply elem_of_nil in Hd].
    destruct (Args (Common call) !! 0%nat) as [x|] eqn:Hx; simpl in Hs; [|done].
    destruct (Args (Common nins) !! 0%nat) as [y|] eqn:Hy; simpl in Hs; [|done].
    destruct (Nat.eqb_spec (argPtr x) (argPtr y)) as [Heq|]; simpl in Hs;
      [|injection Hs as <-; by apply elem_of_nil in Hd].
    injection Hs as <-. apply list_elem_of_singleton in Hd as ->.
    exists call, nins. repeat split; try done. by exists x, y.
  - intros (call & nins & -> & -> & -> & -> & (x & y & -> & -> & Heq) & -> & ->).
    simpl. rewrite (proj2 (Nat.eqb_eq _ _) Heq). simpl.
    split; [done | by apply list_elem_of_singleton].
Qed.

Lemma unlockAfterLockStep_None a b :
  unlockAfterLockStep deref a b = None <->
    exists call nins,
      a = Call call /\ b = Call nins
      /\ isCallToLock deref (Common call) = true
      /\ isCallToUnlock deref (Common nins) = true
      /\ (Args (Common call) = [] \/ Args (Common nins) = []).
Proof.
  unfold unlockAfterLockStep. split.
  - destruct a as [call| | | | | | | |]; try done.
    destruct (isCallToLock deref (Common call)) eqn:Hl; simpl; [|done].
    destruct b as [nins| | | | | | | |]; try done.
    destruct (isCallToUnlock deref (Common nins)) eqn:Hu; simpl; [|done].
    destruct (Args (Common call) !! 0%nat) as [x|] eqn:Hx; simpl.
    + destruct (Args (Common nins) !! 0%nat) as [y|] eqn:Hy; simpl.
      * by destruct (negb _).
      * intros _. exists call, nins. repeat split; try done.
        right. by apply lookup_0_None.
    + intros _. exists call, nins. repeat split; try done.
      left. by apply lookup_0_None.
  - intros (call & nins & -> & -> & -> & -> & [Hnil|Hnil]); simpl;
      rewrite Hnil; simpl; [done|].
    by destruct (Args (Common call) !! 0%nat).
Qed.

Lemma deferLockStep_Some a b ds0 d :
  deferLockStep deref a b = Some ds0 /\ d ∈ ds0 <->
    exists call nins,
      a = Call call /\ b = Defer nins
      /\ isCallToLock deref (Common call) = true
      /\ isCallToLock deref (Common nins) = true
      /\ sameReceiver (Common call) (Common nins)
      /\ ds0 = [d]
      /\ d = mkReport (iPtr nins)
               ("deferring " +:+ shortCallName deref (Common call)
                +:+ " right after having locked already; did you mean to defer "
                +:+ unlockNameFor (shortCallName deref (Common call)) +:+ "?").
Proof.
  unfold deferLockStep, sameReceiver. split.
  - intros [Hs Hd].
    destruct a as [call| | | | | | | |];
      try (injection Hs as <-; by apply elem_of_nil in Hd).
    destruct (isCallToLock deref (Common call)) eqn:Hl; simpl in Hs;
      [|injection Hs as <-; by apply elem_of_nil in Hd].
    destruct b as [|nins| | | | | | |];
      try (injection Hs as <-; by apply elem_of_nil in Hd).
    destruct (isCallToLock deref (Common nins)) eqn:Hu; simpl in Hs;
      [|injection Hs as <-; by apply elem_of_nil in Hd].
    destruct (Args (Common call) !! 0%nat) as [x|] eqn:Hx; simpl in Hs; [|done].
    destruct (Args (Common nins) !! 0%nat) as [y|] eqn:Hy; simpl in Hs; [|done].
    destruct (Nat.eqb_spec (argPtr x) (argPtr y)) as [Heq|]; simpl in Hs;
      [|injection Hs as <-; by apply elem_of_nil in Hd].
    injection Hs as <-. apply list_elem_of_singleton in Hd as ->.
    exists call, nins. repeat split; try done. by exists x, y.
  - intros (call & nins & -> & -> & -> & -> & (x & y & -> & -> & Heq) & -> & ->).
    simpl. rewrite (proj2 (Nat.eqb_eq _ _) Heq). simpl.
    split; [done | by apply list_elem_of_singleton].
Qed.

Lemma deferLockStep_None a b :
  deferLockStep deref a b = None <->
    exists call nins,
      a = Call call /\ b = Defer nins
      /\ isCallToLock deref (Common call) = true
      /\ isCallToLock deref (Common nins) = true
      /\ (Args (Common call) = [] \/ Args (Common nins) = []).
Proof.
  unfold deferLockStep. split.
  - destruct a as [call| | | | | | | |]; try done.
    destruct (isCallToLock deref (Common call)) eqn:Hl; simpl; [|done].
    destruct b as [|nins| | | | | | |]; try done.
    destruct (isCallToLock deref (Common nins)) eqn:Hu; simpl; [|done].
    destruct (Args (Common call) !! 0%nat) as [x|] eqn:Hx; simpl.
    + destruct (Args (Common nins) !! 0%nat) as [y|] eqn:Hy; simpl.
      * by destruct (negb _).
      * intros _. exists call, nins. repeat split; try done.
        right. by apply lookup_0_None.
    + intros _. exists call, nins. repeat split; try done.
      left. by apply lookup_0_None.
  - intros (call & nins & -> & -> & -> & -> & [Hnil|Hnil]); simpl;
      rewrite Hnil; simpl; [done|].
    by destruct (Args (Common call) !! 0%nat).
Qed.

(** X1: when [CheckUnlockAfterLock] returns, it reports exactly the unlock
    calls that directly follow, debug instructions apart, a lock call on
    the same first argument in a block of an initial function, and the
    text names the lock method and the unlock to defer. *)
Theorem CheckUnlockAfterLock_reports (InitialFunctions : list FuncPtr)
    (ds : list Report) (d : Report) :
  CheckUnlockAfterLock deref InitialFunctions = Some ds ->
  d ∈ ds <->
    exists call nins,
      adjacentIn deref InitialFunctions (Call call) (Call nins)
      /\ isCallToLock deref (Common call) = true
      /\ isCallToUnlock deref (Common nins) = true
      /\ sameReceiver (Common call) (Common nins)
      /\ d = mkReport (iPtr nins)
               ("Unlock " +:+ shortCallName deref (Common call)
                +:+ " right after locking; did you mean to defer "
                +:+ unlockNameFor (shortCallName deref (Common call)) +:+ "?").
Proof.
  intros Hds. rewrite (adjacentChecker_Some _ _ _ Hds d). split.
  - intros (a & b & ds0 & Hadj & Hstep).
    apply unlockAfterLockStep_Some in Hstep
      as (call & nins & -> & -> & Hl & Hu & Hr & _ & ->).
    by exists call, nins.
  - intros (call & nins & Hadj & Hl & Hu & Hr & ->).
    eexists (Call call), (Call nins), _. split; [done|].
    apply unlockAfterLockStep_Some. by exists call, nins.
Qed.

(** X2: [CheckUnlockAfterLock] panics exactly when, in a block of an
    initial function, a lock call is directly followed by an unlock call
    and one of the two has no argument, as the dynamic calls of
    [l.Lock(); l.Unlock()] on an interface have: [Args[0]] is read before
    any test of the length. *)
Theorem CheckUnlockAfterLock_panics (InitialFunctions : list FuncPtr) :
  CheckUnlockAfterLock deref InitialFunctions = None <->
    exists call nins,
      adjacentIn deref InitialFunctions (Call call) (Call nins)
      /\ isCallToLock deref (Common call) = true
      /\ isCallToUnlock deref (Common nins) = true
      /\ (Args (Common call) = [] \/ Args (Common nins) = []).
Proof.
  unfold CheckUnlockAfterLock. rewrite adjacentChecker_None. split.
  - intros (a & b & Hadj & Hstep).
    apply unlockAfterLockStep_None in Hstep as (call & nins & -> & -> & H).
    by exists call, nins.
  - intros (call & nins & Hadj & H). exists (Call call), (Call nins).
    split; [done|]. apply unlockAfterLockStep_None. by exists call, nins.
Qed.

(** X3: when [CheckDeferLock] returns, it reports exactly the deferred
    lock calls that directly follow, debug instructions apart, a lock
    call on the same first argument in a block of an initial function. *)
Theorem CheckDeferLock_reports (InitialFunctions : list FuncPtr)
    (ds : list Report) (d : Report) :
  CheckDeferLock deref InitialFunctions = Some ds ->
  d ∈ ds <->
    exists call nins,
      adjacentIn deref InitialFunctions (Call call) (Defer nins)
      /\ isCallToLock deref (Common call) = true
      /\ isCallToLock deref (Common nins) = true
      /\ sameReceiver (Common call) (Common nins)
      /\ d = mkReport (iPtr nins)
               ("deferring " +:+ shortCallName deref (Common call)
                +:+ " right after having locked already; did you mean to defer "
                +:+ unlockNameFor (shortCallName deref (Common call)) +:+ "?").
Proof.
  intros Hds. rewrite (adjacentChecker_Some _ _ _ Hds d). split.
  - intros (a & b & ds0 & Hadj & Hstep).
    apply deferLockStep_Some in Hstep
      as (call & nins & -> & -> & Hl & Hu & Hr & _ & ->).
    by exists call, nins.
  - intros (call & nins & Hadj & Hl & Hu & Hr & ->).
    eexists (Call call), (Defer nins), _. split; [done|].
    apply deferLockStep_Some. by exists call, nins.
Qed.

(** X4: [CheckDeferLock] panics exactly when, in a block of an initial
    function, a lock call is directly followed by a deferred lock call and
    one of the two has no argument. *)
Theorem CheckDeferLock_panics (InitialFunctions : list FuncPtr) :
  CheckDeferLock deref InitialFunctions = None <->
    exists call nins,
      adjacentIn deref InitialFunctions (Call call) (Defer nins)
      /\ isCallToLock deref (Common call) = true
      /\ isCallToLock deref (Common nins) = true
      /\ (Args (Common call) = [] \/ Args (Common nins) = []).
Proof.
  unfold CheckDeferLock. rewrite adjacentChecker_None. split.
  - intros (a & b & Hadj & Hstep).
    apply deferLockStep_None in Hstep as (call & nins & -> & -> & H).
    by exists call, nins.
  - intros (call & nins & Hadj & H). exists (Call call), (Defer nins).
    split; [done|]. apply deferLockStep_None. by exists call, nins.
Qed.

End AdjacentFacts.

Lemma CheckUnlockAfterLock_reports_witness :
  let ds :=
    [mkReport 401
       "Unlock Lock right after locking; did you mean to defer Unlock?"] in
  CheckUnlockAfterLock lockUnlockHeap [0%nat] = Some ds
  /\ forall d, d ∈ ds <->
       exists call nins,
         adjacentIn lockUnlockHeap [0%nat] (Call call) (Call nins)
         /\ isCallToLock lockUnlockHeap (Common call) = true
         /\ isCallToUnlock lockUnlockHeap (Common nins) = true
         /\ sameReceiver (Common call) (Common nins)
         /\ d = mkReport (iPtr nins)
                  ("Unlock " +:+ shortCallName lockUnlockHeap (Common call)
                   +:+ " right after locking; did you mean to defer "
                   +:+ unlockNameFor (shortCallName lockUnlockHeap (Common call))
                   +:+ "?").
Proof.
  split; [reflexivity|]. intros d.
  apply (CheckUnlockAfterLock_reports lockUnlockHeap [0%nat]). reflexivity.
Defined.

Lemma CheckDeferLock_reports_witness :
  let ds :=
    [mkReport 402
       "deferring Lock right after having locked already; did you mean to defer Unlock?"] in
  CheckDeferLock deferLockHeap [0%nat] = Some ds
  /\ forall d, d ∈ ds <->
       exists call nins,
         adjacentIn deferLockHeap [0%nat] (Call call) (Defer nins)
         /\ isCallToLock deferLockHeap (Common call) = true
         /\ isCallToLock deferLockHeap (Common nins) = true
         /\ sameReceiver (Common call) (Common nins)
         /\ d = mkReport (iPtr nins)
                  ("deferring " +:+ shortCallName deferLockHeap (Common call)
                   +:+ " right after having locked already; did you mean to defer "
                   +:+ unlockNameFor (shortCallName deferLockHeap (Common call))
                   +:+ "?").
Proof.
  split; [reflexivity|]. intros d.
  apply (CheckDeferLock_reports deferLockHeap [0%nat]). reflexivity.
Defined.

(** The dynamic calls of [l.Lock(); l.Unlock()] and of
    [l.Lock(); defer l.Lock()] on an interface make both checkers panic. *)
Example CheckUnlockAfterLock_locker :
  CheckUnlockAfterLock lockerHeap [0%nat] = None.
Proof. reflexivity. Qed.

Example CheckDeferLock_locker : CheckDeferLock lockerHeap [0%nat] = None.
Proof. reflexivity. Qed.

(** ** The lock calls that [CheckDoubleLock] pairs *)

Section LockCollection.

Variable deref : FuncPtr -> Function.

#[local] Arguments lockCallsIn : simpl never.

Lemma groupEntry_default key calls :
  default [] (groupEntry key calls) = ofKey key calls.
Proof. unfold groupEntry. by destruct (ofKey key calls). Qed.

Lemma groupEntry_app key calls1 calls2 :
  groupEntry key (calls1 ++ calls2) =
    match groupEntry key calls2 with
    | Some v => Some (default [] (groupEntry key calls1) ++ v)
    | None => groupEntry key calls1
    end.
Proof.
  rewrite groupEntry_default. unfold groupEntry, ofKey. rewrite filter_app.
  destruct (filter _ calls2) as [|c2 l2]; [by rewrite app_nil_r|].
  by destruct (filter _ calls1).
Qed.

Lemma grouped_empty : grouped ∅ [].
Proof. intros key. by rewrite lookup_empty. Qed.

Lemma collectInstr_grouped acc calls ins acc' :
  grouped acc calls ->
  collectInstr deref acc ins = Some acc' ->
  grouped acc' (calls ++ lockCallsIn deref [ins]).
Proof.
  intros Hacc. unfold lockCallsIn. simpl. rewrite app_nil_r.
  destruct ins as [call| | | | | | | |]; simpl;
    try (intros [= <-]; by rewrite app_nil_r).
  destruct (isCallToLock deref (Common call));
    [|intros [= <-]; by rewrite app_nil_r].
  destruct (getLockPrefix (Common call)) as [lockValue|] eqn:Hkey; [|done].
  simpl. intros [= <-] key. rewrite groupEntry_app.
  unfold groupEntry at 1, ofKey. rewrite filter_cons, filter_nil.
  destruct (decide (lockValue = key)) as [->|Hne].
  - rewrite lookup_insert_eq, decide_True by done. by rewrite Hacc.
  - rewrite lookup_insert_ne by done.
    rewrite decide_False by congruence. apply Hacc.
Qed.

Lemma lockCallsIn_cons ins rest :
  lockCallsIn deref (ins :: rest)
  = lockCallsIn deref [ins] ++ lockCallsIn deref rest.
Proof. unfold lockCallsIn. simpl. by rewrite app_nil_r. Qed.

Lemma collectInstrs_grouped instrs :
  forall acc calls acc',
    grouped acc calls ->
    foldM (collectInstr deref) acc instrs = Some acc' ->
    grouped acc' (calls ++ lockCallsIn deref instrs).
Proof.
  induction instrs as [|ins rest IH]; intros acc calls acc' Hacc; simpl.
  - intros [= <-]. unfold lockCallsIn. simpl. by rewrite app_nil_r.
  - destruct (collectInstr deref acc ins) as [acc1|] eqn:Hins; [|done]. simpl.
    intros Hrest. rewrite lockCallsIn_cons, app_assoc.
    eapply IH; [|done]. by eapply collectInstr_grouped.
Qed.

Lemma collectBlocks_grouped blocks :
  forall acc calls acc',
    grouped acc calls ->
    foldM (fun result bb => foldM (collectInstr deref) result (Instrs bb))
          acc blocks = Some acc' ->
    grouped acc'
      (calls ++ flat_map (fun bb => lockCallsIn deref (Instrs bb)) blocks).
Proof.
  induction blocks as [|bb rest IH]; intros acc calls acc' Hacc; simpl.
  - intros [= <-]. by rewrite app_nil_r.
  - destruct (foldM (collectInstr deref) acc (Instrs bb)) as [acc1|] eqn:Hbb;
      [|done]. simpl.
    intros Hrest. rewrite app_assoc.
    eapply IH; [|done]. by eapply collectInstrs_grouped.
Qed.

Lemma collectLockInstrs_grouped fn m :
  collectLockInstrs deref fn = Some m -> grouped m (lockCalls deref fn).
Proof.
  intros Hm. apply (collectBlocks_grouped _ ∅ [] m grouped_empty Hm).
Qed.

Lemma collectInstr_None acc ins :
  collectInstr deref acc ins = None <->
    exists call, call ∈ lockCallsIn deref [ins]
                 /\ getLockPrefix (Common call) = None.
Proof.
  unfold lockCallsIn. simpl. rewrite app_nil_r.
  destruct ins as [call| | | | | | | |]; simpl;
    try (split; [done | by intros (call' & ?%elem_of_nil & _)]).
  destruct (isCallToLock deref (Common call));
    [|split; [done | by intros (call' & ?%elem_of_nil & _)]].
  destruct (getLockPrefix (Common call)) as [lockValue|] eqn:Hkey; simpl.
  - split; [done|]. intros (c & ->%list_elem_of_singleton & Hc). congruence.
  - split; [|done]. intros _. exists call. split; [by left | done].
Qed.

Lemma collectInstrs_None instrs :
  forall acc,
    foldM (collectInstr deref) acc instrs = None <->
      exists call, call ∈ lockCallsIn deref instrs
                   /\ getLockPrefix (Common call) = None.
Proof.
  induction instrs as [|ins rest IH]; intros acc; simpl.
  - split; [done | by intros (c & ?%elem_of_nil & _)].
  - rewrite lockCallsIn_cons.
    destruct (collectInstr deref acc ins) as [acc1|] eqn:Hins; simpl.
    + rewrite IH. split.
      * intros (c & Hc & Hk). exists c. split; [|done].
        apply elem_of_app. by right.
      * intros (c & [Hc|Hc]%elem_of_app & Hk); [|by exists c].
        assert (collectInstr deref acc ins = None) as Hnone
          by (apply collectInstr_None; by exists c).
        congruence.
    + split; [intros _ | done].
      apply collectInstr_None in Hins as (c & Hc & Hk).
      exists c. split; [|done]. apply elem_of_app. by left.
Qed.

Lemma collectBlocks_None blocks :
  forall acc,
    foldM (fun result bb => foldM (collectInstr deref) result (Instrs bb))
          acc blocks = None <->
      exists call,
        call ∈ flat_map (fun bb => lockCallsIn deref (Instrs bb)) blocks
        /\ getLockPrefix (Common call) = None.
Proof.
  induction blocks as [|bb rest IH]; intros acc; simpl.
  - split; [done | by intros (c & ?%elem_of_nil & _)].
  - destruct (foldM (collectInstr deref) acc (Instrs bb)) as [acc1|] eqn:Hbb;
      simpl.
    + rewrite IH. split.
      * intros (c & Hc & Hk). exists c. split; [|done].
        apply elem_of_app. by right.
      * intros (c & [Hc|Hc]%elem_of_app & Hk); [|by exists c].
        assert (foldM (collectInstr deref) acc (Instrs bb) = None) as Hnone
          by (apply collectInstrs_None; by exists c).
        congruence.
    + split; [intros _ | done].
      apply collectInstrs_None in Hbb as (c & Hc & Hk).
      exists c. split; [|done]. apply elem_of_app. by left.
Qed.

(** X5: the map that [collectLockInstrs] returns groups the lock calls of
    the function by lock key: the entry of a key is the list of the lock
    calls with that key, in the order of the blocks and of their
    instructions, and a key that no lock call has is not in the map. *)
Theorem collectLockInstrs_groups (fn : Function)
    (m : gmap string (list CallInstr)) (key : string) (l : list CallInstr) :
  collectLockInstrs deref fn = Some m ->
  m !! key = Some l <-> l <> [] /\ l = ofKey key (lockCalls deref fn).
Proof.
  intros Hm. rewrite (collectLockInstrs_grouped fn m Hm key).
  unfold groupEntry. destruct (ofKey key (lockCalls deref fn)) as [|c l'].
  - split; [done | by intros [? ->]].
  - split; [by intros [= <-] | by intros [_ ->]].
Qed.

(** X6: [collectLockInstrs] panics exactly when the function has a lock
    call on which [getLockPrefix] panics. *)
Theorem collectLockInstrs_panics (fn : Function) :
  collectLockInstrs deref fn = None <->
    exists call, call ∈ lockCalls deref fn
                 /\ getLockPrefix (Common call) = None.
Proof. apply collectBlocks_None. Qed.

End LockCollection.

(** ** The reports of [CheckDoubleLock] *)

Section DoubleLockReports.

Variable deref : FuncPtr -> Function.
Variable LockPathSearch :
  BBNode -> BBNode -> string -> (BBNode -> option bool) -> option (list BBNode).
Variable Loops : FuncPtr -> list (BlockRef -> bool).
Variable CallGraph : gmap FuncPtr (list Edge).

Lemma mergeLocks_lookup (entries : list (string * list CallInstr)) :
  forall acc key,
    NoDup entries.*1 ->
    mergeLocks acc entries !! key =
      match (list_to_map entries : gmap string (list CallInstr)) !! key with
      | Some v => Some (default [] (acc !! key) ++ v)
      | None => acc !! key
      end.
Proof.
  induction entries as [|[k1 v1] rest IH]; intros acc key Hnd.
  - simpl. by rewrite lookup_empty.
  - apply NoDup_cons in Hnd as [Hk1 Hnd]. unfold mergeLocks in *. simpl.
    rewrite IH by done.
    destruct (decide (k1 = key)) as [->|Hne].
    + rewrite (not_elem_of_list_to_map_1 rest key) by done.
      by rewrite !lookup_insert_eq.
    + by rewrite !lookup_insert_ne by done.
Qed.

Lemma mergeLocks_grouped acc calls (m : gmap string (list CallInstr)) calls' :
  grouped acc calls -> grouped m calls' ->
  grouped (mergeLocks acc (map_to_list m)) (calls ++ calls').
Proof.
  intros Hacc Hm key.
  rewrite mergeLocks_lookup by apply NoDup_fst_map_to_list.
  by rewrite list_to_map_to_list, Hacc, Hm, groupEntry_app.
Qed.

Lemma collectAll_grouped_from fns :
  forall acc calls m,
    grouped acc calls ->
    foldM (fun lockInstructions ssafn =>
             lockResultBB ← collectLockInstrs deref (deref ssafn);
             Some (mergeLocks lockInstructions (map_to_list lockResultBB)))
          acc fns = Some m ->
    grouped m (calls ++ programLockCalls deref fns).
Proof.
  induction fns as [|ssafn rest IH]; intros acc calls m Hacc; simpl.
  - intros [= <-]. by rewrite app_nil_r.
  - destruct (collectLockInstrs deref (deref ssafn)) as [lockResultBB|] eqn:Hfn;
      [|done]. simpl.
    intros Hrest. rewrite app_assoc. eapply IH; [|done].
    apply mergeLocks_grouped; [done|]. by apply collectLockInstrs_grouped.
Qed.

(** The map that the first loop of [CheckDoubleLock] builds groups the
    lock calls of the initial functions by key. *)
Lemma collectAll_grouped fns m :
  collectAll deref fns = Some m -> grouped m (programLockCalls deref fns).
Proof. intros Hm. apply (collectAll_grouped_from _ ∅ [] m grouped_empty Hm). Qed.

Lemma mapM_Some_elem {A B} (f : A -> option B) (l : list A) r x :
  mapM f l = Some r -> x ∈ l -> is_Some (f x).
Proof.
  intros Hr [n Hn]%list_elem_of_lookup. apply mapM_Some_1 in Hr.
  destruct (Forall2_lookup_l _ _ _ _ _ Hr Hn) as (y & _ & Hy). by exists y.
Qed.

Lemma concat_mapM_char {A B} (f : A -> option (list B)) (R : A -> B -> Prop)
    (l : list A) r :
  (forall x dsx, f x = Some dsx -> forall d, d ∈ dsx <-> R x d) ->
  (ds ← mapM f l; Some (concat ds)) = Some r ->
  forall d, d ∈ r <-> exists x, x ∈ l /\ R x d.
Proof.
  intros HR Hr d. rewrite (concat_mapM_Some f l r Hr d). split.
  - intros (x & ds0 & Hx & Hf & Hd). exists x. split; [done|].
    by apply (HR x ds0 Hf).
  - intros (x & Hx & Hd).
    destruct (mapM f l) as [dsl|] eqn:Hl; [|done].
    destruct (mapM_Some_elem f l dsl x Hl Hx) as [dsx Hf].
    exists x, dsx. split; [done|]. split; [done|]. by apply (HR x dsx Hf).
Qed.

Lemma checkPair_Some key f s dsp :
  checkPair deref LockPathSearch Loops CallGraph key f s = Some dsp ->
  forall d, d ∈ dsp <->
    pairReported deref LockPathSearch Loops CallGraph key f s d.
Proof.
  unfold checkPair, pairReported, againBoth, again.
  destruct (_isDoubleLock _ _ _ _ f s key) as [d1|]; [|done]. simpl.
  destruct (decide (iPtr f = iPtr s)) as [Heq|Hne]; simpl.
  - intros [= <-] d. rewrite app_nil_r. destruct d1.
    + rewrite list_elem_of_singleton. split; [by left|].
      by intros [[_ ->]|[? _]].
    + split; [by intros ?%elem_of_nil|]. by intros [[? _]|[? _]].
  - destruct (_isDoubleLock _ _ _ _ s f key) as [d2|]; [|done]. simpl.
    intros [= <-] d. rewrite elem_of_app.
    destruct d1, d2; rewrite ?list_elem_of_singleton, ?elem_of_nil;
      naive_solver.
Qed.

Lemma checkKey_Some key (l : list CallInstr) :
  forall ds,
    checkKey deref LockPathSearch Loops CallGraph key l = Some ds ->
    forall d, d ∈ ds <->
      exists i t f s,
        (i <= t)%nat /\ l !! i = Some f /\ l !! t = Some s
        /\ pairReported deref LockPathSearch Loops CallGraph key f s d.
Proof.
  induction l as [|f rest IH]; intros ds.
  - intros [= <-] d. split; [by intros ?%elem_of_nil|].
    by intros (i & t & f & s & _ & Hi & _).
  - cbn [checkKey].
    destruct (mapM _ (f :: rest)) as [dsl|] eqn:Hrow; [|done].
    destruct (checkKey _ _ _ _ key rest) as [ds'|] eqn:Hrest; [|done].
    intros [= <-] d. rewrite elem_of_app, (IH ds' eq_refl d).
    assert ((ds0 ← mapM (checkPair deref LockPathSearch Loops CallGraph key f)
                     (f :: rest); Some (concat ds0)) = Some (concat dsl))
      as Hrow' by (by rewrite Hrow).
    rewrite (concat_mapM_char _ _ _ _ (checkPair_Some key f) Hrow' d).
    split.
    + intros [(s & [t Ht]%list_elem_of_lookup & Hd)
             |(i & t & f' & s & Hit & Hi & Ht & Hd)].
      * exists 0%nat, t, f, s. split; [lia|]. by repeat split.
      * exists (S i), (S t), f', s. split; [lia|]. by repeat split.
    + intros (i & t & f' & s & Hit & Hi & Ht & Hd). destruct i as [|i].
      * left. injection Hi as <-. exists s. split; [|done].
        by eapply list_elem_of_lookup_2.
      * right. destruct t as [|t]; [lia|].
        exists i, t, f', s. split; [lia|]. by repeat split.
Qed.

(** The diagnostics of [CheckDoubleLock], pair by pair. *)
Lemma CheckDoubleLock_pairs (InitialFunctions : list FuncPtr)
    (m : gmap string (list CallInstr)) (order : list string)
    (ds : list Diagnostic) (d : Diagnostic) :
  collectAll deref InitialFunctions = Some m ->
  rangeOrder m order ->
  CheckDoubleLock deref LockPathSearch Loops CallGraph InitialFunctions order
  = Some ds ->
  d ∈ ds <->
    exists key i t f s,
      (i <= t)%nat
      /\ ofKey key (programLockCalls deref InitialFunctions) !! i = Some f
      /\ ofKey key (programLockCalls deref InitialFunctions) !! t = Some s
      /\ pairReported deref LockPathSearch Loops CallGraph key f s d.
Proof.
  intros Hm Horder. unfold CheckDoubleLock. rewrite Hm. cbn [mbind option_bind].
  intros Hds. pose proof (collectAll_grouped _ _ Hm) as Hgr.
  assert (forall key, default [] (m !! key)
                      = ofKey key (programLockCalls deref InitialFunctions))
    as Hlist by (intros key; by rewrite Hgr, groupEntry_default).
  rewrite (concat_mapM_char
             (fun lockKey =>
                checkKey deref LockPathSearch Loops CallGraph lockKey
                  (default [] (m !! lockKey)))
             (fun key d => exists i t f s,
                (i <= t)%nat
                /\ ofKey key (programLockCalls deref InitialFunctions) !! i = Some f
                /\ ofKey key (programLockCalls deref InitialFunctions) !! t = Some s
                /\ pairReported deref LockPathSearch Loops CallGraph key f s d)
             order ds); [|
    intros key dsk Hk d'; rewrite Hlist in Hk;
    apply (checkKey_Some key _ dsk Hk d') | exact Hds].
  split.
  - intros (key & _ & H). by exists key.
  - intros (key & i & t & f & s & Hit & Hi & Ht & Hd). exists key.
    split; [|by exists i, t, f, s].
    unfold rangeOrder in Horder. rewrite Horder.
    apply list_elem_of_fmap.
    exists (key, ofKey key (programLockCalls deref InitialFunctions)).
    split; [done|]. apply elem_of_map_to_list. rewrite Hgr. unfold groupEntry.
    destruct (ofKey key (programLockCalls deref InitialFunctions)); [done|done].
Qed.

(** X7: when [CheckDoubleLock] returns, its diagnostics are exactly those
    of the pairs of lock calls [f], [s] of the initial functions that have
    the same lock key, [f] not after [s] in the order in which the calls
    are collected: the first message, on [f], when [_isDoubleLock f s] is
    true, the second, on [s], when the two are different instructions and
    [_isDoubleLock s f] is true. *)
Theorem CheckDoubleLock_reports (InitialFunctions : list FuncPtr)
    (m : gmap string (list CallInstr)) (order : list string)
    (ds : list Diagnostic) (d : Diagnostic) :
  collectAll deref InitialFunctions = Some m ->
  rangeOrder m order ->
  CheckDoubleLock deref LockPathSearch Loops CallGraph InitialFunctions order
  = Some ds ->
  d ∈ ds <->
    exists key i t f s,
      (i <= t)%nat
      /\ ofKey key (programLockCalls deref InitialFunctions) !! i = Some f
      /\ ofKey key (programLockCalls deref InitialFunctions) !! t = Some s
      /\ pairReported deref LockPathSearch Loops CallGraph key f s d.
Proof. apply CheckDoubleLock_pairs. Qed.

End DoubleLockReports.

Lemma collectLockInstrs_groups_witness :
  let m : gmap string (list CallInstr) :=
    list_to_map [("a", [lockOn 100 "a"; lockOn 101 "a"]);
                 ("b", [lockOn 102 "b"; lockOn 103 "b"])] in
  collectLockInstrs twoKeysHeap (twoKeysHeap 0%nat) = Some m
  /\ (m !! "a" = Some [lockOn 100 "a"; lockOn 101 "a"] <->
      [lockOn 100 "a"; lockOn 101 "a"] <> []
      /\ [lockOn 100 "a"; lockOn 101 "a"]
         = ofKey "a" (lockCalls twoKeysHeap (twoKeysHeap 0%nat))).
Proof.
  split; [by vm_compute|].
  apply (collectLockInstrs_groups twoKeysHeap (twoKeysHeap 0%nat)).
  by vm_compute.
Defined.

Lemma CheckDoubleLock_reports_witness :
  let m : gmap string (list CallInstr) :=
    list_to_map [("a", [lockOn 100 "a"; lockOn 101 "a"]);
                 ("b", [lockOn 102 "b"; lockOn 103 "b"])] in
  let ds := [mkDiagnostic 100 (AcquiringAgainBoth "Lock" 101 100);
             mkDiagnostic 102 (AcquiringAgainBoth "Lock" 103 102)] in
  collectAll twoKeysHeap [0%nat] = Some m
  /\ rangeOrder m ["a"; "b"]
  /\ CheckDoubleLock twoKeysHeap noSearch noLoops ∅ [0%nat] ["a"; "b"] = Some ds
  /\ forall d, d ∈ ds <->
       exists key i t f s,
         (i <= t)%nat
         /\ ofKey key (programLockCalls twoKeysHeap [0%nat]) !! i = Some f
         /\ ofKey key (programLockCalls twoKeysHeap [0%nat]) !! t = Some s
         /\ pairReported twoKeysHeap noSearch noLoops ∅ key f s d.
Proof.
  assert (collectAll twoKeysHeap [0%nat]
          = Some (list_to_map [("a", [lockOn 100 "a"; lockOn 101 "a"]);
                               ("b", [lockOn 102 "b"; lockOn 103 "b"])]))
    as Hm by (by vm_compute).
  assert (rangeOrder
            (list_to_map [("a", [lockOn 100 "a"; lockOn 101 "a"]);
                          ("b", [lockOn 102 "b"; lockOn 103 "b"])])
            ["a"; "b"]) as Horder.
  { unfold rangeOrder. vm_compute. reflexivity. }
  split; [exact Hm|]. split; [exact Horder|]. split; [by vm_compute|].
  intros d.
  apply (CheckDoubleLock_reports twoKeysHeap noSearch noLoops ∅ [0%nat]
           _ ["a"; "b"] _ d Hm Horder).
  by vm_compute.
Defined.

(** ** The double-lock decision on a pair of lock calls *)

Section PairDecision.

Variable deref : FuncPtr -> Function.
Variable LockPathSearch :
  BBNode -> BBNode -> string -> (BBNode -> option bool) -> option (list BBNode).
Variable Loops : FuncPtr -> list (BlockRef -> bool).
Variable CallGraph : gmap FuncPtr (list Edge).

(** When [isUnlockBeforeLock] fails on a block that has a lock call of the
    key at index [j], the block has an unlock call of the key at [j] or
    after it. *)
Lemma isUnlockBeforeLock_false_unlock (sNode : BBNode) (key : string) j :
  isUnlockBeforeLock deref sNode key = Some false ->
  lockAt deref (blockInstrs deref (BB sNode)) key j ->
  exists m, (j <= m)%nat /\ unlockAt deref (blockInstrs deref (BB sNode)) key m.
Proof.
  unfold isUnlockBeforeLock. intros Hb Hj.
  destruct (unlockBeforeLockLoop_sound deref key (blockInstrs deref (BB sNode))
              _ [] (-1) (-1) false eq_refl (isLast_zero _) (isLast_zero _) Hb)
    as (L' & U' & HL & HU & Hcmp).
  assert (j < length (blockInstrs deref (BB sNode)))%nat as Hlt.
  { destruct Hj as (call & Hc & _). by apply lookup_lt_Some in Hc. }
  destruct (Z.ltb_spec U' L') as [|Hge]; [done|].
  destruct HL as [[-> Hno]|(k & -> & Hk & HPk & Hno)].
  { by destruct (Hno j). }
  assert (j <= k)%nat.
  { destruct (decide (j <= k)%nat); [done|]. destruct (Hno j); [lia | done]. }
  destruct HU as [[-> _]|(k' & -> & _ & HPk' & _)]; [lia|].
  exists k'. split; [lia | done].
Qed.

Lemma neededSearchLoop_is_Some key instrs :
  keysDefined instrs ->
  forall b0, is_Some (neededSearchLoop deref key instrs b0).
Proof.
  induction instrs as [|ins rest IH]; intros Hdef b0; [by eexists|].
  pose proof (IH (keysDefined_cons _ _ Hdef)) as IH'.
  destruct ins; try apply IH'. simpl.
  destruct (isUnlockOf_defined deref c key (keysDefined_head _ _ Hdef))
    as (u & -> & _).
  simpl. apply IH'.
Qed.

(** X8: for two calls of one block, the first a lock call of the key at
    index [i] and the second at index [j], with the same short name,
    [_isDoubleLock] returns true exactly when [i < j] and no unlock call
    of the key is at an index after [i] and up to [j]: the loops of the
    function, the path search over the blocks and the call graph change
    nothing for such a pair. *)
Theorem isDoubleLock_same_block (fInstr sInstr : CallInstr) (i j : nat)
    (key : string) :
  blockInstrs deref (Block fInstr) !! i = Some (Call fInstr) ->
  blockInstrs deref (Block fInstr) !! j = Some (Call sInstr) ->
  Block sInstr = Block fInstr ->
  distinctCalls (blockInstrs deref (Block fInstr)) ->
  keysDefined (blockInstrs deref (Block fInstr)) ->
  isCallToLock deref (Common fInstr) = true ->
  getLockPrefix (Common fInstr) = Some key ->
  shortCallName deref (Common fInstr) = shortCallName deref (Common sInstr) ->
  _isDoubleLock deref LockPathSearch Loops CallGraph fInstr sInstr key = Some true
  <-> (i < j)%nat
      /\ forall m, (i < m <= j)%nat ->
           ~ unlockAt deref (blockInstrs deref (Block fInstr)) key m.
Proof.
  intros Hf Hs Hblock Hdistinct Hdef Hlock Hkey Hname.
  destruct (lockToLockLoop_defined deref fInstr sInstr key Hkey _ Hdef 0 (-1) (-1))
    as [b Hb].
  pose proof (lockToLockLoop_sound deref fInstr sInstr _ i j key Hf Hs Hdistinct
                Hkey _ [] b eq_refl Hb) as Hiff.
  assert (b = true <-> (i < j)%nat /\ forall m, (i < m <= j)%nat ->
            ~ unlockAt deref (blockInstrs deref (Block fInstr)) key m) as Hiff'.
  { rewrite Hiff. split; intros [? Hall]; (split; [done|]); intros m.
    - intros ?. apply Hall; simpl; lia.
    - intros _ ?. by apply Hall. }
  rewrite <- Hiff'. clear Hiff Hiff'.
  fold (isLockToLockInSameBlock deref fInstr sInstr) in Hb.
  unfold _isDoubleLock. rewrite Hname, String.eqb_refl. simpl.
  destruct (decide (Block fInstr = Block sInstr)) as [_|Hne]; [|congruence].
  rewrite Hb. simpl. destruct b; simpl; [done|].
  assert (Parent sInstr = Parent fInstr) as -> by (unfold Parent; by rewrite Hblock).
  rewrite PathSearchIgnoreGoCall_self. rewrite Hblock.
  split; [|done]. intros Htrue. exfalso.
  destruct (isInLoop Loops (Block fInstr)); simpl in Htrue; [|done].
  destruct (findPath _ _ _ _ key) as [[|]|] eqn:Hpath; simpl in Htrue; try done.
  apply (findPath_self_with_lock deref LockPathSearch _ key i) in Hpath; [done|].
  simpl. by exists fInstr.
Qed.

(** X9: when [_isDoubleLock] returns true for a first call and a lock
    call of the key that is at index [j] of another block, that block has
    an unlock call of the key at [j] or after it: a second lock that its
    own block does not release by a call is never reported from another
    block, in the same function or across functions. *)
Theorem isDoubleLock_other_block (fInstr sInstr : CallInstr) (j : nat)
    (key : string) :
  Block fInstr <> Block sInstr ->
  blockInstrs deref (Block sInstr) !! j = Some (Call sInstr) ->
  isCallToLock deref (Common sInstr) = true ->
  getLockPrefix (Common sInstr) = Some key ->
  _isDoubleLock deref LockPathSearch Loops CallGraph fInstr sInstr key = Some true ->
  exists m, (j <= m)%nat
            /\ unlockAt deref (blockInstrs deref (Block sInstr)) key m.
Proof.
  intros Hne Hs Hlock Hkey.
  assert (lockAt deref (blockInstrs deref (Block sInstr)) key j) as Hat
    by (by exists sInstr).
  unfold _isDoubleLock.
  destruct (negb _); [done|].
  destruct (decide (Block fInstr = Block sInstr)) as [|_]; [done|].
  destruct (decide (Parent fInstr = Parent sInstr)) as [Heq|Hfn].
  - rewrite <- Heq. rewrite PathSearchIgnoreGoCall_self.
    destruct (findPath _ _ _ _ key) as [[|]|] eqn:Hpath; simpl; try done.
    intros _. apply findPath_true_iff in Hpath as (_ & Hub & _).
    by apply (isUnlockBeforeLock_false_unlock _ key j) in Hub.
  - simpl. destruct (0 <? _); [|done].
    destruct (isUnlockBeforeLock deref _ key) as [[|]|] eqn:Hub; simpl; try done.
    intros _. by apply (isUnlockBeforeLock_false_unlock _ key j) in Hub.
Qed.

(** X10: for two calls with the same short name in different blocks of
    one function, whose calls all have a key, [_isDoubleLock] returns true
    exactly when the block of the first has no unlock call of the key, in
    the block of the second no lock call of the key comes after every
    unlock call of the key, and [LockPathSearch] finds a path from the
    first block to the second; the call graph is not used. *)
Theorem isDoubleLock_same_function (fInstr sInstr : CallInstr) (key : string) :
  Parent fInstr = Parent sInstr ->
  Block fInstr <> Block sInstr ->
  shortCallName deref (Common fInstr) = shortCallName deref (Common sInstr) ->
  keysDefined (blockInstrs deref (Block fInstr)) ->
  keysDefined (blockInstrs deref (Block sInstr)) ->
  _isDoubleLock deref LockPathSearch Loops CallGraph fInstr sInstr key = Some true
  <-> (forall m, ~ unlockAt deref (blockInstrs deref (Block fInstr)) key m)
      /\ ~ (exists i, lockAt deref (blockInstrs deref (Block sInstr)) key i
              /\ forall m, unlockAt deref (blockInstrs deref (Block sInstr)) key m ->
                   (m < i)%nat)
      /\ exists result,
           LockPathSearch
             (CreateBBNode (BBCallGraph (Parent fInstr)) (Block fInstr))
             (CreateBBNode (BBCallGraph (Parent fInstr)) (Block sInstr))
             key (prune deref key) = Some result
           /\ result <> [].
Proof.
  intros Hfn Hne Hname Hdeff Hdefs.
  assert (_isDoubleLock deref LockPathSearch Loops CallGraph fInstr sInstr key
          = Some true
          <-> findPath deref LockPathSearch
                (CreateBBNode (BBCallGraph (Parent fInstr)) (Block fInstr))
                (CreateBBNode (BBCallGraph (Parent fInstr)) (Block sInstr)) key
              = Some true) as ->.
  { unfold _isDoubleLock. rewrite Hname, String.eqb_refl. simpl.
    destruct (decide (Block fInstr = Block sInstr)) as [|_]; [done|].
    destruct (decide (Parent fInstr = Parent sInstr)) as [_|]; [|done].
    rewrite <- Hfn, PathSearchIgnoreGoCall_self.
    by destruct (findPath _ _ _ _ key) as [[|]|]. }
  rewrite findPath_true_iff. simpl.
  destruct (neededSearchLoop_is_Some key _ Hdeff true) as [needed Hneeded].
  destruct (unlockBeforeLockLoop_defined deref key _ Hdefs 0 (-1) (-1)) as [ub Hub0].
  assert (isUnlockBeforeLock deref
            (CreateBBNode (BBCallGraph (Parent fInstr)) (Block sInstr)) key
          = Some ub) as Hub by exact Hub0.
  pose proof (neededSearchLoop_true deref key _ true needed Hneeded) as Hn.
  pose proof (isUnlockBeforeLock_true_iff deref _ key ub Hub) as Hu.
  simpl in Hu. rewrite Hneeded, Hub. split.
  - intros ([= ->] & [= ->] & Hres). split; [by apply Hn|]. split; [|done].
    intros H. by apply Hu in H.
  - intros (Hno & Hnolock & Hres). split; [f_equal; by apply Hn|].
    split; [|done]. f_equal. destruct ub; [|done].
    destruct Hnolock. by apply Hu.
Qed.

Lemma unlockAt_S ins rest key m :
  unlockAt deref (ins :: rest) key (S m) <-> unlockAt deref rest key m.
Proof. done. Qed.

Lemma lockAt_S ins rest key m :
  lockAt deref (ins :: rest) key (S m) <-> lockAt deref rest key m.
Proof. done. Qed.

Lemma pruneLoop_false key instrs :
  forall b, pruneLoop deref key instrs = Some b ->
  b = false <->
    exists i, unlockAt deref instrs key i
      /\ forall m, (m < i)%nat ->
           ~ unlockAt deref instrs key m /\ ~ lockAt deref instrs key m.
Proof.
  induction instrs as [|ins rest IH]; intros b.
  - intros [= <-]. split; [done|]. by intros (i & (call & Hi & _) & _).
  - assert ((forall b, pruneLoop deref key rest = Some b ->
               ~ unlockAt deref (ins :: rest) key 0 ->
               ~ lockAt deref (ins :: rest) key 0 ->
               b = false <->
                 exists i, unlockAt deref (ins :: rest) key i
                   /\ forall m, (m < i)%nat ->
                        ~ unlockAt deref (ins :: rest) key m
                        /\ ~ lockAt deref (ins :: rest) key m)) as Hskip.
    { intros b' Hb' Hu0 Hl0. rewrite (IH b' Hb'). split.
      - intros (i & Hi & Hbefore). exists (S i). split; [done|].
        intros [|m] Hm; [done|]. rewrite unlockAt_S, lockAt_S. apply Hbefore. lia.
      - intros (i & Hi & Hbefore). destruct i as [|i]; [done|].
        exists i. split; [done|]. intros m Hm.
        rewrite <- (unlockAt_S ins), <- (lockAt_S ins). apply Hbefore. lia. }
    destruct ins as [call| | | | | | | |];
      try (intros Hb; apply (Hskip b Hb); by intros (call & [=] & _)).
    simpl.
    destruct (isUnlockOf deref call (Some key)) as [u|] eqn:Eu; [|done].
    apply isUnlockOf_Some in Eu as Hu. simpl. destruct u.
    + intros [= <-]. split; [intros _ | done]. exists 0%nat. split; [|lia].
      exists call. by destruct Hu as [[? ?] _].
    + assert (~ unlockAt deref (Call call :: rest) key 0) as Hu0.
      { intros (call' & [= <-] & H1 & H2). by destruct Hu as [_ Hu]; discriminate Hu. }
      destruct (isLockOf deref call (Some key)) as [l|] eqn:El; [|done].
      apply isLockOf_Some in El as Hl. simpl. destruct l.
      * intros [= <-]. split; [done|]. intros (i & Hi & Hbefore). exfalso.
        destruct i as [|i]; [done|].
        destruct (Hbefore 0%nat ltac:(lia)) as [_ Hno]. apply Hno.
        exists call. by destruct Hl as [[? ?] _].
      * intros Hb. apply (Hskip b Hb Hu0).
        intros (call' & [= <-] & H1 & H2). by destruct Hl as [_ Hl]; discriminate Hl.
Qed.

(** X11: the callback that [findPath] hands to the path search, when it
    returns, rejects a block (returns false) exactly when the first call
    of the block that is a lock or an unlock of the key is an unlock: an
    unlock call of the key with no lock call and no unlock call of the key
    before it. *)
Theorem prune_rejects (key : string) (node : BBNode) (b : bool) :
  prune deref key node = Some b ->
  b = false <->
    exists i, unlockAt deref (blockInstrs deref (BB node)) key i
      /\ forall m, (m < i)%nat ->
           ~ unlockAt deref (blockInstrs deref (BB node)) key m
           /\ ~ lockAt deref (blockInstrs deref (BB node)) key m.
Proof. apply pruneLoop_false. Qed.

End PairDecision.

(** The calls of a block given by its list of instructions have a key. *)
Ltac solve_keysDefined :=
  let call := fresh "call" in
  let Hin := fresh "Hin" in
  intros call Hin;
  repeat (apply elem_of_cons in Hin as [[= ->]|Hin]; [by eexists|]);
  by apply elem_of_nil in Hin.

Lemma isDoubleLock_same_block_witness :
  _isDoubleLock twoKeysHeap noSearch noLoops ∅ (lockOn 100 "a") (lockOn 101 "a") "a"
  = Some true
  <-> (0 < 1)%nat
      /\ forall m, (0 < m <= 1)%nat ->
           ~ unlockAt twoKeysHeap
               (blockInstrs twoKeysHeap (Block (lockOn 100 "a"))) "a" m.
Proof.
  apply (isDoubleLock_same_block twoKeysHeap noSearch noLoops ∅
           (lockOn 100 "a") (lockOn 101 "a") 0 1 "a").
  - reflexivity.
  - reflexivity.
  - reflexivity.
  - intros m n c1 c2 Hm Hn Hp.
    destruct m as [|[|[|[|m]]]], n as [|[|[|[|n]]]]; simpl in Hm, Hn; try done;
      injection Hm as <-; injection Hn as <-; simpl in Hp; lia.
  - solve_keysDefined.
  - reflexivity.
  - reflexivity.
  - reflexivity.
Defined.

Lemma isDoubleLock_other_block_witness :
  _isDoubleLock branchHeap foundSearch noLoops ∅
    (lockAtBlock 500 0) (lockAtBlock 501 1) "t0" = Some true
  /\ exists m, (0 <= m)%nat
       /\ unlockAt branchHeap
            (blockInstrs branchHeap (Block (lockAtBlock 501 1))) "t0" m.
Proof.
  assert (_isDoubleLock branchHeap foundSearch noLoops ∅
            (lockAtBlock 500 0) (lockAtBlock 501 1) "t0" = Some true) as Htrue
    by (by vm_compute).
  split; [exact Htrue|].
  apply (isDoubleLock_other_block branchHeap foundSearch noLoops ∅
           (lockAtBlock 500 0) (lockAtBlock 501 1) 0 "t0");
    [by intros [=] | reflexivity | reflexivity | reflexivity | exact Htrue].
Defined.

Lemma isDoubleLock_same_function_witness :
  _isDoubleLock branchHeap foundSearch noLoops ∅
    (lockAtBlock 500 0) (lockAtBlock 501 1) "t0" = Some true
  <-> (forall m, ~ unlockAt branchHeap
                    (blockInstrs branchHeap (Block (lockAtBlock 500 0))) "t0" m)
      /\ ~ (exists i,
              lockAt branchHeap
                (blockInstrs branchHeap (Block (lockAtBlock 501 1))) "t0" i
              /\ forall m,
                   unlockAt branchHeap
                     (blockInstrs branchHeap (Block (lockAtBlock 501 1))) "t0" m ->
                   (m < i)%nat)
      /\ exists result,
           foundSearch
             (CreateBBNode (BBCallGraph (Parent (lockAtBlock 500 0)))
                (Block (lockAtBlock 500 0)))
             (CreateBBNode (BBCallGraph (Parent (lockAtBlock 500 0)))
                (Block (lockAtBlock 501 1)))
             "t0" (prune branchHeap "t0") = Some result
           /\ result <> [].
Proof.
  apply (isDoubleLock_same_function branchHeap foundSearch noLoops ∅
           (lockAtBlock 500 0) (lockAtBlock 501 1) "t0").
  - reflexivity.
  - by intros [=].
  - reflexivity.
  - solve_keysDefined.
  - solve_keysDefined.
Defined.

Lemma prune_rejects_witness :
  prune branchHeap "t0" (mkBBNode 0 (mkBlockRef 0 2)) = Some false
  /\ (false = false <->
      exists i,
        unlockAt branchHeap
          (blockInstrs branchHeap (BB (mkBBNode 0 (mkBlockRef 0 2)))) "t0" i
        /\ forall m, (m < i)%nat ->
             ~ unlockAt branchHeap
                 (blockInstrs branchHeap (BB (mkBBNode 0 (mkBlockRef 0 2)))) "t0" m
             /\ ~ lockAt branchHeap
                    (blockInstrs branchHeap (BB (mkBBNode 0 (mkBlockRef 0 2))))
                    "t0" m).
Proof.
  split; [reflexivity|].
  apply (prune_rejects branchHeap "t0" (mkBBNode 0 (mkBlockRef 0 2)) false).
  reflexivity.
Defined.

(** The callback accepts a block whose first call of the key is a lock. *)
Example prune_accepts_lock :
  prune branchHeap "t0" (mkBBNode 0 (mkBlockRef 0 1)) = Some true.
Proof. reflexivity. Qed.

(** ** Double locks within a block are reported *)

Section SameBlockReports.

Variable deref : FuncPtr -> Function.
Variable LockPathSearch :
  BBNode -> BBNode -> string -> (BBNode -> option bool) -> option (list BBNode).
Variable Loops : FuncPtr -> list (BlockRef -> bool).
Variable CallGraph : gmap FuncPtr (list Edge).

Lemma occursBefore_lookup {A} (x y : A) (l : list A) :
  occursBefore x y l <->
    exists i t, (i < t)%nat /\ l !! i = Some x /\ l !! t = Some y.
Proof.
  split.
  - intros (l1 & l2 & l3 & ->).
    exists (length l1), (length l1 + S (length l2))%nat. split; [lia|].
    split; [by rewrite list_lookup_middle|].
    rewrite lookup_app_r by lia.
    replace (length l1 + S (length l2) - length l1)%nat
      with (S (length l2)) by lia.
    simpl. by rewrite list_lookup_middle.
  - intros (i & t & Hit & Hi & Ht).
    exists (take i l), (take (t - S i) (drop (S i) l)),
      (drop (S (t - S i)) (drop (S i) l)).
    rewrite take_drop_middle.
    + by rewrite take_drop_middle.
    + rewrite lookup_drop. by replace (S i + (t - S i))%nat with t by lia.
Qed.

Lemma occursBefore_flat_map {A B} (g : A -> list B) (a : A) (l : list A) x y :
  a ∈ l -> occursBefore x y (g a) -> occursBefore x y (flat_map g l).
Proof.
  intros (la & lb & ->)%list_elem_of_split (l1 & l2 & l3 & Hg).
  exists (flat_map g la ++ l1), l2, (l3 ++ flat_map g lb).
  rewrite flat_map_app. simpl. rewrite Hg.
  by rewrite <- !app_assoc, <- !app_comm_cons, <- !app_assoc.
Qed.

Lemma occursBefore_filter {A} (P : A -> Prop) `{forall x, Decision (P x)}
    (x y : A) (l : list A) :
  P x -> P y -> occursBefore x y l -> occursBefore x y (filter P l).
Proof.
  intros Hx Hy (l1 & l2 & l3 & ->).
  exists (filter P l1), (filter P l2), (filter P l3).
  rewrite filter_app, filter_cons_True by done.
  by rewrite filter_app, filter_cons_True by done.
Qed.

Lemma occursBefore_lockCallsIn (instrs : list Instruction) i j f s :
  instrs !! i = Some (Call f) -> instrs !! j = Some (Call s) -> (i < j)%nat ->
  isCallToLock deref (Common f) = true ->
  isCallToLock deref (Common s) = true ->
  occursBefore f s (lockCallsIn deref instrs).
Proof.
  intros Hi Hj Hij Hf Hs.
  assert (occursBefore (Call f) (Call s) instrs) as (l1 & l2 & l3 & ->)
    by (apply occursBefore_lookup; by exists i, j).
  exists (lockCallsIn deref l1), (lockCallsIn deref l2), (lockCallsIn deref l3).
  unfold lockCallsIn. rewrite flat_map_app. simpl. rewrite Hf. simpl.
  rewrite flat_map_app. simpl. by rewrite Hs.
Qed.

(** The same-block test decides for a pair of one block. *)
Lemma isDoubleLock_of_same_block (fInstr sInstr : CallInstr) (key : string) :
  Block fInstr = Block sInstr ->
  shortCallName deref (Common fInstr) = shortCallName deref (Common sInstr) ->
  isLockToLockInSameBlock deref fInstr sInstr = Some true ->
  _isDoubleLock deref LockPathSearch Loops CallGraph fInstr sInstr key = Some true.
Proof.
  intros Hblock Hname Hsame. unfold _isDoubleLock.
  rewrite Hname, String.eqb_refl. simpl.
  destruct (decide (Block fInstr = Block sInstr)) as [_|]; [|done].
  by rewrite Hsame.
Qed.

(** X12: a double lock within a block is reported.  When two lock calls
    of the same key and the same short name stand at the indices [i < j] of
    a block of an initial function, with no unlock call of the key at an
    index after [i] and up to [j], then [CheckDoubleLock], when it returns,
    reports the first of them with the message that names both. *)
Theorem CheckDoubleLock_same_block (InitialFunctions : list FuncPtr)
    (m : gmap string (list CallInstr)) (order : list string)
    (ds : list Diagnostic)
    (ssafn : FuncPtr) (bi : nat) (bb : BasicBlock)
    (fInstr sInstr : CallInstr) (i j : nat) (key : string) :
  collectAll deref InitialFunctions = Some m ->
  rangeOrder m order ->
  CheckDoubleLock deref LockPathSearch Loops CallGraph InitialFunctions order
  = Some ds ->
  ssafn ∈ InitialFunctions ->
  Blocks (deref ssafn) !! bi = Some bb ->
  Block fInstr = mkBlockRef ssafn bi ->
  Block sInstr = mkBlockRef ssafn bi ->
  Instrs bb !! i = Some (Call fInstr) ->
  Instrs bb !! j = Some (Call sInstr) ->
  distinctCalls (Instrs bb) ->
  keysDefined (Instrs bb) ->
  isCallToLock deref (Common fInstr) = true ->
  isCallToLock deref (Common sInstr) = true ->
  getLockPrefix (Common fInstr) = Some key ->
  getLockPrefix (Common sInstr) = Some key ->
  shortCallName deref (Common fInstr) = shortCallName deref (Common sInstr) ->
  (i < j)%nat ->
  (forall n, (i < n <= j)%nat -> ~ unlockAt deref (Instrs bb) key n) ->
  againBoth deref fInstr sInstr ∈ ds.
Proof.
  intros Hm Horder Hds Hfn Hbb Hbf Hbs Hi Hj Hdistinct Hdef Hlf Hls Hkf Hks
    Hname Hij Hno.
  assert (blockInstrs deref (Block fInstr) = Instrs bb) as Hinstrs
    by (unfold blockInstrs; rewrite Hbf; simpl; by rewrite Hbb).
  apply (CheckDoubleLock_pairs deref LockPathSearch Loops CallGraph
           InitialFunctions m order ds _ Hm Horder Hds).
  assert (occursBefore fInstr sInstr
            (ofKey key (programLockCalls deref InitialFunctions))) as Hbefore.
  { apply occursBefore_filter; [done | done |].
    apply (occursBefore_flat_map _ ssafn); [done|].
    apply (occursBefore_flat_map _ bb); [by eapply list_elem_of_lookup_2|].
    by apply (occursBefore_lockCallsIn _ i j). }
  apply occursBefore_lookup in Hbefore as (i' & t' & Hit & Hi' & Ht').
  exists key, i', t', fInstr, sInstr. split; [lia|]. split; [done|].
  split; [done|]. left. split; [|done].
  apply isDoubleLock_of_same_block; [congruence | done |].
  rewrite <- Hinstrs in Hi, Hj, Hdistinct, Hdef, Hno.
  destruct (lockToLockLoop_defined deref fInstr sInstr key Hkf _ Hdef 0 (-1) (-1))
    as [b Hb].
  pose proof (lockToLockLoop_sound deref fInstr sInstr _ i j key Hi Hj Hdistinct
                Hkf _ [] b eq_refl Hb) as Hiff.
  unfold isLockToLockInSameBlock. rewrite Hb. f_equal. apply Hiff.
  split; [done|]. intros n _ Hn. by apply Hno.
Qed.

End SameBlockReports.

Lemma CheckDoubleLock_same_block_witness :
  mkDiagnostic 100 (AcquiringAgainBoth "Lock" 101 100)
  ∈ [mkDiagnostic 100 (AcquiringAgainBoth "Lock" 101 100);
     mkDiagnostic 102 (AcquiringAgainBoth "Lock" 103 102)].
Proof.
  assert (collectAll twoKeysHeap [0%nat]
          = Some (list_to_map [("a", [lockOn 100 "a"; lockOn 101 "a"]);
                               ("b", [lockOn 102 "b"; lockOn 103 "b"])]))
    as Hm by (by vm_compute).
  assert (rangeOrder
            (list_to_map [("a", [lockOn 100 "a"; lockOn 101 "a"]);
                          ("b", [lockOn 102 "b"; lockOn 103 "b"])])
            ["a"; "b"]) as Horder.
  { unfold rangeOrder. vm_compute. reflexivity. }
  apply (CheckDoubleLock_same_block twoKeysHeap noSearch noLoops ∅ [0%nat]
           _ ["a"; "b"] _ 0%nat 0%nat
           (mkBasicBlock [Call (lockOn 100 "a"); Call (lockOn 101 "a");
                          Call (lockOn 102 "b"); Call (lockOn 103 "b")] [] [])
           (lockOn 100 "a") (lockOn 101 "a") 0 1 "a" Hm Horder).
  - by vm_compute.
  - by left.
  - reflexivity.
  - reflexivity.
  - reflexivity.
  - reflexivity.
  - reflexivity.
  - intros m n c1 c2 Hm' Hn Hp.
    destruct m as [|[|[|[|m]]]], n as [|[|[|[|n]]]]; simpl in Hm', Hn; try done;
      injection Hm' as <-; injection Hn as <-; simpl in Hp; lia.
  - solve_keysDefined.
  - reflexivity.
  - reflexivity.
  - reflexivity.
  - reflexivity.
  - reflexivity.
  - lia.
  - intros n Hn (call & Hc & Hu & _). assert (n = 1%nat) as -> by lia.
    simpl in Hc. injection Hc as <-. by vm_compute in Hu.
Defined.

(** ** What the [time.Tick] rewrite changes *)

Section TickRewriteScope.

Variable deref : FuncPtr -> Function.

Lemma tickBranch_no_tick (b : BasicBlock) (instrs : list nat) (i : nat) :
  (forall ins, ins ∈ Instrs b -> ~ receivesFromTick deref ins) ->
  tickBranch deref b instrs i = Some None.
Proof.
  intros Hno. unfold tickBranch.
  destruct (instrs !! i) as [s0|]; simpl; [|done].
  destruct (Instrs b !! s0) as [ins0|] eqn:Hins0; [|done].
  destruct ins0 as [| | |unop Op X| | | | |]; try done.
  destruct Op; try done. destruct X as [call|]; [|done].
  destruct (IsCallTo deref (Common call) "time.Tick") eqn:Htick; [|done].
  destruct (Hno _ (list_elem_of_lookup_2 _ _ _ Hins0)). by exists unop, call.
Qed.

(** X13: a function none of whose instructions receives from the channel
    of a call to [time.Tick] is left as it is: the rewrite returns and
    changes no block. *)
Theorem applyStdlibKnowledge_no_tick (fn : Function) :
  (forall b ins, b ∈ Blocks fn -> ins ∈ Instrs b ->
     ~ receivesFromTick deref ins) ->
  applyStdlibKnowledge deref fn = Some fn.
Proof.
  intros Hno. unfold applyStdlibKnowledge.
  destruct (length (Blocks fn) =? 0)%nat; [done|].
  rewrite (foldM_id (applyBlock deref) (Blocks fn)); [by destruct fn|].
  intros bi _. apply applyBlock_stable. intros b Hb. right; right. intros i.
  apply tickBranch_no_tick. intros ins Hins.
  apply (Hno b ins); [by eapply list_elem_of_lookup_2 | done].
Qed.

Lemma tickBranch_found (b : BasicBlock) (instrs : list nat) (i s2 : nat) :
  tickBranch deref b instrs i = Some (Some s2) -> tickBranchAt deref b s2.
Proof.
  unfold tickBranch.
  destruct (instrs !! i) as [s0|]; simpl; [|done].
  destruct (Instrs b !! s0) as [ins0|] eqn:Hins0; [|done].
  destruct ins0 as [| | |unop Op X| | | | |]; try done.
  destruct Op; try done. destruct X as [call|]; [|done].
  destruct (IsCallTo deref (Common call) "time.Tick") eqn:Htick; [|done]. simpl.
  destruct (instrs !! (i + 1)%nat) as [s1|]; simpl; [|done].
  destruct (Instrs b !! s1) as [ins1|] eqn:Hins1; [|done].
  destruct ins1 as [| | | |ex Tuple Index| | | |]; try done.
  destruct (bool_decide_reflect (Tuple = unop)) as [->|]; simpl; [|done].
  destruct (Z.eqb_spec Index 1) as [->|]; simpl; [|done].
  destruct (instrs !! (i + 2)%nat) as [s2'|]; simpl; [|done].
  destruct (Instrs b !! s2') as [ins2|] eqn:Hins2; [|done].
  destruct ins2 as [| | | | |pif Cond'| | |]; try done.
  destruct (bool_decide_reflect (Cond' = ex)) as [->|]; simpl; [|done].
  intros [= <-]. exists pif, unop, call, ex.
  split; [done|]. split; [by eapply list_elem_of_lookup_2|].
  split; [by eapply list_elem_of_lookup_2 | done].
Qed.

Lemma rewrittenFrom_refl (b : BasicBlock) : rewrittenFrom deref b b.
Proof.
  split; [done|]. split; [|by split; [left|]].
  intros s ins ins' H1 H2. left. congruence.
Qed.

Lemma tickBranchAt_back (b b' : BasicBlock) (s : nat) :
  rewrittenFrom deref b b' -> tickBranchAt deref b' s -> tickBranchAt deref b s.
Proof.
  intros (Hlen & Hins & _) (p & unop & call & ex & Hif & Hex & Hun & Htick).
  assert (forall s' ins', Instrs b' !! s' = Some ins' -> ins' <> Jump ->
            Instrs b !! s' = Some ins') as Hback.
  { intros s' ins' Hs' Hnj.
    destruct (lookup_lt_is_Some_2 (Instrs b) s') as [ins Hs].
    { rewrite <- Hlen. by eapply lookup_lt_Some. }
    destruct (Hins s' ins ins' Hs Hs') as [->|[-> _]]; done. }
  apply list_elem_of_lookup in Hex as [s1 Hs1].
  apply list_elem_of_lookup in Hun as [s0 Hs0].
  exists p, unop, call, ex.
  split; [by apply Hback|]. split; [eapply list_elem_of_lookup_2; by apply Hback|].
  split; [eapply list_elem_of_lookup_2; by apply Hback | done].
Qed.

Lemma rewrittenFrom_trans (b1 b2 b3 : BasicBlock) :
  rewrittenFrom deref b1 b2 -> rewrittenFrom deref b2 b3 ->
  rewrittenFrom deref b1 b3.
Proof.
  intros H12 H23.
  pose proof H12 as (Hlen1 & Hins1 & Hsucc1 & Hpred1).
  pose proof H23 as (Hlen2 & Hins2 & Hsucc2 & Hpred2).
  split; [congruence|]. split; [|split].
  - intros s ins ins' Hs Hs'.
    destruct (lookup_lt_is_Some_2 (Instrs b2) s) as [ins2 Hs2].
    { rewrite Hlen1. by eapply lookup_lt_Some. }
    destruct (Hins2 s ins2 ins' Hs2 Hs') as [->|[-> Hat]].
    + by apply Hins1.
    + right. split; [done|]. by eapply tickBranchAt_back.
  - destruct Hsucc1 as [H1|H1], Hsucc2 as [H2|H2]; rewrite H2, H1;
      [by left | by right | by right | right; apply take_idemp].
  - by etrans.
Qed.

Lemma blocksRewritten_refl (blocks : list BasicBlock) :
  Forall2 (rewrittenFrom deref) blocks blocks.
Proof.
  apply Forall2_same_length_lookup. split; [done|].
  intros i x y Hx Hy. assert (x = y) as -> by congruence.
  apply rewrittenFrom_refl.
Qed.

Lemma blocksRewritten_trans (l1 l2 l3 : list BasicBlock) :
  Forall2 (rewrittenFrom deref) l1 l2 -> Forall2 (rewrittenFrom deref) l2 l3 ->
  Forall2 (rewrittenFrom deref) l1 l3.
Proof.
  intros [Hlen1 H12]%Forall2_same_length_lookup
         [Hlen2 H23]%Forall2_same_length_lookup.
  apply Forall2_same_length_lookup. split; [congruence|].
  intros i x z Hx Hz.
  destruct (lookup_lt_is_Some_2 l2 i) as [y Hy].
  { rewrite <- Hlen1. by eapply lookup_lt_Some. }
  eapply rewrittenFrom_trans; [by eapply H12 | by eapply H23].
Qed.

Lemma RemovePred_rewritten (b : BasicBlock) (p : nat) :
  rewrittenFrom deref b (RemovePred b p).
Proof.
  split; [done|]. split; [|split; [by left | apply sublist_filter]].
  intros s ins ins' H1 H2. left. simpl in H2. congruence.
Qed.

Lemma rewriteAt_rewritten (bi : nat) (instrs : list nat)
    (blocks blocks' : list BasicBlock) (i : nat) :
  rewriteAt deref bi instrs blocks i = Some blocks' ->
  Forall2 (rewrittenFrom deref) blocks blocks'.
Proof.
  destruct (blocks !! bi) as [b|] eqn:Hb;
    [|unfold rewriteAt; rewrite Hb; intros [= <-]; apply blocksRewritten_refl].
  rewrite (rewriteAt_step deref bi instrs blocks i b Hb).
  destruct (tickBranch deref b instrs i) as [[s2|]|] eqn:Htick; [| |done].
  - apply tickBranch_found in Htick.
    destruct (Succs b !! 1%nat) as [succ|]; [|done]. intros [= <-].
    set (b1 := mkBasicBlock (<[s2:=NewJump]> (Instrs b)) (Preds b)
                 (take 1 (Succs b))).
    assert (rewrittenFrom deref b b1) as Hb1.
    { split; [by simpl; rewrite length_insert|]. split; [|split; [by right|done]].
      intros s ins ins' Hs Hs'. simpl in Hs'.
      destruct (decide (s2 = s)) as [->|Hne].
      - rewrite list_lookup_insert_eq in Hs' by (by eapply lookup_lt_Some).
        injection Hs' as <-. by right.
      - rewrite list_lookup_insert_ne in Hs' by done. left. congruence. }
    apply Forall2_same_length_lookup.
    split; [by rewrite length_alter, length_insert|].
    intros k x y Hx Hy.
    assert (exists z, (<[bi:=b1]> blocks) !! k = Some z /\ rewrittenFrom deref x z)
      as (z & Hz & Hxz).
    { destruct (decide (bi = k)) as [->|Hne].
      - exists b1. split; [|congruence].
        apply list_lookup_insert_eq. by eapply lookup_lt_Some.
      - exists x. split; [by rewrite list_lookup_insert_ne|].
        apply rewrittenFrom_refl. }
    destruct (decide (succ = k)) as [->|Hne].
    + rewrite list_lookup_alter_eq, Hz in Hy. injection Hy as <-.
      eapply rewrittenFrom_trans; [done | apply RemovePred_rewritten].
    + rewrite list_lookup_alter_ne, Hz in Hy by done. by injection Hy as <-.
  - intros [= <-]. apply blocksRewritten_refl.
Qed.

Lemma foldM_rewritten {A} (f : list BasicBlock -> A -> option (list BasicBlock))
    (l : list A) :
  (forall blocks x blocks', f blocks x = Some blocks' ->
     Forall2 (rewrittenFrom deref) blocks blocks') ->
  forall blocks blocks',
    foldM f blocks l = Some blocks' ->
    Forall2 (rewrittenFrom deref) blocks blocks'.
Proof.
  intros Hstep. induction l as [|x l IH]; intros blocks blocks'; simpl.
  - intros [= <-]. apply blocksRewritten_refl.
  - destruct (f blocks x) as [blocks1|] eqn:Hx; simpl; [|done].
    intros Hrest. eapply blocksRewritten_trans; [by eapply Hstep | by apply IH].
Qed.

Lemma applyBlock_rewritten (blocks blocks' : list BasicBlock) (bi : nat) :
  applyBlock deref blocks bi = Some blocks' ->
  Forall2 (rewrittenFrom deref) blocks blocks'.
Proof.
  unfold applyBlock.
  destruct (blocks !! bi) as [b|];
    [|intros [= <-]; apply blocksRewritten_refl].
  destruct (length (Instrs b) <? 3)%nat;
    [intros [= <-]; apply blocksRewritten_refl|].
  destruct (negb (length (Succs b) =? 2)%nat);
    [intros [= <-]; apply blocksRewritten_refl|].
  apply foldM_rewritten. intros bs i bs'. apply rewriteAt_rewritten.
Qed.

(** X14: what the rewrite can change.  When it returns, the function has
    the same object and receiver and the same number of blocks, and in
    each block: every slot holds the instruction it held, or a jump where
    it held the branch on the [ok] of a comma-ok receive from the channel
    of a call to [time.Tick]; the successors are the same or cut down to
    the first; the predecessors are a sublist of what they were. *)
Theorem applyStdlibKnowledge_rewrites (fn fn' : Function) :
  applyStdlibKnowledge deref fn = Some fn' ->
  Object fn' = Object fn /\ Recv fn' = Recv fn
  /\ Forall2 (rewrittenFrom deref) (Blocks fn) (Blocks fn').
Proof.
  unfold applyStdlibKnowledge.
  destruct (length (Blocks fn) =? 0)%nat.
  { intros [= <-]. split; [done|]. split; [done|]. apply blocksRewritten_refl. }
  destruct (foldM (applyBlock deref) (Blocks fn) (seq 0 (length (Blocks fn))))
    as [blocks|] eqn:Hfold; simpl; [|done].
  intros [= <-]. simpl. split; [done|]. split; [done|].
  eapply foldM_rewritten; [|done]. intros bs bi bs'. apply applyBlock_rewritten.
Qed.

End TickRewriteScope.

Lemma applyStdlibKnowledge_no_tick_witness :
  applyStdlibKnowledge twoKeysHeap (twoKeysHeap 0%nat) = Some (twoKeysHeap 0%nat).
Proof.
  apply (applyStdlibKnowledge_no_tick twoKeysHeap (twoKeysHeap 0%nat)).
  intros b ins Hb Hins (unop & call & -> & _).
  apply list_elem_of_singleton in Hb as ->.
  repeat (apply elem_of_cons in Hins as [Hins|Hins]; [discriminate|]).
  by apply elem_of_nil in Hins.
Defined.

Lemma applyStdlibKnowledge_rewrites_witness :
  let fn' :=
    mkFunction
      [mkBasicBlock [DebugRef; UnOp 301 ARROW (OCall tickCall);
                     Extract 302 301 1; Jump]
         [1%nat] [1%nat];
       mkBasicBlock [Other 304; Jump] [0%nat] [0%nat];
       mkBasicBlock [Other 305] [] []]
      None None in
  applyStdlibKnowledge tickHeap tickLoop = Some fn'
  /\ Object fn' = Object tickLoop /\ Recv fn' = Recv tickLoop
  /\ Forall2 (rewrittenFrom tickHeap) (Blocks tickLoop) (Blocks fn').
Proof.
  split; [by vm_compute|].
  apply (applyStdlibKnowledge_rewrites tickHeap tickLoop). by vm_compute.
Defined.

(** ** Build tags *)

Section BuildTags.

Lemma compare_le_trans (s1 s2 s3 : string) :
  String.compare s1 s2 <> Gt -> String.compare s2 s3 <> Gt ->
  String.compare s1 s3 <> Gt.
Proof.
  revert s2 s3. induction s1 as [|c1 s1 IH]; intros [|c2 s2] [|c3 s3];
    simpl; try done.
  unfold Ascii.compare.
  destruct (N.compare_spec (Ascii.N_of_ascii c1) (Ascii.N_of_ascii c2)) as [E12|L12|G12],
           (N.compare_spec (Ascii.N_of_ascii c2) (Ascii.N_of_ascii c3)) as [E23|L23|G23],
           (N.compare_spec (Ascii.N_of_ascii c1) (Ascii.N_of_ascii c3)) as [E13|L13|G13];
    try done; try lia.
  apply IH.
Qed.

#[local] Instance sort_le_trans : Transitive sort.le.
Proof.
  intros s1 s2 s3. unfold sort.le, String.leb. intros H12 H23.
  pose proof (compare_le_trans s1 s2 s3) as H.
  destruct (String.compare s1 s2), (String.compare s2 s3),
    (String.compare s1 s3); try done; by destruct H.
Qed.

#[local] Instance sort_le_total : Total sort.le.
Proof. intros s1 s2. apply String.leb_total. Qed.

#[local] Instance sort_le_antisym : AntiSymm (=) sort.le.
Proof. intros s1 s2. apply String.leb_antisym. Qed.

(** [sort.Strings] returns the sorted permutation of its argument. *)
Lemma Strings_sorted (x : list string) :
  Sorted sort.le (sort.Strings x) /\ sort.Strings x ≡ₚ x.
Proof. split; [apply Sorted_merge_sort, _ | apply merge_sort_Permutation]. Qed.

Lemma Strings_eq_iff (s1 s2 : list string) :
  sort.Strings s1 = sort.Strings s2 <-> s1 ≡ₚ s2.
Proof.
  destruct (Strings_sorted s1) as [Hs1 Hp1], (Strings_sorted s2) as [Hs2 Hp2].
  split.
  - intros Heq. by rewrite <- Hp1, Heq.
  - intros Hperm. apply (Sorted_unique sort.le); [done | done |].
    by rewrite Hp1, Hp2.
Qed.

Lemma tagsLoop_compares (s1s : list string) :
  forall pre rest,
    length s1s = length rest ->
    tagsLoop s1s (pre ++ rest) (length pre) = Some (bool_decide (s1s = rest)).
Proof.
  induction s1s as [|s s1s IH]; intros pre [|t rest] Hlen; try done.
  simpl. rewrite list_lookup_middle by done. simpl.
  destruct (String.eqb_spec s t) as [->|Hne]; simpl.
  - replace (pre ++ t :: rest) with ((pre ++ [t]) ++ rest)
      by (by rewrite <- app_assoc).
    replace (S (length pre)) with (length (pre ++ [t]))
      by (rewrite length_app; simpl; lia).
    rewrite IH by (simpl in Hlen; lia). f_equal.
    apply bool_decide_ext. split; [by intros -> | by intros [= ->]].
  - f_equal. symmetry. apply bool_decide_eq_false. by intros [= -> _].
Qed.

(** X15: [buildTagsIdentical] never panics, and it returns true exactly
    when the two slices hold the same strings with the same
    multiplicities, in any order. *)
Theorem buildTagsIdentical_permutation (s1 s2 : list string) :
  exists b, buildTagsIdentical s1 s2 = Some b /\ (b = true <-> s1 ≡ₚ s2).
Proof.
  unfold buildTagsIdentical.
  destruct (Nat.eqb_spec (length s1) (length s2)) as [Hlen|Hlen]; simpl.
  - exists (bool_decide (sort.Strings s1 = sort.Strings s2)). split.
    + apply (tagsLoop_compares _ []).
      destruct (Strings_sorted s1) as [_ Hp1], (Strings_sorted s2) as [_ Hp2].
      by rewrite Hp1, Hp2.
    + by rewrite bool_decide_eq_true, Strings_eq_iff.
  - exists false. split; [done|]. split; [done|].
    intros Hperm. destruct Hlen. by rewrite Hperm.
Qed.

End BuildTags.

(** The tags [linux,amd64] and [amd64,linux] are identical; a repeated tag
    counts. *)
Example buildTagsIdentical_example :
  buildTagsIdentical ["linux"; "amd64"] ["amd64"; "linux"] = Some true
  /\ buildTagsIdentical ["linux"; "linux"; "amd64"] ["linux"; "amd64"; "amd64"]
     = Some false.
Proof. by vm_compute. Qed.

(** ** Empty critical sections *)

Section EmptyCriticalSectionFacts.

Variable ObjectOf : Addr -> TypesObject.
Variable Render : Expr -> string.

Lemma mutexParams_Some (s : Stmt) (X : Expr) (name : string) :
  mutexParams ObjectOf s = Some (X, name) <-> mutexCall ObjectOf s X name.
Proof.
  unfold mutexParams, mutexCall. split.
  - destruct s as [e|]; [|done]. destruct e as [Fun| |]; try done.
    destruct Fun as [|X' Sel|]; try done.
    destruct (ObjectOf Sel) as [name' [params results]|] eqn:Hobj; [|done].
    simpl. destruct params; [|done]. destruct results; [|done]. simpl.
    intros [= -> ->]. by exists Sel.
  - intros (Sel & -> & Hobj). by rewrite Hobj.
Qed.

Lemma emptySectionStep_true (s1 s2 : Stmt) :
  emptySectionStep ObjectOf Render s1 s2 = true <->
    exists X1 X2 name1 name2,
      mutexCall ObjectOf s1 X1 name1 /\ mutexCall ObjectOf s2 X2 name2
      /\ Render X1 = Render X2
      /\ (name1 = "Lock" /\ name2 = "Unlock"
          \/ name1 = "RLock" /\ name2 = "RUnlock").
Proof.
  unfold emptySectionStep. split.
  - destruct (mutexParams ObjectOf s1) as [[X1 name1]|] eqn:H1; [|done].
    destruct (mutexParams ObjectOf s2) as [[X2 name2]|] eqn:H2; [|done].
    apply mutexParams_Some in H1, H2.
    destruct (String.eqb_spec (Render X1) (Render X2)) as [Heq|]; [|done].
    simpl. rewrite orb_true_iff, !andb_true_iff, !String.eqb_eq.
    intros Hnames. by exists X1, X2, name1, name2.
  - intros (X1 & X2 & name1 & name2 & H1 & H2 & Heq & Hnames).
    apply mutexParams_Some in H1, H2. rewrite H1, H2, Heq, String.eqb_refl.
    simpl. rewrite orb_true_iff, !andb_true_iff, !String.eqb_eq. done.
Qed.

Lemma emptySectionLoop_elem (List : list Stmt) :
  forall i n,
    n ∈ emptySectionLoop ObjectOf Render List i <->
      exists k s1 s2,
        n = (i + S k)%nat /\ List !! k = Some s1 /\ List !! S k = Some s2
        /\ emptySectionStep ObjectOf Render s1 s2 = true.
Proof.
  induction List as [|s1 rest IH]; intros i n.
  - split; [by intros ?%elem_of_nil | by intros (k & ? & ? & _ & ? & _)].
  - destruct rest as [|s2 rest'].
    + split; [by intros ?%elem_of_nil|].
      intros (k & ? & ? & _ & Hk & Hk' & _). by destruct k.
    + change (emptySectionLoop ObjectOf Render (s1 :: s2 :: rest') i)
        with ((if emptySectionStep ObjectOf Render s1 s2 then [S i] else [])
              ++ emptySectionLoop ObjectOf Render (s2 :: rest') (S i)).
      rewrite elem_of_app, IH. split.
      * intros [Hn|(k & a & b & -> & Hk & Hk' & Hstep)].
        -- destruct (emptySectionStep ObjectOf Render s1 s2) eqn:Hstep;
             [|by apply elem_of_nil in Hn].
           apply list_elem_of_singleton in Hn as ->.
           exists 0%nat, s1, s2. split; [lia | done].
        -- exists (S k), a, b. split; [lia | done].
      * intros (k & a & b & -> & Hk & Hk' & Hstep). destruct k as [|k].
        -- left. simpl in Hk, Hk'. injection Hk as <-. injection Hk' as <-.
           rewrite Hstep. apply list_elem_of_singleton. lia.
        -- right. exists k, a, b. split; [lia | done].
Qed.

(** The statement at index [n] of a block is reported exactly when it and
    the statement before it are such calls, on receivers with the same
    rendering, of [Lock] then [Unlock] or of [RLock] then [RUnlock]. *)
Lemma emptyCriticalSections_elem (List : list Stmt) (n : nat) :
  n ∈ emptyCriticalSections ObjectOf Render List <->
    exists k s1 s2 X1 X2 name1 name2,
      n = S k /\ List !! k = Some s1 /\ List !! S k = Some s2
      /\ mutexCall ObjectOf s1 X1 name1 /\ mutexCall ObjectOf s2 X2 name2
      /\ Render X1 = Render X2
      /\ (name1 = "Lock" /\ name2 = "Unlock"
          \/ name1 = "RLock" /\ name2 = "RUnlock").
Proof.
  unfold emptyCriticalSections.
  destruct (Nat.ltb_spec (length List) 2) as [Hlen|Hlen].
  - split; [by intros ?%elem_of_nil|].
    intros (k & s1 & s2 & _ & _ & _ & _ & _ & _ & Hk'%lookup_lt_Some & _). lia.
  - rewrite emptySectionLoop_elem. split.
    + intros (k & s1 & s2 & -> & Hk & Hk' & Hstep).
      apply emptySectionStep_true in Hstep
        as (X1 & X2 & name1 & name2 & H1 & H2 & Heq & Hnames).
      by exists k, s1, s2, X1, X2, name1, name2.
    + intros (k & s1 & s2 & X1 & X2 & name1 & name2 & -> & Hk & Hk' & H1 & H2
              & Heq & Hnames).
      exists k, s1, s2. split; [done|]. split; [done|]. split; [done|].
      apply emptySectionStep_true. by exists X1, X2, name1, name2.
Qed.

Lemma mutexCall_name (s : Stmt) X1 X2 name1 name2 :
  mutexCall ObjectOf s X1 name1 -> mutexCall ObjectOf s X2 name2 ->
  name1 = name2.
Proof. intros (Sel1 & -> & H1) (Sel2 & [= _ <-] & H2). congruence. Qed.

(** X16: the checker of empty critical sections reports the statement at
    index [n] of a block exactly when that statement and the one before it
    are calls of functions without parameters and results, selected on
    receivers with the same rendering, named [Lock] then [Unlock] or
    [RLock] then [RUnlock]. *)
Theorem CheckEmptyCriticalSection_reports (List : list Stmt) (n : nat) :
  n ∈ emptyCriticalSections ObjectOf Render List <->
    exists k s1 s2 X1 X2 name1 name2,
      n = S k /\ List !! k = Some s1 /\ List !! S k = Some s2
      /\ mutexCall ObjectOf s1 X1 name1 /\ mutexCall ObjectOf s2 X2 name2
      /\ Render X1 = Render X2
      /\ (name1 = "Lock" /\ name2 = "Unlock"
          \/ name1 = "RLock" /\ name2 = "RUnlock").
Proof. apply emptyCriticalSections_elem. Qed.

(** X17: the checker never reports the first statement of a block, and it
    never reports two statements that follow each other: a reported
    statement is an unlock, and the statement before a reported one is a
    lock. *)
Theorem CheckEmptyCriticalSection_apart (List : list Stmt) (n : nat) :
  n ∈ emptyCriticalSections ObjectOf Render List ->
  n <> 0%nat /\ S n ∉ emptyCriticalSections ObjectOf Render List.
Proof.
  intros (k & s1 & s2 & X1 & X2 & name1 & name2 & -> & Hk & Hk' & H1 & H2
          & Heq & Hnames)%emptyCriticalSections_elem.
  split; [done|].
  intros (k' & s1' & s2' & X1' & X2' & name1' & name2' & [= <-] & Hn & Hn' & H1'
          & H2' & Heq' & Hnames')%emptyCriticalSections_elem.
  assert (s1' = s2) as -> by congruence.
  pose proof (mutexCall_name _ _ _ _ _ H2 H1') as <-.
  destruct Hnames as [[_ ->]|[_ ->]], Hnames' as [[? _]|[? _]]; discriminate.
Qed.

End EmptyCriticalSectionFacts.

Lemma CheckEmptyCriticalSection_apart_witness :
  1%nat ∈ emptyCriticalSections muObjects muRender emptySection
  /\ 1%nat <> 0%nat
  /\ 2%nat ∉ emptyCriticalSections muObjects muRender emptySection.
Proof.
  assert (1%nat ∈ emptyCriticalSections muObjects muRender emptySection) as Hin
    by (by apply list_elem_of_singleton).
  split; [exact Hin|].
  apply (CheckEmptyCriticalSection_apart muObjects muRender emptySection 1 Hin).
Defined.

(** ** The [time.Tick] rewrite finds the loops over [time.Tick] *)

Section TickRewriteFinds.

Variable deref : FuncPtr -> Function.

Lemma foldM_app {A B} (f : B -> A -> option B) (b : B) (l1 l2 : list A) :
  foldM f b (l1 ++ l2) = b' ← foldM f b l1; foldM f b' l2.
Proof.
  revert b. induction l1 as [|x l1 IH]; intros b; simpl; [done|].
  destruct (f b x) as [b1|]; simpl; [apply IH | done].
Qed.

Lemma sameShape_trans (b1 b2 b3 : BasicBlock) :
  sameShape b1 b2 -> sameShape b2 b3 -> sameShape b1 b3.
Proof. intros [H1 H2] [H3 H4]. split; congruence. Qed.

(** The visits of the other blocks keep the instructions and the
    successors of a block. *)
Lemma applyBlocks_other (bi : nat) (l : list nat) :
  bi ∉ l ->
  forall blocks blocks' b,
    foldM (applyBlock deref) blocks l = Some blocks' ->
    blocks !! bi = Some b ->
    exists b', blocks' !! bi = Some b' /\ sameShape b b'.
Proof.
  induction l as [|k l IH]; intros Hnot blocks blocks' b; simpl.
  - intros [= <-] Hb. by exists b.
  - apply not_elem_of_cons in Hnot as [Hne Hnot].
    destruct (applyBlock deref blocks k) as [blocks1|] eqn:Hstep; simpl; [|done].
    intros Hrest Hb.
    destruct (applyBlock_shape deref _ _ _ Hstep) as (Hlen & _ & Hother).
    destruct (lookup_lt_is_Some_2 blocks1 bi) as [b1 Hb1].
    { rewrite Hlen. by eapply lookup_lt_Some. }
    destruct (Hother bi b1 Hne Hb1) as (b0 & Hb0 & Hsh).
    assert (b0 = b) as -> by congruence.
    destruct (IH Hnot blocks1 blocks' b1 Hrest Hb1) as (b' & Hb' & Hsh').
    exists b'. split; [done|]. by eapply sameShape_trans.
Qed.

Lemma nonDebugSlots_allDebug (l : list Instruction) (k : nat) :
  allDebug l -> nonDebugSlots l k = [].
Proof.
  intros Hall. revert k. induction Hall as [|x l -> _ IH]; intros k; [done|].
  apply IH.
Qed.

Section OneTickBlock.

Variables (pre0 dbg1 dbg2 pre : list Instruction).
Variables (unop : Addr) (call : CallInstr) (ex p : Addr).
Hypothesis Hdbg1 : allDebug dbg1.
Hypothesis Hdbg2 : allDebug dbg2.
Hypothesis Htick : IsCallTo deref (Common call) "time.Tick" = true.
Hypothesis Hpre :
  pre = pre0 ++ UnOp unop ARROW (OCall call) :: dbg1
             ++ Extract ex unop 1 :: dbg2.

Lemma tick_length :
  length pre = (length pre0 + S (length dbg1) + S (length dbg2))%nat.
Proof. rewrite Hpre. rewrite length_app. simpl. rewrite length_app. simpl. lia. Qed.

Lemma tick_slots :
  nonDebugSlots (pre ++ [If p ex]) 0
  = nonDebugSlots pre0 0
    ++ [length pre0; (length pre0 + S (length dbg1))%nat; length pre].
Proof.
  rewrite tick_length. rewrite Hpre.
  rewrite <- app_assoc, nonDebugSlots_app. f_equal. simpl. f_equal.
  rewrite <- app_assoc, nonDebugSlots_app.
  rewrite (nonDebugSlots_allDebug dbg1) by done. simpl. f_equal; [lia|].
  rewrite nonDebugSlots_app, (nonDebugSlots_allDebug dbg2) by done.
  simpl. f_equal. lia.
Qed.

Lemma tick_instrs :
  (pre ++ [If p ex]) !! length pre0 = Some (UnOp unop ARROW (OCall call))
  /\ (pre ++ [If p ex]) !! (length pre0 + S (length dbg1))%nat
     = Some (Extract ex unop 1)
  /\ (pre ++ [If p ex]) !! length pre = Some (If p ex).
Proof.
  split; [|split].
  - rewrite Hpre, <- app_assoc, <- app_comm_cons. by rewrite list_lookup_middle.
  - rewrite Hpre, <- app_assoc, <- app_comm_cons. rewrite lookup_app_r by lia.
    replace (length pre0 + S (length dbg1) - length pre0)%nat
      with (S (length dbg1)) by lia.
    simpl. rewrite <- app_assoc, <- app_comm_cons. by rewrite list_lookup_middle.
  - by rewrite list_lookup_middle.
Qed.

(** The iteration on the receive finds the branch, in the last slot. *)
Lemma tickBranch_tick (bc : BasicBlock) :
  Instrs bc = pre ++ [If p ex] ->
  tickBranch deref bc (nonDebugSlots (pre ++ [If p ex]) 0)
    (length (nonDebugSlots pre0 0))
  = Some (Some (length pre)).
Proof.
  intros Hins. destruct tick_instrs as (H0 & H1 & H2).
  unfold tickBranch. rewrite tick_slots, Hins.
  set (slots := nonDebugSlots pre0 0
                ++ [length pre0; (length pre0 + S (length dbg1))%nat; length pre]).
  assert (slots !! length (nonDebugSlots pre0 0) = Some (length pre0)) as Hs0
    by (unfold slots; by rewrite list_lookup_middle).
  assert (slots !! (length (nonDebugSlots pre0 0) + 1)%nat
          = Some (length pre0 + S (length dbg1))%nat) as Hs1.
  { unfold slots. rewrite lookup_app_r by lia.
    by replace (length (nonDebugSlots pre0 0) + 1
                - length (nonDebugSlots pre0 0))%nat with 1%nat by lia. }
  assert (slots !! (length (nonDebugSlots pre0 0) + 2)%nat = Some (length pre))
    as Hs2.
  { unfold slots. rewrite lookup_app_r by lia.
    by replace (length (nonDebugSlots pre0 0) + 2
                - length (nonDebugSlots pre0 0))%nat with 2%nat by lia. }
  rewrite Hs0. simpl. rewrite H0, Htick. simpl. rewrite Hs1. simpl.
  rewrite H1, bool_decide_eq_true_2 by done. simpl. rewrite Hs2. simpl.
  rewrite H2. by rewrite bool_decide_eq_true_2.
Qed.

End OneTickBlock.

(** The loop over the instructions keeps the block in one of its two
    states. *)
Lemma rewriteLoop_state (pre : list Instruction) (p Cond : Addr) (bi : nat)
    (l : list nat) :
  (forall ins, ins ∈ pre -> ~ isIf ins) ->
  forall blocks blocks' bc,
    blocks !! bi = Some bc -> inLoopState pre p Cond bc ->
    foldM (rewriteAt deref bi (nonDebugSlots pre 0 ++ [length pre])) blocks l
    = Some blocks' ->
    exists bc', blocks' !! bi = Some bc' /\ inLoopState pre p Cond bc'.
Proof.
  intros Hpre. induction l as [|i l IH]; intros blocks blocks' bc Hbc Hst;
    cbn [foldM].
  - intros [= <-]. by exists bc.
  - rewrite (rewriteAt_step deref bi _ blocks i bc Hbc).
    destruct (tickBranch_inLoopState deref pre p Cond Hpre bc i Hst)
      as [->|(-> & Hins & Hlen)]; simpl.
    + by apply (IH blocks blocks' bc).
    + destruct (Succs bc !! 1%nat) as [succ|]; simpl; [|done].
      assert (bi < length blocks)%nat as Hbi by (by eapply lookup_lt_Some).
      set (b1 := mkBasicBlock (<[length pre:=NewJump]> (Instrs bc)) (Preds bc)
                   (take 1 (Succs bc))).
      assert (inLoopState pre p Cond b1) as Hst1.
      { right. simpl. split.
        - rewrite Hins. replace (length pre) with (length pre + 0)%nat at 1 by lia.
          by rewrite insert_app_r.
        - rewrite length_take. lia. }
      destruct (decide (succ = bi)) as [->|Hne].
      * apply (IH _ _ (RemovePred b1 bi)).
        -- by rewrite list_lookup_alter_eq, list_lookup_insert_eq.
        -- destruct Hst1 as [[? ?]|[? ?]]; [by left | by right].
      * apply (IH _ _ b1); [|done].
        by rewrite list_lookup_alter_ne, list_lookup_insert_eq.
Qed.

(** The visit of such a block replaces its branch by a jump and keeps its
    first successor only. *)
Lemma applyBlock_tick (blocks blocks' : list BasicBlock) (bi : nat)
    (b : BasicBlock) (pre : list Instruction) :
  blocks !! bi = Some b ->
  tickLoopBlock deref b pre ->
  (forall ins, ins ∈ pre -> ~ isIf ins) ->
  applyBlock deref blocks bi = Some blocks' ->
  exists b', blocks' !! bi = Some b'
    /\ Instrs b' = pre ++ [Jump] /\ Succs b' = take 1 (Succs b).
Proof.
  intros Hb (pre0 & dbg1 & dbg2 & unop & call & ex & p & Hpre & Hins & Hd1 & Hd2
             & Htick & Hsucc) Hnoif Happly.
  pose proof (applyBlock_rewritten deref _ _ _ Happly) as Hrew.
  revert Happly. unfold applyBlock. rewrite Hb.
  assert (3 <= length (Instrs b))%nat as Hlen3.
  { rewrite Hins, length_app, (tick_length pre0 dbg1 dbg2 pre unop call ex Hpre).
    simpl. lia. }
  destruct (Nat.ltb_spec (length (Instrs b)) 3) as [|_]; [lia|].
  rewrite Hsucc. simpl. intros Hloop.
  destruct (rewriteLoop_shape deref bi _ _ blocks blocks' b Hb Hsucc Hloop)
    as [[_ Hno]|(_ & (b' & Hb' & Hone) & _)].
  - exfalso.
    pose proof (tickBranch_tick pre0 dbg1 dbg2 pre unop call ex p Hd1 Hd2 Htick
                  Hpre b Hins) as Hfound.
    rewrite <- Hins in Hfound.
    rewrite (Hno (length (nonDebugSlots pre0 0))) in Hfound; [done|].
    apply elem_of_seq. split; [lia|]. simpl.
    rewrite Hins.
    rewrite (tick_slots pre0 dbg1 dbg2 pre unop call ex p Hd1 Hd2 Hpre).
    rewrite length_app. simpl. lia.
  - exists b'. split; [done|].
    rewrite Hins, slots_of_block in Hloop.
    destruct (rewriteLoop_state pre p ex bi _ Hnoif blocks blocks' b Hb
                ltac:(by left) Hloop) as (b'' & Hb'' & Hst).
    assert (b'' = b') as -> by congruence.
    apply Forall2_same_length_lookup in Hrew as [_ Hrew].
    destruct (Hrew bi b b' Hb Hb') as (_ & _ & Hs & _).
    split.
    + destruct Hst as [[_ ?]|[? _]]; [lia | done].
    + destruct Hs as [Hs|Hs]; [|done]. rewrite Hs in Hone. lia.
Qed.

(** X18: the rewrite finds the loops over [time.Tick].  In a function
    whose blocks with two successors end in their only [If], a block that
    ends with the receive from the channel of a call to [time.Tick], the
    extraction of [ok] and the branch on it (debug instructions between
    them at most) comes out with a jump in place of the branch and with its
    first successor only; its other instructions are unchanged. *)
Theorem applyStdlibKnowledge_tick (fn : Function) (bi : nat) (b : BasicBlock)
    (pre : list Instruction) :
  wellFormed fn ->
  Blocks fn !! bi = Some b ->
  tickLoopBlock deref b pre ->
  exists fn' b',
    applyStdlibKnowledge deref fn = Some fn'
    /\ Blocks fn' !! bi = Some b'
    /\ Instrs b' = pre ++ [Jump]
    /\ Succs b' = take 1 (Succs b).
Proof.
  intros Hwf Hb Htick.
  assert (bi < length (Blocks fn))%nat as Hbi by (by eapply lookup_lt_Some).
  assert (forall ins, ins ∈ pre -> ~ isIf ins) as Hnoif.
  { destruct Htick as (pre0 & dbg1 & dbg2 & unop & call & ex & p & _ & Hins & _
                       & _ & _ & Hsucc).
    destruct (proj1 (Forall_lookup _ _) Hwf bi b Hb Hsucc)
      as (pre' & p' & Cond' & Hins' & Hpre').
    rewrite Hins in Hins'. apply app_inj_tail in Hins' as [-> _]. done. }
  unfold applyStdlibKnowledge.
  destruct (Nat.eqb_spec (length (Blocks fn)) 0) as [|_]; [lia|].
  destruct (applyBlocks_defined deref (seq 0 (length (Blocks fn))) _ Hwf)
    as [blocks Hall].
  rewrite Hall. simpl.
  assert (seq 0 (length (Blocks fn))
          = seq 0 bi ++ [bi] ++ seq (S bi) (length (Blocks fn) - S bi)) as Hseq.
  { replace (length (Blocks fn)) with (bi + S (length (Blocks fn) - S bi))%nat
      at 1 by lia.
    rewrite seq_app. simpl. done. }
  rewrite Hseq, !foldM_app in Hall.
  destruct (foldM (applyBlock deref) (Blocks fn) (seq 0 bi)) as [blocks1|]
    eqn:H1; simpl in Hall; [|done].
  destruct (applyBlock deref blocks1 bi) as [blocks2|] eqn:H2;
    simpl in Hall; [|done].
  destruct (applyBlocks_other bi (seq 0 bi) ltac:(rewrite elem_of_seq; lia)
              _ _ b H1 Hb) as (b1 & Hb1 & [Hi1 Hs1]).
  assert (tickLoopBlock deref b1 pre) as Htick1.
  { destruct Htick as (pre0 & dbg1 & dbg2 & unop & call & ex & p & ? & ? & ? & ?
                       & ? & ?).
    exists pre0, dbg1, dbg2, unop, call, ex, p. rewrite Hi1, Hs1. done. }
  destruct (applyBlock_tick _ _ bi b1 pre Hb1 Htick1 Hnoif H2)
    as (b2 & Hb2 & Hi2 & Hs2).
  destruct (applyBlocks_other bi (seq (S bi) (length (Blocks fn) - S bi))
              ltac:(rewrite elem_of_seq; lia) _ _ b2 Hall Hb2)
    as (b3 & Hb3 & [Hi3 Hs3]).
  eexists _, b3. split; [done|]. simpl. split; [done|].
  split; [congruence|]. rewrite Hs3, Hs2. by rewrite Hs1.
Qed.

End TickRewriteFinds.

Lemma applyStdlibKnowledge_tick_witness :
  wellFormed tickLoop
  /\ exists fn' b',
       applyStdlibKnowledge tickHeap tickLoop = Some fn'
       /\ Blocks fn' !! 0%nat = Some b'
       /\ Instrs b'
          = [DebugRef; UnOp 301 ARROW (OCall tickCall); Extract 302 301 1]
            ++ [Jump]
       /\ Succs b' = take 1 [1%nat; 2%nat].
Proof.
  assert (wellFormed tickLoop) as Hwf.
  { repeat constructor; intros Hlen; simpl in Hlen; try lia.
    exists [DebugRef; UnOp 301 ARROW (OCall tickCall); Extract 302 301 1],
      303%nat, 302%nat.
    split; [reflexivity|]. intros ins Hin (p & c & ->).
    repeat (apply elem_of_cons in Hin as [Hin|Hin]; [discriminate|]).
    by apply elem_of_nil in Hin. }
  split; [done|].
  apply (applyStdlibKnowledge_tick tickHeap tickLoop 0
           (mkBasicBlock [DebugRef; UnOp 301 ARROW (OCall tickCall);
                          Extract 302 301 1; If 303 302]
              [1%nat] [1%nat; 2%nat])
           [DebugRef; UnOp 301 ARROW (OCall tickCall); Extract 302 301 1]
           Hwf).
  - reflexivity.
  - exists [DebugRef], [], [], 301%nat, tickCall, 302%nat, 303%nat.
    split; [reflexivity|]. split; [reflexivity|].
    split; [constructor|]. split; [constructor|]. split; reflexivity.
Defined.

(** ** Deprecation notices *)

Section DeprecatedFacts.

Variable ObjectOf : Addr -> Addr.

#[local] Arguments strings.HasPrefix : simpl never.
#[local] Arguments strings.slice : simpl never.
#[local] Arguments strings.Replace : simpl never.
#[local] Arguments strings.Split : simpl never.
#[local] Arguments String.length : simpl never.

Lemma splitFrom_nonempty (sep s : string) :
  forall skip cur, strings.splitFrom sep s skip cur <> [].
Proof.
  induction s as [|c s IH]; intros skip cur; simpl; [done|].
  destruct skip; [|apply IH]. by destruct (strings.HasPrefix _ sep).
Qed.

Lemma docsLoop_step (text : string) (rest : list (option string)) :
  docsLoop (Some text :: rest)
  = last ← strings.Split text (newline +:+ newline)
           !! (length (strings.Split text (newline +:+ newline)) - 1)%nat;
    if negb (strings.HasPrefix last "Deprecated: ") then docsLoop rest
    else
      alt ← strings.slice last (Z.of_nat (String.length "Deprecated: "))
              (Z.of_nat (String.length last));
      Some (strings.Replace alt newline " " (-1)).
Proof. reflexivity. Qed.

(** [strings.Split] returns at least one piece: the index
    [len(parts)-1] is in range. *)
Lemma Split_last (s sep : string) :
  is_Some (strings.Split s sep !! (length (strings.Split s sep) - 1)%nat).
Proof.
  pose proof (splitFrom_nonempty sep s 0 "") as Hne.
  unfold strings.Split. destruct (strings.splitFrom sep s 0 "") as [|x l]; [done|].
  apply lookup_lt_is_Some. simpl. lia.
Qed.

Lemma length_append (a b : string) :
  String.length (a +:+ b) = (String.length a + String.length b)%nat.
Proof.
  induction a as [|c a IH]; [done|]. by rewrite append_cons, !length_cons, IH.
Qed.

(** The slice [last[len(prefix):]] of a string that has the prefix. *)
Lemma slice_after_prefix (last prefix : string) :
  strings.HasPrefix last prefix = true ->
  is_Some (strings.slice last (Z.of_nat (String.length prefix))
             (Z.of_nat (String.length last))).
Proof.
  intros [r ->]%HasPrefix_true. unfold strings.slice. rewrite length_append.
  destruct (_ && _)%bool eqn:Hb; [by eexists|].
  rewrite !andb_false_iff, !Z.leb_gt in Hb. lia.
Qed.

Lemma no_newline_cons (c : ascii) (s : string) :
  c <> Ascii.ascii_of_nat 10 ->
  strings.Contains s newline = false ->
  strings.Contains (String c s) newline = false.
Proof.
  intros Hc Hs. destruct (strings.Contains (String c s) newline) eqn:Hcon; [|done].
  apply Contains_true in Hcon as (a & b & Heq).
  destruct a as [|d a].
  - rewrite append_nil in Heq. unfold newline in Heq. rewrite append_cons in Heq.
    injection Heq as -> _. done.
  - rewrite append_cons in Heq. injection Heq as _ ->.
    assert (strings.Contains (a +:+ newline +:+ b) newline = true) as Ht
      by (apply Contains_true; by exists a, b).
    congruence.
Qed.

(** Once every newline is replaced by a space no newline is left. *)
Lemma Replace_no_newline (s : string) :
  strings.Contains (strings.Replace s newline " " (-1)) newline = false.
Proof.
  unfold strings.Replace.
  assert (forall n, n < 0 ->
            strings.Contains (strings.replaceFrom newline " " s 0 n) newline
            = false) as H; [|apply H; lia].
  induction s as [|c s IH]; intros n Hn; [done|]. cbn [strings.replaceFrom].
  destruct (Z.eqb_spec n 0) as [|_]; [lia|]. simpl negb. cbn [andb].
  destruct (strings.HasPrefix (String c s) newline) eqn:Hp.
  - change (String.length newline - 1)%nat with 0%nat.
    change (" " +:+ strings.replaceFrom newline " " s 0 (n - 1))
      with (String " "%char (strings.replaceFrom newline " " s 0 (n - 1))).
    apply no_newline_cons; [done | apply IH; lia].
  - apply no_newline_cons; [|by apply IH].
    intros ->. by vm_compute in Hp.
Qed.

(** The loop over the comment groups returns. *)
Lemma docsLoop_defined (docs : list (option string)) :
  exists alt, docsLoop docs = Some alt
    /\ (alt = "" \/ strings.Contains alt newline = false).
Proof.
  induction docs as [|[text|] rest IH];
    [exists ""; split; [done | by left] | | exact IH].
  rewrite docsLoop_step.
  destruct (Split_last text (newline +:+ newline)) as [last ->]. simpl.
  destruct (strings.HasPrefix last "Deprecated: ") eqn:Hp; simpl; [|exact IH].
  destruct (slice_after_prefix last "Deprecated: " Hp) as [alt ->].
  simpl. eexists. split; [done|].
  right. apply Replace_no_newline.
Qed.

Lemma record_lookup (alt : string) (names : list Addr) :
  forall (m : gmap Addr string) obj,
    foldl (fun m name => <[ObjectOf name := alt]> m) m names !! obj
    = if decide (obj ∈ ObjectOf <$> names) then Some alt else m !! obj.
Proof.
  induction names as [|name names IH]; intros m obj; simpl.
  - destruct (decide (obj ∈ [])) as [Hin|]; [by apply elem_of_nil in Hin | done].
  - rewrite IH.
    destruct (decide (obj ∈ ObjectOf <$> names)) as [Hin|Hnin].
    + rewrite decide_True; [done | by right].
    + destruct (decide (ObjectOf name = obj)) as [<-|Hne].
      * rewrite lookup_insert_eq. rewrite decide_True; [done | by left].
      * rewrite lookup_insert_ne by done.
        rewrite decide_False; [done|].
        intros [->|?]%elem_of_cons; [by destruct Hne | by destruct Hnin].
Qed.

(** X19: [doDocs] never panics, and it leaves the map of deprecated
    objects as it is or records one and the same message for the objects of
    all the names and changes no other entry; a recorded message is not
    empty and holds no newline. *)
Theorem doDocs_records (names : list Addr) (docs : list (option string))
    (deprecatedObjs : gmap Addr string) :
  exists m',
    doDocs ObjectOf names docs deprecatedObjs = Some m'
    /\ (m' = deprecatedObjs
        \/ exists alt,
             alt <> "" /\ strings.Contains alt newline = false
             /\ forall obj,
                  m' !! obj
                  = if decide (obj ∈ ObjectOf <$> names) then Some alt
                    else deprecatedObjs !! obj).
Proof.
  unfold doDocs. destruct (docsLoop_defined docs) as (alt & -> & Halt). simpl.
  destruct (String.eqb_spec alt "") as [->|Hne].
  - eexists. split; [done | by left].
  - eexists. split; [done|]. right. exists alt. split; [done|].
    split; [by destruct Halt|]. intros obj. apply record_lookup.
Qed.

Lemma docsLoop_skip (doc : option string) (rest : list (option string)) :
  ~ deprecates doc -> docsLoop (doc :: rest) = docsLoop rest.
Proof.
  intros Hno. destruct doc as [text|]; [|done]. rewrite docsLoop_step.
  destruct (Split_last text (newline +:+ newline)) as [last Hlast].
  rewrite Hlast. simpl.
  destruct (strings.HasPrefix last "Deprecated: ") eqn:Hp; [|done].
  destruct Hno. exists text. split; [done|]. unfold lastParagraph.
  by rewrite Hlast.
Qed.

Lemma docsLoop_found (doc : option string) (rest : list (option string)) :
  deprecates doc -> docsLoop (doc :: rest) = docsLoop [doc].
Proof.
  intros (text & -> & Hp). unfold lastParagraph in Hp. rewrite !docsLoop_step.
  destruct (Split_last text (newline +:+ newline)) as [last Hlast].
  rewrite Hlast in Hp |- *. simpl in Hp |- *. rewrite Hp. simpl.
  by destruct (strings.slice last _ _).
Qed.

(** X20: the first comment group whose last paragraph starts with
    [Deprecated: ] decides: the groups before it are passed over, and the
    groups after it are not read, also when its message is empty and
    nothing is recorded. *)
Theorem doDocs_first_notice (names : list Addr)
    (pre rest : list (option string)) (doc : option string)
    (deprecatedObjs : gmap Addr string) :
  Forall (fun d => ~ deprecates d) pre ->
  deprecates doc ->
  doDocs ObjectOf names (pre ++ doc :: rest) deprecatedObjs
  = doDocs ObjectOf names [doc] deprecatedObjs.
Proof.
  intros Hpre Hdoc. unfold doDocs.
  assert (docsLoop (pre ++ doc :: rest) = docsLoop [doc]) as ->; [|done].
  induction Hpre as [|d pre Hd _ IH]; simpl app.
  - by apply docsLoop_found.
  - by rewrite docsLoop_skip.
Qed.

End DeprecatedFacts.

Lemma doDocs_first_notice_witness :
  Forall (fun d => ~ deprecates d) [None; Some "Foo does x."]
  /\ deprecates (Some deprecatedDoc)
  /\ doDocs id [7%nat]
       ([None; Some "Foo does x."] ++ Some deprecatedDoc
          :: [Some "Deprecated: Use Baz."]) ∅
     = doDocs id [7%nat] [Some deprecatedDoc] ∅.
Proof.
  assert (Forall (fun d => ~ deprecates d) [None; Some "Foo does x."]) as Hpre.
  { repeat constructor.
    - by intros (text & [=] & _).
    - intros (text & [= <-] & Hp). by vm_compute in Hp. }
  assert (deprecates (Some deprecatedDoc)) as Hdoc.
  { exists deprecatedDoc. split; [done | by vm_compute]. }
  split; [exact Hpre|]. split; [exact Hdoc|].
  apply (doDocs_first_notice id [7%nat] [None; Some "Foo does x."]
           [Some "Deprecated: Use Baz."] (Some deprecatedDoc) ∅ Hpre Hdoc).
Defined.

(** The notice is recorded on one line; an empty notice records nothing
    and hides the notice of a later comment group. *)
Example doDocs_example :
  doDocs id [7%nat] [None; Some deprecatedDoc] ∅
  = Some {[ 7%nat := "Use Bar instead." ]}
  /\ doDocs id [7%nat] [Some "Deprecated: "; Some "Deprecated: Use Baz."] ∅
     = Some ∅.
Proof. split; by vm_compute. Qed.
